(** * QueueSync: a coordinator serving queued client requests, and its worker client

    Shallow embedding of [src/coordinator.py] and [src/worker.py].

    The two classes are written against three pieces of the Python runtime:
    [queue.Queue], [socket.socket] and [threading.Thread].  Those are modelled
    here as operations on an explicit [world] (section "Runtime model"); the
    methods of the two classes are then programs over those operations,
    written in the order of the source. *)

From Stdlib Require Import ZArith Lia.
From stdpp Require Import base option list strings gmap pretty.

Local Open Scope string_scope.
Local Open Scope Z_scope.
Local Open Scope list_scope.

(* ===================================================================== *)
(** ** Values *)
(* ===================================================================== *)

(** A socket object is identified by its descriptor. *)
Definition fd : Type := nat.

(** Python [bytes]. *)
Definition bytes : Type := list Byte.byte.

(** A client address, the [(host, port)] tuple returned by [accept]. *)
Definition address : Type := string * Z.

(** A queue entry: [(client_socket, client_address)]. *)
Definition request : Type := fd * address.

(** The exceptions that appear.  [socket.error] is an alias of [OSError];
    [OverflowError] is what a socket call raises for a port or a backlog that
    is out of range, and it is not an [OSError]. *)
Inductive exn : Type :=
| OSError (strerror : string)
| ValueError (msg : string)
| AttributeError (msg : string)
| OverflowError (msg : string)
| Exception (msg : string).

#[global] Instance exn_eq_dec : EqDecision exn.
Proof. solve_decision. Defined.

(** [except socket.error] *)
Definition is_socket_error (e : exn) : bool :=
  match e with
  | OSError _ => true
  | _ => false
  end.

(** [str(e)], as interpolated in the f-strings of the worker. *)
Definition str_exn (e : exn) : string :=
  match e with
  | OSError m => m
  | ValueError m => m
  | AttributeError m => m
  | OverflowError m => m
  | Exception m => m
  end.

(** [repr] of an address tuple, as interpolated in the f-strings. *)
Definition repr_address (a : address) : string :=
  "('" +:+ a.1 +:+ "', " +:+ pretty a.2 +:+ ")".

(** The result of a call that may raise. *)
Inductive result (A : Type) : Type :=
| Ok (a : A)
| Err (e : exn).
Arguments Ok {A} a.
Arguments Err {A} e.

(* ===================================================================== *)
(** ** Runtime model *)
(* ===================================================================== *)

(** *** [queue.Queue]: an unbounded FIFO with a count of unfinished tasks *)
Module Queue.

Record t : Type := Make {
  items : list request;        (* oldest entry first *)
  unfinished_tasks : nat
}.

Definition empty : t := {| items := []; unfinished_tasks := 0 |}.

(** [put(item)]: append at the tail. *)
Definition put (r : request) (q : t) : t :=
  {| items := items q ++ [r]; unfinished_tasks := S (unfinished_tasks q) |}.

(** [get()]: remove the head; [None] when the caller has to wait. *)
Definition get (q : t) : option (request * t) :=
  match items q with
  | [] => None
  | r :: rest => Some (r, {| items := rest; unfinished_tasks := unfinished_tasks q |})
  end.

(** [task_done()]: one task fewer; [ValueError] when called more often
    than entries were put. *)
Definition task_done (q : t) : result t :=
  match unfinished_tasks q with
  | O => Err (ValueError "task_done() called too many times")
  | S n => Ok {| items := items q; unfinished_tasks := n |}
  end.

(** Every entry still in the queue is an unfinished task. *)
Definition wf (q : t) : Prop := (length (items q) <= unfinished_tasks q)%nat.

End Queue.

(** *** [socket.socket] *)

(** What the program can observe of one socket object.  The remote side is
    either another socket of the same world ([peer]) or the environment, in
    which case [rx] holds what it has sent. *)
Record socket_state : Type := SocketState {
  closed : bool;                     (* [close()] was called *)
  rx : bytes;                        (* arrived, not yet read *)
  rx_eof : bool;                     (* the remote side has closed *)
  tx : bytes;                        (* everything accepted by [send] *)
  peer : option fd;
  recv_fault : option exn;           (* makes [recv] raise *)
  send_fault : option exn;           (* makes [send] raise *)
  send_room : option nat;            (* most bytes one [send] accepts; [None]: all *)
  bound_to : option address
}.

Definition fresh_socket : socket_state :=
  {| closed := false; rx := []; rx_eof := false; tx := []; peer := None;
     recv_fault := None; send_fault := None; send_room := None;
     bound_to := None |}.

Definition set_closed (b : bool) (s : socket_state) : socket_state :=
  SocketState b (rx s) (rx_eof s) (tx s) (peer s) (recv_fault s) (send_fault s)
              (send_room s) (bound_to s).
Definition set_rx (v : bytes) (s : socket_state) : socket_state :=
  SocketState (closed s) v (rx_eof s) (tx s) (peer s) (recv_fault s) (send_fault s)
              (send_room s) (bound_to s).
Definition set_rx_eof (b : bool) (s : socket_state) : socket_state :=
  SocketState (closed s) (rx s) b (tx s) (peer s) (recv_fault s) (send_fault s)
              (send_room s) (bound_to s).
Definition set_tx (v : bytes) (s : socket_state) : socket_state :=
  SocketState (closed s) (rx s) (rx_eof s) v (peer s) (recv_fault s) (send_fault s)
              (send_room s) (bound_to s).
Definition set_bound_to (a : option address) (s : socket_state) : socket_state :=
  SocketState (closed s) (rx s) (rx_eof s) (tx s) (peer s) (recv_fault s) (send_fault s)
              (send_room s) a.
(** *** [threading.Thread] targets *)
Inductive task : Type :=
| ProcessRequests                                   (* target=self.process_requests *)
| QueueClientRequest (client_socket : fd) (client_address : address).
                                                    (* target=self.queue_client_request *)

(** *** The world a program runs in *)
Record world : Type := World {
  sockets : gmap fd socket_state;
  socket_fault : option exn;         (* makes [socket.socket()] raise *)
  bound : gset address;              (* addresses taken by [bind] *)
  listening : gset address;          (* addresses a server listens on *)
  arrivals : list (result request);  (* what the next [accept] calls get: a
                                        connection that has arrived, or an error *)
  request_queue : Queue.t;           (* the coordinator's [self.request_queue] *)
  client_socket : option fd;         (* the worker's [self.client_socket] *)
  stdout : list string;              (* lines printed *)
  threads : list (task * option bool)
                                     (* threads started, with the [daemon] argument
                                        of each: [None] when none was given, and
                                        the thread has the daemon flag of the
                                        thread that started it *)
}.

Definition set_sockets (f : gmap fd socket_state → gmap fd socket_state) (w : world) : world :=
  World (f (sockets w)) (socket_fault w) (bound w) (listening w) (arrivals w) (request_queue w)
        (client_socket w) (stdout w) (threads w).
Definition set_bound (f : gset address → gset address) (w : world) : world :=
  World (sockets w) (socket_fault w) (f (bound w)) (listening w) (arrivals w) (request_queue w)
        (client_socket w) (stdout w) (threads w).
Definition set_listening (f : gset address → gset address) (w : world) : world :=
  World (sockets w) (socket_fault w) (bound w) (f (listening w)) (arrivals w) (request_queue w)
        (client_socket w) (stdout w) (threads w).
Definition set_arrivals (l : list (result request)) (w : world) : world :=
  World (sockets w) (socket_fault w) (bound w) (listening w) l (request_queue w)
        (client_socket w) (stdout w) (threads w).
Definition set_request_queue (q : Queue.t) (w : world) : world :=
  World (sockets w) (socket_fault w) (bound w) (listening w) (arrivals w) q
        (client_socket w) (stdout w) (threads w).
Definition set_client_socket (v : option fd) (w : world) : world :=
  World (sockets w) (socket_fault w) (bound w) (listening w) (arrivals w) (request_queue w)
        v (stdout w) (threads w).
Definition set_stdout (f : list string → list string) (w : world) : world :=
  World (sockets w) (socket_fault w) (bound w) (listening w) (arrivals w) (request_queue w)
        (client_socket w) (f (stdout w)) (threads w).
Definition set_threads (f : list (task * option bool) → list (task * option bool))
    (w : world) : world :=
  World (sockets w) (socket_fault w) (bound w) (listening w) (arrivals w) (request_queue w)
        (client_socket w) (stdout w) (f (threads w)).

Definition empty_world : world :=
  {| sockets := ∅; socket_fault := None; bound := ∅; listening := ∅; arrivals := [];
     request_queue := Queue.empty; client_socket := None; stdout := [];
     threads := [] |}.

(** *** The calls a program makes *)

(** One constructor per runtime call of the two source files; the index is
    the type of what the call gives back. *)
Inductive op : Type → Type :=
| Print (message : string) : op unit
| QueuePut (r : request) : op unit
| QueueGet : op request
| QueueTaskDone : op (result unit)
| SockNew : op (result fd)
| SockBind (s : fd) (a : address) : op (result unit)
| SockListen (s : fd) (backlog : Z) : op (result unit)
| SockAccept (s : fd) : op (result request)
| SockConnect (s : fd) (a : address) : op (result unit)
| SockRecv (s : fd) (bufsize : Z) : op (result bytes)
| SockSend (s : fd) (data : bytes) : op (result Z)
| SockClose (s : fd) : op unit
| Handle (s : fd) (a : address) (data : bytes) : op (result bytes)
| ThreadStart (target : task) (daemon : option bool) : op unit
| GetClientSocket : op (option fd)
| SetClientSocket (v : option fd) : op unit.

(** A socket that can be used: it exists and was not closed. *)
Definition usable (w : world) (s : fd) : result socket_state :=
  match sockets w !! s with
  | None => Err (OSError "Bad file descriptor")
  | Some st => if closed st then Err (OSError "Bad file descriptor") else Ok st
  end.

(** The bytes one [recv(bufsize)] takes from what has arrived, and the
    bytes it leaves. *)
Definition chunk (bufsize : Z) (arrived : bytes) : bytes := take (Z.to_nat bufsize) arrived.
Definition unread (bufsize : Z) (arrived : bytes) : bytes := drop (Z.to_nat bufsize) arrived.
Arguments chunk : simpl never.
Arguments unread : simpl never.

(** How many of [data]'s bytes one [send] accepts. *)
Definition accepted (room : option nat) (data : bytes) : nat :=
  match room with
  | None => length data
  | Some r => r `min` length data
  end.

(** Deliver [data] into the receive buffer of [p]. *)
Definition deliver (p : option fd) (data : bytes) (m : gmap fd socket_state)
  : gmap fd socket_state :=
  match p with
  | None => m
  | Some q => match m !! q with
              | None => m
              | Some st => <[q := set_rx (rx st ++ data) st]> m
              end
  end.

(** Tell [p] that its remote side has closed. *)
Definition hang_up (p : option fd) (m : gmap fd socket_state) : gmap fd socket_state :=
  match p with
  | None => m
  | Some q => match m !! q with
              | None => m
              | Some st => <[q := set_rx_eof true st]> m
              end
  end.

(** The ports a socket address can hold, and the backlogs [listen] can
    take.  The arguments of [bind], [connect] and [listen] are converted
    before the descriptor is used, and a value out of range raises
    [OverflowError]. *)
Definition port_in_range (port : Z) : bool := (0 <=? port) && (port <=? 65535).
Definition fits_c_int (z : Z) : bool := (-2147483648 <=? z) && (z <=? 2147483647).

Section Semantics.

(** The subclass's [handle_request]: what it returns, or raises, for a
    connection, an address and the bytes received. *)
Variable handle_request : fd → address → bytes → result bytes.

(** One call against the world.  [None]: the call waits (empty queue,
    nothing to accept, nothing to read).  The descriptors are reached through
    the socket calls only, so that [close()] has nothing to fail on: it is a
    call that always answers. *)
Definition do_op {X : Type} (o : op X) (w : world) : option (X * world) :=
  match o in op X return option (X * world) with
  | Print message =>
      Some (tt, set_stdout (λ out, out ++ [message]) w)
  | QueuePut r =>
      Some (tt, set_request_queue (Queue.put r (request_queue w)) w)
  | QueueGet =>
      match Queue.get (request_queue w) with
      | None => None
      | Some (r, q) => Some (r, set_request_queue q w)
      end
  | QueueTaskDone =>
      match Queue.task_done (request_queue w) with
      | Ok q => Some (Ok tt, set_request_queue q w)
      | Err e => Some (Err e, w)
      end
  | SockNew =>
      match socket_fault w with
      | Some e => Some (Err e, w)
      | None =>
          let s := fresh (dom (sockets w)) in
          Some (Ok s, set_sockets (λ m, <[s := fresh_socket]> m) w)
      end
  | SockBind s a =>
      if port_in_range a.2
      then
        match usable w s with
        | Err e => Some (Err e, w)
        | Ok st =>
            if decide (a ∈ bound w)
            then Some (Err (OSError "Address already in use"), w)
            else Some (Ok tt, set_bound (λ b, {[a]} ∪ b)
                                (set_sockets (λ m, <[s := set_bound_to (Some a) st]> m) w))
        end
      else Some (Err (OverflowError "bind(): port must be 0-65535."), w)
  | SockListen s backlog =>
      if fits_c_int backlog
      then
        match usable w s with
        | Err e => Some (Err e, w)
        | Ok st =>
            match bound_to st with
            | Some a => Some (Ok tt, set_listening (λ l, {[a]} ∪ l) w)
            | None => Some (Ok tt, w)
            end
        end
      else Some (Err (OverflowError "Python int too large to convert to C int"), w)
  | SockAccept s =>
      match usable w s with
      | Err e => Some (Err e, w)
      | Ok st =>
          match arrivals w with
          | [] => None
          | r :: rest => Some (r, set_arrivals rest w)
          end
      end
  | SockConnect s a =>
      if port_in_range a.2
      then
        match usable w s with
        | Err e => Some (Err e, w)
        | Ok st =>
            if decide (a ∈ listening w)
            then Some (Ok tt, w)
            else Some (Err (OSError "Connection refused"), w)
        end
      else Some (Err (OverflowError "connect(): port must be 0-65535."), w)
  | SockRecv s bufsize =>
      match usable w s with
      | Err e => Some (Err e, w)
      | Ok st =>
          match recv_fault st with
          | Some e => Some (Err e, w)
          | None =>
              if bufsize <? 0
              then Some (Err (ValueError "negative buffersize in recv"), w)
              else
                match rx st with
                | [] => if rx_eof st then Some (Ok [], w) else None
                | _ :: _ =>
                    Some (Ok (chunk bufsize (rx st)),
                          set_sockets
                            (λ m, <[s := set_rx (unread bufsize (rx st)) st]> m) w)
                end
          end
      end
  | SockSend s data =>
      match usable w s with
      | Err e => Some (Err e, w)
      | Ok st =>
          match send_fault st with
          | Some e => Some (Err e, w)
          | None =>
              let n := accepted (send_room st) data in
              Some (Ok (Z.of_nat n),
                    set_sockets
                      (λ m, deliver (peer st) (take n data)
                              (<[s := set_tx (tx st ++ take n data) st]> m)) w)
          end
      end
  | SockClose s =>
      match sockets w !! s with
      | None => Some (tt, w)
      | Some st =>
          Some (tt, set_sockets (λ m, hang_up (peer st) (<[s := set_closed true st]> m)) w)
      end
  | Handle s a data =>
      Some (handle_request s a data, w)
  | ThreadStart target daemon =>
      Some (tt, set_threads (λ ts, ts ++ [(target, daemon)]) w)
  | GetClientSocket =>
      Some (client_socket w, w)
  | SetClientSocket v =>
      Some (tt, set_client_socket v w)
  end.

End Semantics.

(* ===================================================================== *)
(** ** Programs *)
(* ===================================================================== *)

(** A method body: it returns, raises, or makes a call and goes on with
    what the call gave back.  [OutOfFuel] ends the unrolling of a
    [while True] loop. *)
Inductive prog (A : Type) : Type :=
| Ret (a : A)
| Raise (e : exn)
| OutOfFuel
| Vis {X : Type} (o : op X) (k : X → prog A).
Arguments Ret {A} a.
Arguments Raise {A} e.
Arguments OutOfFuel {A}.
Arguments Vis {A X} o k.

Fixpoint bind {A B : Type} (p : prog A) (f : A → prog B) : prog B :=
  match p with
  | Ret a => f a
  | Raise e => Raise e
  | OutOfFuel => OutOfFuel
  | Vis o k => Vis o (λ x, bind (k x) f)
  end.

#[global] Instance prog_ret : MRet prog := @Ret.
#[global] Instance prog_bind : MBind prog := λ A B f p, bind p f.

(** A call whose answer is returned as it is. *)
Definition call {X : Type} (o : op X) : prog X := Vis o Ret.

(** A call that may raise. *)
Definition call_raising {X : Type} (o : op (result X)) : prog X :=
  Vis o (λ r, match r with Ok x => Ret x | Err e => Raise e end).

(** [try: body finally: final].  An exception of [final] replaces the
    outcome of [body]. *)
Fixpoint try_finally {A : Type} (body : prog A) (final : prog unit) : prog A :=
  match body with
  | Ret a => final ;; Ret a
  | Raise e => final ;; Raise e
  | OutOfFuel => OutOfFuel
  | Vis o k => Vis o (λ x, try_finally (k x) final)
  end.

(** [try: body except <catches> as e: handler e]. *)
Fixpoint try_except {A : Type} (body : prog A) (catches : exn → bool)
    (handler : exn → prog A) : prog A :=
  match body with
  | Ret a => Ret a
  | Raise e => if catches e then handler e else Raise e
  | OutOfFuel => OutOfFuel
  | Vis o k => Vis o (λ x, try_except (k x) catches handler)
  end.

(** The runtime calls, named as in the source. *)
Definition print (message : string) : prog unit := call (Print message).
Definition queue_put (r : request) : prog unit := call (QueuePut r).
Definition queue_get : prog request := call QueueGet.
Definition queue_task_done : prog unit := call_raising QueueTaskDone.
Definition socket_socket : prog fd := call_raising SockNew.
Definition sock_bind (s : fd) (a : address) : prog unit := call_raising (SockBind s a).
Definition sock_listen (s : fd) (backlog : Z) : prog unit := call_raising (SockListen s backlog).
Definition sock_accept (s : fd) : prog request := call_raising (SockAccept s).
Definition sock_connect (s : fd) (a : address) : prog unit := call_raising (SockConnect s a).
Definition sock_recv (s : fd) (bufsize : Z) : prog bytes := call_raising (SockRecv s bufsize).
Definition sock_send (s : fd) (data : bytes) : prog Z := call_raising (SockSend s data).
Definition sock_close (s : fd) : prog unit := call (SockClose s).
Definition thread_start (target : task) (daemon : option bool) : prog unit :=
  call (ThreadStart target daemon).

(* ===================================================================== *)
(** ** Running a program on its own *)
(* ===================================================================== *)

(** How a run ends. *)
Inductive outcome (A : Type) : Type :=
| Returned (a : A)
| Raised (e : exn)      (* an exception left the program *)
| Blocked               (* waiting in a call that never answers in this world *)
| Exhausted.            (* the unrolling of a loop was used up *)
Arguments Returned {A} a.
Arguments Raised {A} e.
Arguments Blocked {A}.
Arguments Exhausted {A}.

(** A call together with what it gave back. *)
Inductive event : Type :=
| Event {X : Type} (o : op X) (x : X).

Record run (A : Type) : Type := Run {
  result_of : outcome A;
  world_of : world;
  trace_of : list event
}.
Arguments Run {A} _ _ _.
Arguments result_of {A} _.
Arguments world_of {A} _.
Arguments trace_of {A} _.

Definition after_event {A : Type} (ev : event) (r : run A) : run A :=
  Run (result_of r) (world_of r) (ev :: trace_of r).

Section Exec.

Variable handle_request : fd → address → bytes → result bytes.

Fixpoint exec {A : Type} (p : prog A) (w : world) : run A :=
  match p with
  | Ret a => Run (Returned a) w []
  | Raise e => Run (Raised e) w []
  | OutOfFuel => Run Exhausted w []
  | Vis o k =>
      match do_op handle_request o w with
      | None => Run Blocked w []
      | Some (x, w') => after_event (Event o x) (exec (k x) w')
      end
  end.

End Exec.

(** *** Reading a trace *)

Definition printed (ev : event) : bool :=
  match ev with
  | Event (Print _) _ => true
  | _ => false
  end.

(** The calls other than [print]. *)
Definition io_trace (tr : list event) : list event :=
  omap (λ ev, if printed ev then None else Some ev) tr.

(** The sockets closed, in order. *)
Definition closes (tr : list event) : list fd :=
  omap (λ ev, match ev with Event (SockClose s) _ => Some s | _ => None end) tr.

(** The number of [task_done()] calls. *)
Definition task_dones (tr : list event) : nat :=
  length (omap (λ ev, match ev with Event QueueTaskDone _ => Some ev | _ => None end) tr).

(** The handler invocations, in order, with their arguments. *)
Definition handler_calls (tr : list event) : list (fd * address * bytes) :=
  omap (λ ev, match ev with Event (Handle s a d) _ => Some (s, a, d) | _ => None end) tr.

(** The entries taken from the queue, in order. *)
Definition dequeued (tr : list event) : list request :=
  omap (λ ev, match ev in event return option request with
              | @Event _ QueueGet x => Some x
              | _ => None
              end) tr.

(** The connections accepted, in order. *)
Definition accepted_connections (tr : list event) : list request :=
  omap (λ ev, match ev in event return option request with
              | @Event _ (SockAccept _) (Ok x) => Some x
              | _ => None
              end) tr.

(* ===================================================================== *)
(** ** coordinator.py *)
(* ===================================================================== *)

Module Coordinator.

(** The attributes set by [__init__], apart from [request_queue], which
    is shared with the threads and lives in the world. *)
Record t : Type := Make {
  host : string;
  port : Z;
  max_num_of_clients : Z;
  are_updates_displayed : bool
}.

Definition display_update (self : t) (message : string) : prog unit :=
  if are_updates_displayed self then print message else Ret tt.

Definition queue_client_request (self : t) (client_socket : fd) (client_address : address)
  : prog unit :=
  queue_put (client_socket, client_address) ;;
  display_update self
    ("Request from " +:+ repr_address client_address +:+ " added to the request queue.").

(** The [abstractmethod]: the subclass's code answers the [Handle] call. *)
Definition handle_request (client_socket : fd) (client_address : address)
    (received_data : bytes) : prog bytes :=
  call_raising (Handle client_socket client_address received_data).

(** One pass through the body of the [while True] of [process_requests]. *)
Definition process_request (self : t) : prog unit :=
  '(client_socket, client_address) ← queue_get;
  display_update self ("Processing request from " +:+ repr_address client_address +:+ ".") ;;
  try_finally
    (received_data ← sock_recv client_socket 1024;
     response ← handle_request client_socket client_address received_data;
     sock_send client_socket response ;;
     Ret tt)
    (sock_close client_socket ;;
     display_update self
       ("Closed connection with " +:+ repr_address client_address +:+ ".") ;;
     queue_task_done).

(** [while True: ...], unrolled [fuel] times. *)
Fixpoint process_requests (self : t) (fuel : nat) : prog unit :=
  match fuel with
  | O => OutOfFuel
  | S fuel' => process_request self ;; process_requests self fuel'
  end.

(** One pass through the body of the [while True] of [start]. *)
Definition accept_one (self : t) (server_socket : fd) : prog unit :=
  '(client_socket, client_address) ← sock_accept server_socket;
  display_update self ("Accepted connection from " +:+ repr_address client_address +:+ ".") ;;
  thread_start (QueueClientRequest client_socket client_address) None.

Fixpoint accept_loop (self : t) (server_socket : fd) (fuel : nat) : prog unit :=
  match fuel with
  | O => OutOfFuel
  | S fuel' => accept_one self server_socket ;; accept_loop self server_socket fuel'
  end.

Definition start (self : t) (fuel : nat) : prog unit :=
  server_socket ← socket_socket;
  sock_bind server_socket (host self, port self) ;;
  sock_listen server_socket (max_num_of_clients self) ;;
  display_update self
    ("Coordinator server listening on " +:+ host self +:+ ":" +:+ pretty (port self)) ;;
  thread_start ProcessRequests (Some true) ;;
  accept_loop self server_socket fuel.

(** What a started thread runs. *)
Definition thread_target (self : t) (fuel : nat) (target : task) : prog unit :=
  match target with
  | ProcessRequests => process_requests self fuel
  | QueueClientRequest client_socket client_address =>
      queue_client_request self client_socket client_address
  end.

End Coordinator.

(* ===================================================================== *)
(** ** worker.py *)
(* ===================================================================== *)

Module Worker.

(** The attributes set by [__init__], apart from [client_socket], which
    is assigned by [start] and lives in the world. *)
Record t : Type := Make {
  host : string;
  port : Z;
  are_updates_displayed : bool
}.

Definition display_update (self : t) (message : string) : prog unit :=
  if are_updates_displayed self then print message else Ret tt.

(** [self.client_socket.<method>(...)]: the attribute is read, and a
    method of [None] does not exist. *)
Definition on_client_socket {A : Type} (method : string) (f : fd → prog A) : prog A :=
  cs ← call GetClientSocket;
  match cs with
  | Some s => f s
  | None => Raise (AttributeError ("'NoneType' object has no attribute '" +:+ method +:+ "'"))
  end.

Definition query_coordinator (self : t) (data : bytes) : prog bytes :=
  try_except
    (display_update self "Querying the coordinator..." ;;
     on_client_socket "send" (λ s, sock_send s data) ;;
     display_update self "Waiting for response..." ;;
     response ← on_client_socket "recv" (λ s, sock_recv s 1024);
     display_update self "Response received..." ;;
     Ret response)
    is_socket_error
    (λ e, display_update self ("Error during communication: " +:+ str_exn e) ;;
          Ret []).

(** [run_worker] is the [abstractmethod]; the subclass's code is a
    parameter. *)
Definition start (self : t) (run_worker : prog unit) : prog unit :=
  try_finally
    (try_except
       (s ← socket_socket;
        call (SetClientSocket (Some s)) ;;
        on_client_socket "connect" (λ s, sock_connect s (host self, port self)) ;;
        display_update self
          ("Connected to server at " +:+ host self +:+ ":" +:+ pretty (port self)) ;;
        run_worker)
       is_socket_error
       (λ e, display_update self ("Connection error: " +:+ str_exn e)))
    (cs ← call GetClientSocket;
     match cs with
     | Some _ =>
         on_client_socket "close" sock_close ;;
         call (SetClientSocket None) ;;
         display_update self "Connection closed."
     | None => Ret tt
     end).

End Worker.

(* ===================================================================== *)
(** ** Running the threads of the coordinator together *)
(* ===================================================================== *)

(** A thread: what is left of its target, and whether it is inside the
    subclass's [handle_request] (the [Handle] call takes two steps, one
    to enter and one to leave, so that it has a duration). *)
Record thread : Type := Thread {
  code : prog unit;
  in_handler : bool
}.

Record system : Type := System {
  shared : world;
  pool : list thread
}.

Definition is_handle {X : Type} (o : op X) : bool :=
  match o with
  | Handle _ _ _ => true
  | _ => false
  end.

Definition started {X : Type} (o : op X) : option task :=
  match o with
  | ThreadStart target _ => Some target
  | _ => None
  end.

Section Threads.

Variable handle_request : fd → address → bytes → result bytes.
Variable self : Coordinator.t.
Variable fuel : nat.

Definition new_threads {X : Type} (o : op X) : list thread :=
  match started o with
  | Some target => [Thread (Coordinator.thread_target self fuel target) false]
  | None => []
  end.

(** One step of one thread: the thread after it, the world after it and
    the threads it started.  [None]: the thread has ended or waits. *)
Definition thread_step (th : thread) (w : world) : option (thread * world * list thread) :=
  match code th with
  | Vis o k =>
      if is_handle o && negb (in_handler th)
      then Some (Thread (code th) true, w, [])
      else match do_op handle_request o w with
           | None => None
           | Some (x, w') => Some (Thread (k x) false, w', new_threads o)
           end
  | _ => None
  end.

(** The scheduler lets thread [i] take a step. *)
Definition system_step (i : nat) (σ : system) : system :=
  match pool σ !! i with
  | None => σ
  | Some th =>
      match thread_step th (shared σ) with
      | None => σ
      | Some (th', w', new) => System w' (<[i := th']> (pool σ) ++ new)
      end
  end.

Definition system_run (schedule : list nat) (σ : system) : system :=
  foldl (λ σ i, system_step i σ) σ schedule.

(** The process at the call of [start]: one thread. *)
Definition boot (w : world) : system :=
  System w [Thread (Coordinator.start self fuel) false].

End Threads.

(** How many threads are inside [handle_request]. *)
Definition handling (σ : system) : nat :=
  length (filter (λ th, in_handler th = true) (pool σ)).

(* ===================================================================== *)
(** ** A worker and the coordinator across one connection *)
(* ===================================================================== *)

Inductive party : Type := TheWorker | TheCoordinator.

(** The worker's call of [query_coordinator] on one side, the processing
    loop of the coordinator on the other, and the network between them. *)
Record exchange : Type := Exchange {
  worker_side : prog bytes;
  coordinator_side : prog unit;
  network : world
}.

Section Exchange.

Variable handle_request : fd → address → bytes → result bytes.

(** One call of a program; [None]: it has ended or waits. *)
Definition advance {A : Type} (p : prog A) (w : world) : option (prog A * world) :=
  match p with
  | Vis o k =>
      match do_op handle_request o w with
      | None => None
      | Some (x, w') => Some (k x, w')
      end
  | _ => None
  end.

Definition exchange_step (who : party) (x : exchange) : exchange :=
  match who with
  | TheWorker =>
      match advance (worker_side x) (network x) with
      | None => x
      | Some (p, w) => Exchange p (coordinator_side x) w
      end
  | TheCoordinator =>
      match advance (coordinator_side x) (network x) with
      | None => x
      | Some (p, w) => Exchange (worker_side x) p w
      end
  end.

Definition exchange_run (schedule : list party) (x : exchange) : exchange :=
  foldl (λ x who, exchange_step who x) x schedule.

End Exchange.

(** The two ends of an established connection: descriptor [0] is the
    worker's socket, descriptor [1] the socket the coordinator accepted. *)
Definition worker_end : socket_state :=
  SocketState false [] false [] (Some 1%nat) None None None None.
Definition coordinator_end : socket_state :=
  SocketState false [] false [] (Some 0%nat) None None None None.

(** The connection is established, assigned to the worker and registered
    in the coordinator's queue. *)
Definition connected (worker_address : address) : world :=
  {| sockets := {[ 0%nat := worker_end; 1%nat := coordinator_end ]};
     socket_fault := None; bound := ∅; listening := ∅; arrivals := [];
     request_queue := Queue.put (1%nat, worker_address) Queue.empty;
     client_socket := Some 0%nat; stdout := []; threads := [] |}.

(** The worker asks [payload]; the coordinator runs its processing loop. *)
Definition round_trip (w : Worker.t) (c : Coordinator.t) (fuel : nat)
    (worker_address : address) (payload : bytes) : exchange :=
  {| worker_side := Worker.query_coordinator w payload;
     coordinator_side := Coordinator.process_requests c fuel;
     network := connected worker_address |}.

(** The worker and the coordinator in turn, [n] times each. *)
Definition in_turn (n : nat) : list party :=
  concat (replicate n [TheWorker; TheCoordinator]).

(** The subclass of the round trip: the handler returns what it received. *)
Definition echo : fd → address → bytes → result bytes := λ _ _ data, Ok data.

(* ===================================================================== *)
(** ** How runs compose *)
(* ===================================================================== *)

(** The run of [p ;; f]: [f] starts where [p] returned. *)
Definition and_then {A B : Type} (r : run A) (f : A → world → run B) : run B :=
  match result_of r with
  | Returned a =>
      let r' := f a (world_of r) in
      Run (result_of r') (world_of r') (trace_of r ++ trace_of r')
  | Raised e => Run (Raised e) (world_of r) (trace_of r)
  | Blocked => Run Blocked (world_of r) (trace_of r)
  | Exhausted => Run Exhausted (world_of r) (trace_of r)
  end.

(** The run of [try: ... finally: ...]: [final] starts where the body
    returned or raised, and the body's outcome stands when [final] returns. *)
Definition and_finally {A : Type} (r : run A) (final : world → run unit) : run A :=
  match result_of r with
  | Returned a =>
      let r' := final (world_of r) in
      Run (match result_of r' with
           | Returned _ => Returned a
           | Raised e' => Raised e'
           | Blocked => Blocked
           | Exhausted => Exhausted
           end) (world_of r') (trace_of r ++ trace_of r')
  | Raised e =>
      let r' := final (world_of r) in
      Run (match result_of r' with
           | Returned _ => Raised e
           | Raised e' => Raised e'
           | Blocked => Blocked
           | Exhausted => Exhausted
           end) (world_of r') (trace_of r ++ trace_of r')
  | Blocked => Run Blocked (world_of r) (trace_of r)
  | Exhausted => Run Exhausted (world_of r) (trace_of r)
  end.

(** The run of [try: ... except ...: ...]. *)
Definition or_else {A : Type} (r : run A) (catches : exn → bool)
    (handler : exn → world → run A) : run A :=
  match result_of r with
  | Raised e =>
      if catches e
      then let r' := handler e (world_of r) in
           Run (result_of r') (world_of r') (trace_of r ++ trace_of r')
      else r
  | _ => r
  end.

(** A run that left the program, by a return or by an exception. *)
Definition exited {A : Type} (r : run A) : Prop :=
  match result_of r with
  | Returned _ | Raised _ => True
  | Blocked | Exhausted => False
  end.

(** The exceptions raised by the [send] and [recv] calls of a trace. *)
Definition io_errors (tr : list event) : list exn :=
  omap (λ ev, match ev in event return option exn with
              | @Event _ (SockSend _ _) (Err e) => Some e
              | @Event _ (SockRecv _ _) (Err e) => Some e
              | _ => None
              end) tr.

(** *** Kinds of calls *)

Definition is_queue_op {X : Type} (o : op X) : bool :=
  match o with
  | QueuePut _ | QueueGet | QueueTaskDone => true
  | _ => false
  end.

Definition is_sock_new {X : Type} (o : op X) : bool :=
  match o with
  | SockNew => true
  | _ => false
  end.

Definition is_sock_close {X : Type} (o : op X) : bool :=
  match o with
  | SockClose _ => true
  | _ => false
  end.

Definition is_assignment {X : Type} (o : op X) : bool :=
  match o with
  | SetClientSocket _ => true
  | _ => false
  end.

Definition is_print {X : Type} (o : op X) : bool :=
  match o with
  | Print _ => true
  | _ => false
  end.

Definition is_thread_start {X : Type} (o : op X) : bool :=
  match o with
  | ThreadStart _ _ => true
  | _ => false
  end.

(** Every call a program can make satisfies [P]. *)
Inductive all_ops (P : ∀ X : Type, op X → Prop) {A : Type} : prog A → Prop :=
| all_ops_ret (a : A) : all_ops P (Ret a)
| all_ops_raise (e : exn) : all_ops P (Raise e)
| all_ops_out_of_fuel : all_ops P OutOfFuel
| all_ops_vis {X : Type} (o : op X) (k : X → prog A) :
    P X o → (∀ x, all_ops P (k x)) → all_ops P (Vis o k).

(** Which sockets exist, and which of them are closed. *)
Definition socket_status (w : world) : gmap fd bool := closed <$> sockets w.

(** *** The pieces of the loop body of [process_requests] *)

(** The [try] block and the [finally] block of the loop body. *)
Definition try_block (s : fd) (a : address) : prog unit :=
  received_data ← sock_recv s 1024;
  response ← Coordinator.handle_request s a received_data;
  sock_send s response ;;
  Ret tt.

Definition finally_block (self : Coordinator.t) (s : fd) (a : address) : prog unit :=
  sock_close s ;;
  Coordinator.display_update self
    ("Closed connection with " +:+ repr_address a +:+ ".") ;;
  queue_task_done.


(** The [recv] of connection [s] does not wait: if the connection can be
    read at all, something has arrived or its client has finished. *)
Definition recv_answers (w : world) (s : fd) : Prop :=
  ∀ st, sockets w !! s = Some st → closed st = false → recv_fault st = None →
        rx st ≠ [] ∨ rx_eof st = true.

(** A connection after its request was served: read from, written to and
    closed. *)
Definition served (st : socket_state) (response : bytes) : socket_state :=
  set_closed true
    (set_tx (tx st ++ take (accepted (send_room st) response) response)
       (set_rx (unread 1024 (rx st)) st)).

(* ===================================================================== *)
(** ** Sample inputs *)
(* ===================================================================== *)

(** A client connection on which [data] has arrived. *)
Definition client_with (data : bytes) : socket_state := set_rx data fresh_socket.

(** A client connection whose [recv] raises [e]. *)
Definition client_failing_recv (e : exn) : socket_state :=
  SocketState false [] false [] None (Some e) None None None.

Definition alice : address := ("10.0.0.7", 40001).
Definition bob : address := ("10.0.0.8", 40002).

(** The bytes of "hi" and of "yo". *)
Definition hi : bytes := [Byte.x68; Byte.x69].
Definition yo : bytes := [Byte.x79; Byte.x6f].

Definition reset_by_peer : exn := OSError "Connection reset by peer".

Definition sample_coordinator : Coordinator.t := Coordinator.Make "127.0.0.1" 5000 5 true.
Definition sample_worker : Worker.t := Worker.Make "127.0.0.1" 5000 true.

(** The coordinator's process with the given client connections open and
    the given entries in its queue. *)
Definition serving (clients : list (fd * socket_state)) (entries : list request) : world :=
  {| sockets := list_to_map clients; socket_fault := None; bound := ∅; listening := ∅; arrivals := [];
     request_queue := Queue.Make entries (length entries);
     client_socket := None; stdout := []; threads := [] |}.

(** Alice's request is in the queue and her "hi" has arrived. *)
Definition alice_waiting : world := serving [(5%nat, client_with hi)] [(5%nat, alice)].

(** Alice's request is in the queue and her connection was reset. *)
Definition alice_reset : world :=
  serving [(5%nat, client_failing_recv reset_by_peer)] [(5%nat, alice)].

(** Alice's connection was reset; Bob's request waits behind hers. *)
Definition alice_reset_then_bob : world :=
  serving [(5%nat, client_failing_recv reset_by_peer); (6%nat, client_with yo)]
          [(5%nat, alice); (6%nat, bob)].

(* ===================================================================== *)
(** ** Requests entering the queue *)
(* ===================================================================== *)

(** The registration threads of the connections [rs], run one after the
    other in this order. *)
Fixpoint register_all (self : Coordinator.t) (rs : list request) : prog unit :=
  match rs with
  | [] => Ret tt
  | r :: rs' => Coordinator.queue_client_request self r.1 r.2 ;; register_all self rs'
  end.

(** What the first read of connection [s] gets. *)
Definition arrived (w : world) (s : fd) : bytes :=
  match sockets w !! s with
  | Some st => chunk 1024 (rx st)
  | None => []
  end.

(** The read, the handler call and the write of request [r] succeed: its
    connection is live, its client is remote, something has arrived or the
    client has finished, and the handler returns. *)
Definition servable (handle_request : fd → address → bytes → result bytes)
    (w : world) (r : request) : Prop :=
  ∃ st response,
    sockets w !! r.1 = Some st ∧ closed st = false
    ∧ recv_fault st = None ∧ send_fault st = None ∧ peer st = None
    ∧ (rx st ≠ [] ∨ rx_eof st = true)
    ∧ handle_request r.1 r.2 (chunk 1024 (rx st)) = Ok response.

(** The request a handler invocation was made for. *)
Definition request_of (c : fd * address * bytes) : request := (c.1.1, c.1.2).



(** A world in which the worker is connected and every [send] fails. *)
Definition broken_pipe : world :=
  {| sockets := {[ 0%nat := SocketState false [] false [] None None
                              (Some (OSError "Broken pipe")) None None ]};
     socket_fault := None; bound := ∅; listening := ∅; arrivals := [];
     request_queue := Queue.empty; client_socket := Some 0%nat;
     stdout := []; threads := [] |}.

(** *** The pieces of [Worker.start] *)

(** The [try] block, the [except] handler and the [finally] block. *)
Definition connect_and_run (self : Worker.t) (run_worker : prog unit) : prog unit :=
  s ← socket_socket;
  call (SetClientSocket (Some s)) ;;
  Worker.on_client_socket "connect"
    (λ s, sock_connect s (Worker.host self, Worker.port self)) ;;
  Worker.display_update self
    ("Connected to server at " +:+ Worker.host self +:+ ":" +:+ pretty (Worker.port self)) ;;
  run_worker.

Definition report_connection_error (self : Worker.t) (e : exn) : prog unit :=
  Worker.display_update self ("Connection error: " +:+ str_exn e).

Definition disconnect (self : Worker.t) : prog unit :=
  cs ← call GetClientSocket;
  match cs with
  | Some _ =>
      Worker.on_client_socket "close" sock_close ;;
      call (SetClientSocket None) ;;
      Worker.display_update self "Connection closed."
  | None => Ret tt
  end.

(** The world in which [run_worker] starts: [start] has made a socket,
    assigned it to [self.client_socket], connected it and told so. *)
Definition worker_connected (self : Worker.t) (w : world) : world :=
  let s := fresh (dom (sockets w)) in
  let w1 := set_client_socket (Some s) (set_sockets (λ m, <[s := fresh_socket]> m) w) in
  if Worker.are_updates_displayed self
  then set_stdout
         (λ out, out ++ ["Connected to server at " +:+ Worker.host self +:+ ":"
                         +:+ pretty (Worker.port self)]) w1
  else w1.

(** How [start] ends when [run_worker] ends with [o]: a socket error is
    caught, everything else passes. *)
Definition start_outcome (o : outcome unit) : outcome unit :=
  match o with
  | Raised e => if is_socket_error e then Returned tt else Raised e
  | _ => o
  end.

(** A coordinator listens where the sample worker connects. *)
Definition coordinator_up : world :=
  set_listening (λ _, {[ ("127.0.0.1", 5000) ]}) empty_world.



(** A [run_worker] that sends [data] over the connection and is done. *)
Definition send_once (data : bytes) : prog unit :=
  Worker.on_client_socket "send" (λ s, sock_send s data) ;; Ret tt.


(** The registration thread started for an accepted connection: no
    [daemon] argument is given. *)
Definition registration (c : request) : task * option bool :=
  (QueueClientRequest c.1 c.2, None).

(** Too many open files: the error of the sample [accept]. *)
Definition too_many_files : exn := OSError "Too many open files".

(** Alice's connection cannot be accepted; Bob's arrives after it. *)
Definition alice_fails_then_bob : world :=
  set_arrivals [Err too_many_files; Ok (6%nat, bob)]
    (serving [(6%nat, client_with yo)] []).

(** Alice's connection arrives, then an [accept] fails, then Bob's arrives. *)
Definition alice_then_failure_then_bob : world :=
  set_arrivals [Ok (5%nat, alice); Err too_many_files; Ok (6%nat, bob)]
    (serving [(5%nat, client_with hi); (6%nat, client_with yo)] []).

(** A run after the calls [tr]. *)
Definition after_events {A : Type} (tr : list event) (r : run A) : run A :=
  Run (result_of r) (world_of r) (tr ++ trace_of r).

(** The calls of [start] before its accept loop, when they succeed. *)
Definition setup_trace (self : Coordinator.t) (s : fd) : list event :=
  [Event SockNew (Ok s);
   Event (SockBind s (Coordinator.host self, Coordinator.port self)) (Ok tt);
   Event (SockListen s (Coordinator.max_num_of_clients self)) (Ok tt)]
  ++ (if Coordinator.are_updates_displayed self
      then [Event (Print ("Coordinator server listening on " +:+ Coordinator.host self
                          +:+ ":" +:+ pretty (Coordinator.port self))) tt]
      else [])
  ++ [Event (ThreadStart ProcessRequests (Some true)) tt].

(* ===================================================================== *)
(** ** Runs that differ in what they print *)
(* ===================================================================== *)

(** The same object with another [are_updates_displayed]. *)
Definition coordinator_displaying (b : bool) (c : Coordinator.t) : Coordinator.t :=
  Coordinator.Make (Coordinator.host c) (Coordinator.port c)
    (Coordinator.max_num_of_clients c) b.

Definition worker_displaying (b : bool) (k : Worker.t) : Worker.t :=
  Worker.Make (Worker.host k) (Worker.port k) b.

(** The world without what was printed. *)
Definition silence (w : world) : world := set_stdout (λ _, []) w.

(** Two programs that make the same calls, apart from [print]. *)
Inductive same_but_prints {A : Type} : prog A → prog A → Prop :=
| sbp_ret (a : A) : same_but_prints (Ret a) (Ret a)
| sbp_raise (e : exn) : same_but_prints (Raise e) (Raise e)
| sbp_out_of_fuel : same_but_prints OutOfFuel OutOfFuel
| sbp_vis {X : Type} (o : op X) (k k' : X → prog A) :
    (∀ x, same_but_prints (k x) (k' x)) → same_but_prints (Vis o k) (Vis o k')
| sbp_print_l (message : string) (k : unit → prog A) (q : prog A) :
    same_but_prints (k tt) q → same_but_prints (Vis (Print message) k) q
| sbp_print_r (message : string) (p : prog A) (k : unit → prog A) :
    same_but_prints p (k tt) → same_but_prints p (Vis (Print message) k).

(** Two operations that cannot be told apart but by what they print: in
    every world they end the same way, with the same result, make the same
    calls apart from [print], and leave the same world apart from the
    printed lines. *)
Definition inert {A : Type} (p q : prog A) : Prop :=
  ∀ (handle_request : fd → address → bytes → result bytes) (w : world),
    result_of (exec handle_request p w) = result_of (exec handle_request q w)
    ∧ silence (world_of (exec handle_request p w))
      = silence (world_of (exec handle_request q w))
    ∧ io_trace (trace_of (exec handle_request p w))
      = io_trace (trace_of (exec handle_request q w)).

(* ===================================================================== *)
(** ** Who may call the handler *)
(* ===================================================================== *)

(** A program that never calls the handler and never starts a processing
    thread: the registration threads, and [start] once it is in its accept
    loop. *)
Definition bystander {A : Type} (p : prog A) : Prop :=
  all_ops (λ X (o : op X), is_handle o = false ∧ started o ≠ Some ProcessRequests) p.

(** A program that starts no processing thread: the processing loop. *)
Definition consumer {A : Type} (p : prog A) : Prop :=
  all_ops (λ X (o : op X), started o ≠ Some ProcessRequests) p.

(** A program that never calls the handler and starts at most one
    processing thread, after which it is a bystander: [start]. *)
Inductive starter {A : Type} : prog A → Prop :=
| starter_ret (a : A) : starter (Ret a)
| starter_raise (e : exn) : starter (Raise e)
| starter_out_of_fuel : starter OutOfFuel
| starter_vis {X : Type} (o : op X) (k : X → prog A) :
    is_handle o = false → started o ≠ Some ProcessRequests →
    (∀ x, starter (k x)) → starter (Vis o k)
| starter_spawn {X : Type} (o : op X) (k : X → prog A) :
    started o = Some ProcessRequests →
    (∀ x, bystander (k x)) → starter (Vis o k).

(** Thread [th] is outside the handler and will stay outside. *)
Definition stays_outside (th : thread) : Prop :=
  bystander (code th) ∧ in_handler th = false.

(** The one thread that may be, or may start, the consumer of the queue. *)
Definition may_consume (th : thread) : Prop :=
  (starter (code th) ∧ in_handler th = false) ∨ consumer (code th).

(** At most one thread of the pool, the one at index [special] if any, may
    be or start the consumer; all the others stay outside the handler. *)
Definition single_consumer (special : option nat) (σ : system) : Prop :=
  ∀ i th, pool σ !! i = Some th →
          if decide (special = Some i) then may_consume th else stays_outside th.

(** Two consumers of one queue, each with a request to serve: what
    [start] never builds. *)
Definition two_consumers : system :=
  {| shared := serving [(5%nat, client_with hi); (6%nat, client_with yo)]
                       [(5%nat, alice); (6%nat, bob)];
     pool := [Thread (Coordinator.process_requests sample_coordinator 2) false;
              Thread (Coordinator.process_requests sample_coordinator 2) false] |}.

(** Alice's connection is about to arrive at a coordinator not yet started. *)
Definition alice_arriving : world :=
  set_arrivals [Ok (5%nat, alice)] (serving [(5%nat, client_with hi)] []).

(* ===================================================================== *)
(** ** Where the two sides of a round trip are *)
(* ===================================================================== *)

(** The worker inside [query_coordinator]: before each of its calls. *)
Inductive worker_phase : Type :=
| AtQuery            (* about to announce the query *)
| AtSendLookup       (* about to read [self.client_socket] for [send] *)
| AtSend             (* about to [send] *)
| AtWaiting          (* about to announce the wait *)
| AtRecvLookup       (* about to read [self.client_socket] for [recv] *)
| AtRecv             (* about to [recv] *)
| AtReceived         (* about to announce the response *)
| AtReturn.          (* returned *)

(** The coordinator inside [process_requests]: before each of its calls. *)
Inductive coordinator_phase : Type :=
| AtGet              (* about to take the entry from the queue *)
| AtProcessing       (* about to announce the processing *)
| AtRead             (* about to [recv] *)
| AtHandle           (* about to call the handler *)
| AtWrite            (* about to [send] *)
| AtClose            (* about to [close] *)
| AtClosed           (* about to announce the closing *)
| AtTaskDone         (* about to mark the entry done *)
| AtNext.            (* in the next pass of the loop *)

Definition w_rank (ph : worker_phase) : nat :=
  match ph with
  | AtQuery => 0 | AtSendLookup => 1 | AtSend => 2 | AtWaiting => 3
  | AtRecvLookup => 4 | AtRecv => 5 | AtReceived => 6 | AtReturn => 7
  end.

Definition c_rank (ph : coordinator_phase) : nat :=
  match ph with
  | AtGet => 0 | AtProcessing => 1 | AtRead => 2 | AtHandle => 3 | AtWrite => 4
  | AtClose => 5 | AtClosed => 6 | AtTaskDone => 7 | AtNext => 8
  end.

(** The worker has sent its payload; it has read the response. *)
Definition w_sent (ph : worker_phase) : bool := (3 <=? w_rank ph)%nat.
Definition w_received (ph : worker_phase) : bool := (6 <=? w_rank ph)%nat.

(** The coordinator has taken the entry; has read the request; has written
    the response; has closed the connection; has marked the entry done. *)
Definition c_got (ph : coordinator_phase) : bool := (1 <=? c_rank ph)%nat.
Definition c_received (ph : coordinator_phase) : bool := (3 <=? c_rank ph)%nat.
Definition c_sent (ph : coordinator_phase) : bool := (5 <=? c_rank ph)%nat.
Definition c_closed (ph : coordinator_phase) : bool := (6 <=? c_rank ph)%nat.
Definition c_done (ph : coordinator_phase) : bool := (8 <=? c_rank ph)%nat.

Section RoundTrip.

Variable k : Worker.t.
Variable c : Coordinator.t.
Variable n : nat.
Variable a : address.
Variable payload : bytes.

(** The [try ... except socket.error] of [query_coordinator] around what
    is left of its body. *)
Definition guarded (body : prog bytes) : prog bytes :=
  try_except body is_socket_error
    (λ e, Worker.display_update k ("Error during communication: " +:+ str_exn e) ;;
          Ret []).

Definition after_response (response : bytes) : prog bytes :=
  Worker.display_update k "Response received..." ;;
  Ret response.

Definition receive : prog bytes :=
  response ← Worker.on_client_socket "recv" (λ s, sock_recv s 1024);
  after_response response.

Definition wait_and_receive : prog bytes :=
  Worker.display_update k "Waiting for response..." ;;
  receive.

(** What is left of [query_coordinator payload] in each phase. *)
Definition worker_prog (ph : worker_phase) : prog bytes :=
  match ph with
  | AtQuery => Worker.query_coordinator k payload
  | AtSendLookup =>
      guarded (Worker.on_client_socket "send" (λ s, sock_send s payload) ;; wait_and_receive)
  | AtSend => guarded (sock_send 0%nat payload ;; wait_and_receive)
  | AtWaiting => guarded wait_and_receive
  | AtRecvLookup => guarded receive
  | AtRecv => guarded (sock_recv 0%nat 1024 ≫= after_response)
  | AtReceived => guarded (after_response payload)
  | AtReturn => Ret payload
  end.

Definition next_passes : unit → prog unit := λ _, Coordinator.process_requests c n.

Definition serve : prog unit := try_finally (try_block 1%nat a) (finally_block c 1%nat a).

(** What is left of [process_requests], unrolled [S n] times, in each phase
    of its first pass. *)
Definition coordinator_prog (ph : coordinator_phase) : prog unit :=
  match ph with
  | AtGet => Coordinator.process_requests c (S n)
  | AtProcessing =>
      (Coordinator.display_update c ("Processing request from " +:+ repr_address a +:+ ".") ;;
       serve) ≫= next_passes
  | AtRead => serve ≫= next_passes
  | AtHandle =>
      try_finally
        (response ← Coordinator.handle_request 1%nat a payload;
         sock_send 1%nat response ;; Ret tt)
        (finally_block c 1%nat a) ≫= next_passes
  | AtWrite =>
      try_finally (sock_send 1%nat payload ;; Ret tt) (finally_block c 1%nat a) ≫= next_passes
  | AtClose => (finally_block c 1%nat a ;; Ret tt) ≫= next_passes
  | AtClosed =>
      ((Coordinator.display_update c ("Closed connection with " +:+ repr_address a +:+ ".") ;;
        queue_task_done) ;; Ret tt) ≫= next_passes
  | AtTaskDone => (queue_task_done ;; Ret tt) ≫= next_passes
  | AtNext => Coordinator.process_requests c n
  end.

(** The two ends of the connection in each pair of phases. *)
Definition worker_end_at (wph : worker_phase) (cph : coordinator_phase) : socket_state :=
  SocketState false
    (if c_sent cph && negb (w_received wph) then payload else [])
    (c_closed cph)
    (if w_sent wph then payload else [])
    (Some 1%nat) None None None None.

Definition coordinator_end_at (wph : worker_phase) (cph : coordinator_phase) : socket_state :=
  SocketState (c_closed cph)
    (if w_sent wph && negb (c_received cph) then payload else [])
    false
    (if c_sent cph then payload else [])
    (Some 0%nat) None None None None.

Definition queue_at (cph : coordinator_phase) : Queue.t :=
  Queue.Make (if c_got cph then [] else [(1%nat, a)]) (if c_done cph then 0 else 1).

(** The exchange [x] is in the phases [wph] and [cph]. *)
Record in_phase (wph : worker_phase) (cph : coordinator_phase) (x : exchange) : Prop :=
  InPhase {
    at_worker : worker_side x = worker_prog wph;
    at_coordinator : coordinator_side x = coordinator_prog cph;
    worker_socket : sockets (network x) !! 0%nat = Some (worker_end_at wph cph);
    coordinator_socket : sockets (network x) !! 1%nat = Some (coordinator_end_at wph cph);
    queue_now : request_queue (network x) = queue_at cph;
    assigned : client_socket (network x) = Some 0%nat;
    read_after_sent : c_received cph = true → w_sent wph = true ∧ payload ≠ [];
    received_after_written : w_received wph = true → c_sent cph = true
  }.

End RoundTrip.

(* ===================================================================== *)
(** ** Further behaviour of the two classes *)
(* ===================================================================== *)

(** The error of calling [method] on [None]. *)
Definition no_attribute (method : string) : exn :=
  AttributeError ("'NoneType' object has no attribute '" +:+ method +:+ "'").

(** The calls that make, assign or close a socket, or touch the queue or
    the threads: what [query_coordinator] leaves to [start]. *)
Definition is_housekeeping {X : Type} (o : op X) : bool :=
  is_sock_new o || is_sock_close o || is_assignment o || is_queue_op o || is_thread_start o.

(** A worker whose connection holds [arrived], unread. *)
Definition worker_with (arrived : bytes) (eof : bool) : world :=
  {| sockets := {[ 0%nat := SocketState false arrived eof [] None None None None None ]};
     socket_fault := None; bound := ∅; listening := ∅; arrivals := [];
     request_queue := Queue.empty; client_socket := Some 0%nat;
     stdout := []; threads := [] |}.

(** A client connection on which [data] has arrived and whose [send]
    accepts at most [room] bytes at a time. *)
Definition slow_client (data : bytes) (room : nat) : socket_state :=
  SocketState false data false [] None None None (Some room) None.

(** The calls of [start] itself: it makes its server socket, binds it,
    listens, accepts, prints and starts threads. *)
Definition is_server_call {X : Type} (o : op X) : bool :=
  match o with
  | SockNew | SockBind _ _ | SockListen _ _ | SockAccept _ | Print _ | ThreadStart _ _ => true
  | _ => false
  end.

(** The calls of the accept loop. *)
Definition is_accept_call {X : Type} (o : op X) : bool :=
  match o with
  | SockAccept _ | Print _ | ThreadStart _ _ => true
  | _ => false
  end.

(** The address of the sample coordinator is taken by another server. *)
Definition address_taken : world :=
  set_bound (λ _, {[ ("127.0.0.1", 5000) ]}) alice_arriving.

(* ===================================================================== *)
(** ** The entries in the hands of the threads *)
(* ===================================================================== *)

Definition is_take_or_done {X : Type} (o : op X) : bool :=
  match o with
  | QueueGet | QueueTaskDone => true
  | _ => false
  end.

(** A thread that goes on as [p] holds [d] entries, taken from the queue
    and not yet marked done, and marks done only entries it holds. *)
Inductive holds {A : Type} : nat → prog A → Prop :=
| holds_ret (d : nat) (a : A) : holds d (Ret a)
| holds_raise (d : nat) (e : exn) : holds d (Raise e)
| holds_out_of_fuel (d : nat) : holds d OutOfFuel
| holds_get (d : nat) (k : request → prog A) :
    (∀ x, holds (S d) (k x)) → holds d (Vis QueueGet k)
| holds_task_done (d : nat) (k : result unit → prog A) :
    (∀ x, holds d (k x)) → holds (S d) (Vis QueueTaskDone k)
| holds_other (d : nat) {X : Type} (o : op X) (k : X → prog A) :
    is_take_or_done o = false → (∀ x, holds d (k x)) → holds d (Vis o k).

(** Every entry in the queue and every entry in the hands of a thread is
    an unfinished task. *)
Definition accounted (σ : system) : Prop :=
  ∃ ds : list nat,
    Forall2 (λ d th, holds d (code th)) ds (pool σ)
    ∧ (length (Queue.items (request_queue (shared σ))) + sum_list ds
       ≤ Queue.unfinished_tasks (request_queue (shared σ)))%nat.

(* ===================================================================== *)
(** ** The round trip with any handler and any payload *)
(* ===================================================================== *)

Section AnyRoundTrip.

Variable handle_request : fd → address → bytes → result bytes.
Variable k : Worker.t.
Variable c : Coordinator.t.
Variable n : nat.
Variable a : address.
Variable payload : bytes.

(** What the coordinator reads of the payload, and what it leaves. *)
Definition request_read : bytes := chunk 1024 payload.
Definition request_left : bytes := unread 1024 payload.

(** What the handler does with what was read. *)
Definition answer : result bytes := handle_request 1%nat a request_read.

(** What the coordinator writes: the handler's response, or nothing when
    the handler raises. *)
Definition response_written : bytes :=
  match answer with
  | Ok response => response
  | Err _ => []
  end.

(** What the worker reads of it, and what it leaves. *)
Definition reply : bytes := chunk 1024 response_written.
Definition reply_left : bytes := unread 1024 response_written.

(** How the [try] statement of the pass ends, after its [finally] block. *)
Definition ending : prog unit :=
  match answer with
  | Ok _ => Ret tt
  | Err e => Raise e
  end.

(** What is left of [query_coordinator payload] in each phase. *)
Definition worker_doing (ph : worker_phase) : prog bytes :=
  match ph with
  | AtQuery => Worker.query_coordinator k payload
  | AtSendLookup =>
      guarded k (Worker.on_client_socket "send" (λ s, sock_send s payload) ;;
                 wait_and_receive k)
  | AtSend => guarded k (sock_send 0%nat payload ;; wait_and_receive k)
  | AtWaiting => guarded k (wait_and_receive k)
  | AtRecvLookup => guarded k (receive k)
  | AtRecv => guarded k (sock_recv 0%nat 1024 ≫= after_response k)
  | AtReceived => guarded k (after_response k reply)
  | AtReturn => Ret reply
  end.

(** What is left of [process_requests], unrolled [S n] times, in each phase
    of its first pass. *)
Definition coordinator_doing (ph : coordinator_phase) : prog unit :=
  match ph with
  | AtGet => Coordinator.process_requests c (S n)
  | AtProcessing =>
      (Coordinator.display_update c ("Processing request from " +:+ repr_address a +:+ ".") ;;
       serve c a) ≫= next_passes c n
  | AtRead => serve c a ≫= next_passes c n
  | AtHandle =>
      try_finally
        (response ← Coordinator.handle_request 1%nat a request_read;
         sock_send 1%nat response ;; Ret tt)
        (finally_block c 1%nat a) ≫= next_passes c n
  | AtWrite =>
      try_finally (sock_send 1%nat response_written ;; Ret tt) (finally_block c 1%nat a)
        ≫= next_passes c n
  | AtClose => (finally_block c 1%nat a ;; ending) ≫= next_passes c n
  | AtClosed =>
      ((Coordinator.display_update c ("Closed connection with " +:+ repr_address a +:+ ".") ;;
        queue_task_done) ;; ending) ≫= next_passes c n
  | AtTaskDone => (queue_task_done ;; ending) ≫= next_passes c n
  | AtNext => ending ≫= next_passes c n
  end.

(** The two ends of the connection in each pair of phases. *)
Definition worker_end_in (wph : worker_phase) (cph : coordinator_phase) : socket_state :=
  SocketState false
    (if c_sent cph then (if w_received wph then reply_left else response_written) else [])
    (c_closed cph)
    (if w_sent wph then payload else [])
    (Some 1%nat) None None None None.

Definition coordinator_end_in (wph : worker_phase) (cph : coordinator_phase) : socket_state :=
  SocketState (c_closed cph)
    (if w_sent wph then (if c_received cph then request_left else payload) else [])
    false
    (if c_sent cph then response_written else [])
    (Some 0%nat) None None None None.

(** The exchange [x] is in the phases [wph] and [cph]. *)
Record in_phases (wph : worker_phase) (cph : coordinator_phase) (x : exchange) : Prop :=
  InPhases {
    worker_at : worker_side x = worker_doing wph;
    coordinator_at : coordinator_side x = coordinator_doing cph;
    worker_socket_in : sockets (network x) !! 0%nat = Some (worker_end_in wph cph);
    coordinator_socket_in : sockets (network x) !! 1%nat = Some (coordinator_end_in wph cph);
    queue_in : request_queue (network x) = queue_at a cph;
    assigned_in : client_socket (network x) = Some 0%nat;
    read_when_sent : c_received cph = true → w_sent wph = true ∧ payload ≠ [];
    received_when_written : w_received wph = true → c_sent cph = true;
    written_when_answered : cph = AtWrite → ∃ response, answer = Ok response
  }.

End AnyRoundTrip.

Arguments request_read : simpl never.
Arguments request_left : simpl never.
Arguments answer : simpl never.
Arguments response_written : simpl never.
Arguments reply : simpl never.
Arguments reply_left : simpl never.
Arguments ending : simpl never.

(** What a query gives over a new connection to a coordinator whose handler
    is [handle_request]: the first 1024 bytes of the handler's response to
    the first 1024 bytes of the payload, and nothing when the handler
    raises. *)
Definition round_trip_result (handle_request : fd → address → bytes → result bytes)
    (a : address) (payload : bytes) : bytes :=
  match handle_request 1%nat a (take 1024 payload) with
  | Ok response => take 1024 response
  | Err _ => []
  end.

(** A handler that answers with what it received, twice over. *)
Definition twice : fd → address → bytes → result bytes := λ _ _ data, Ok (data ++ data).

(** A handler that raises. *)
Definition refuse : fd → address → bytes → result bytes := λ _ _ _, Err (Exception "refused").

(** What makes the [try] block of a pass over the connection [s], in the
    state [st], raise [e]: the read fails with [e]; or the read answers and
    the handler raises [e]; or both answer and the write fails with [e]. *)
Definition fails_in_try_block (handle_request : fd → address → bytes → result bytes)
    (s : fd) (a : address) (st : socket_state) (e : exn) : Prop :=
  recv_fault st = Some e
  ∨ (recv_fault st = None
     ∧ (rx st ≠ [] ∨ rx_eof st = true)
     ∧ (handle_request s a (chunk 1024 (rx st)) = Err e
        ∨ ∃ response, handle_request s a (chunk 1024 (rx st)) = Ok response
                      ∧ send_fault st = Some e)).

(** A client connection on which nothing has arrived and whose client has
    not closed. *)
Definition silent_client : socket_state := fresh_socket.

(** Alice's connection arrives, then Bob's. *)
Definition alice_then_bob : world :=
  set_arrivals [Ok (5%nat, alice); Ok (6%nat, bob)]
    (serving [(5%nat, client_with hi); (6%nat, client_with yo)] []).
Section ExecLaws.

Variable handle_request : fd → address → bytes → result bytes.
Local Abbreviation exec' := (exec handle_request).

Lemma run_eta {A : Type} (r : run A) : Run (result_of r) (world_of r) (trace_of r) = r.
Proof. by destruct r. Qed.

Lemma exec_bind {A B : Type} (p : prog A) (f : A → prog B) (w : world) :
  exec' (p ≫= f) w = and_then (exec' p w) (λ a w', exec' (f a) w').
Proof.
  revert w. induction p as [a|e| |X o k IH]; intros w; simpl.
  - unfold and_then; simpl. by rewrite run_eta.
  - done.
  - done.
  - destruct (do_op handle_request o w) as [[x w']|]; [|done].
    change (bind (k x) f) with (k x ≫= f). rewrite IH.
    unfold and_then, after_event; simpl.
    by destruct (result_of (exec' (k x) w')).
Qed.

Lemma exec_try_finally {A : Type} (body : prog A) (final : prog unit) (w : world) :
  exec' (try_finally body final) w = and_finally (exec' body w) (exec' final).
Proof.
  revert w. induction body as [a|e| |X o k IH]; intros w; simpl.
  - rewrite exec_bind. unfold and_then, and_finally; simpl.
    destruct (result_of (exec' final w)); simpl; by rewrite ?app_nil_r.
  - rewrite exec_bind. unfold and_then, and_finally; simpl.
    destruct (result_of (exec' final w)); simpl; by rewrite ?app_nil_r.
  - done.
  - destruct (do_op handle_request o w) as [[x w']|]; [|done].
    rewrite IH. unfold and_finally, after_event; simpl.
    by destruct (result_of (exec' (k x) w')).
Qed.

Lemma exec_try_except {A : Type} (body : prog A) (catches : exn → bool)
    (handler : exn → prog A) (w : world) :
  exec' (try_except body catches handler) w
  = or_else (exec' body w) catches (λ e w', exec' (handler e) w').
Proof.
  revert w. induction body as [a|e| |X o k IH]; intros w; simpl.
  - done.
  - unfold or_else; simpl. destruct (catches e); [|done]. by rewrite run_eta.
  - done.
  - destruct (do_op handle_request o w) as [[x w']|]; [|done].
    rewrite IH. unfold or_else, after_event; simpl.
    destruct (exec' (k x) w') as [[a|e| |] w'' tr]; simpl; try done.
    by destruct (catches e).
Qed.

End ExecLaws.

(* ===================================================================== *)
(** ** What a call leaves alone *)
(* ===================================================================== *)

Section Frame.

Variable handle_request : fd → address → bytes → result bytes.
Local Abbreviation do_op' := (do_op handle_request).

Lemma usable_inv (w : world) (s : fd) (st : socket_state) :
  usable w s = Ok st → sockets w !! s = Some st ∧ closed st = false.
Proof.
  unfold usable. destruct (sockets w !! s) as [st'|]; [|done].
  destruct (closed st') eqn:Hc; [done|]. by intros [= ->].
Qed.

Lemma status_insert_same (m : gmap fd socket_state) (s : fd) (st st' : socket_state) :
  m !! s = Some st → closed st' = closed st →
  closed <$> (<[s := st']> m) = closed <$> m.
Proof.
  intros Hs Hc. rewrite fmap_insert, Hc. apply insert_id.
  by rewrite lookup_fmap, Hs.
Qed.

Lemma status_deliver (p : option fd) (data : bytes) (m : gmap fd socket_state) :
  closed <$> deliver p data m = closed <$> m.
Proof.
  destruct p as [q|]; simpl; [|done].
  destruct (m !! q) as [st|] eqn:Hq; [|done].
  by apply (status_insert_same _ _ st).
Qed.

Lemma status_hang_up (p : option fd) (m : gmap fd socket_state) :
  closed <$> hang_up p m = closed <$> m.
Proof.
  destruct p as [q|]; simpl; [|done].
  destruct (m !! q) as [st|] eqn:Hq; [|done].
  by apply (status_insert_same _ _ st).
Qed.

(** Only a queue call changes the queue. *)
Lemma do_op_request_queue {X : Type} (o : op X) (w w' : world) (x : X) :
  is_queue_op o = false → do_op' o w = Some (x, w') →
  request_queue w' = request_queue w.
Proof.
  intros Hq H. destruct o; simpl in *; try done;
    repeat case_match; by simplify_eq.
Qed.

(** Only an assignment changes [self.client_socket]. *)
Lemma do_op_client_socket {X : Type} (o : op X) (w w' : world) (x : X) :
  is_assignment o = false → do_op' o w = Some (x, w') →
  client_socket w' = client_socket w.
Proof.
  intros Hq H. destruct o; simpl in *; try done;
    repeat case_match; by simplify_eq.
Qed.

(** Only [socket.socket()] makes a socket and only [close()] closes one. *)
Lemma do_op_socket_status {X : Type} (o : op X) (w w' : world) (x : X) :
  is_sock_new o = false → is_sock_close o = false → do_op' o w = Some (x, w') →
  socket_status w' = socket_status w.
Proof.
  intros Hn Hc H. unfold socket_status.
  destruct o; simpl in *; try done;
    repeat case_match; simplify_eq; simpl; try done;
    repeat match goal with
           | H : usable _ _ = Ok _ |- _ => apply usable_inv in H as [? ?]
           end;
    rewrite ?status_deliver; by eapply status_insert_same.
Qed.

(** [close()] closes its socket, if there is one, and no other. *)
Lemma do_op_close (s : fd) (w : world) :
  ∃ w', do_op' (SockClose s) w = Some (tt, w')
        ∧ socket_status w' = alter (λ _, true) s (socket_status w)
        ∧ request_queue w' = request_queue w
        ∧ client_socket w' = client_socket w.
Proof.
  unfold socket_status. simpl. destruct (sockets w !! s) as [st|] eqn:Hs.
  - eexists; split; [done|]. simpl. split; [|done].
    rewrite status_hang_up, fmap_insert. simpl.
    apply map_eq; intros i. rewrite lookup_alter, lookup_insert.
    case_decide; [subst i|done]. by rewrite lookup_fmap, Hs.
  - eexists; split; [done|]. split; [|done].
    apply map_eq; intros i. rewrite lookup_alter.
    case_decide; [subst i|done]. by rewrite lookup_fmap, Hs.
Qed.


End Frame.

(* ===================================================================== *)
(** ** Reading the trace of a composed run *)
(* ===================================================================== *)

Lemma closes_app (t1 t2 : list event) : closes (t1 ++ t2) = closes t1 ++ closes t2.
Proof. apply omap_app. Qed.

Lemma dequeued_app (t1 t2 : list event) : dequeued (t1 ++ t2) = dequeued t1 ++ dequeued t2.
Proof. apply omap_app. Qed.

Lemma handler_calls_app (t1 t2 : list event) :
  handler_calls (t1 ++ t2) = handler_calls t1 ++ handler_calls t2.
Proof. apply omap_app. Qed.

Lemma io_errors_app (t1 t2 : list event) : io_errors (t1 ++ t2) = io_errors t1 ++ io_errors t2.
Proof. apply omap_app. Qed.

Lemma accepted_connections_app (t1 t2 : list event) :
  accepted_connections (t1 ++ t2) = accepted_connections t1 ++ accepted_connections t2.
Proof. apply omap_app. Qed.

Lemma task_dones_app (t1 t2 : list event) : task_dones (t1 ++ t2) = (task_dones t1 + task_dones t2)%nat.
Proof. unfold task_dones. by rewrite omap_app, length_app. Qed.

Lemma io_trace_app (t1 t2 : list event) : io_trace (t1 ++ t2) = io_trace t1 ++ io_trace t2.
Proof. apply omap_app. Qed.

(* ===================================================================== *)
(** ** [Coordinator.process_requests]: one request *)
(* ===================================================================== *)

(** What a call that is neither a queue call, nor [socket.socket()], nor
    [close()] leaves as it was. *)
Ltac framed H :=
  let Q := fresh "Q" in
  let S := fresh "S" in
  pose proof (λ pf, do_op_request_queue _ _ _ _ _ pf H) as Q;
  specialize (Q eq_refl);
  pose proof (λ pf1 pf2, do_op_socket_status _ _ _ _ _ pf1 pf2 H) as S;
  specialize (S eq_refl eq_refl).

Section ProcessRequest.

Variable handle_request : fd → address → bytes → result bytes.
Variable self : Coordinator.t.
Local Abbreviation exec' := (exec handle_request).
Local Abbreviation do_op' := (do_op handle_request).

Lemma exec_display_update (message : string) (w : world) :
  exec' (Coordinator.display_update self message) w
  = if Coordinator.are_updates_displayed self
    then Run (Returned tt) (set_stdout (λ out, out ++ [message]) w) [Event (Print message) tt]
    else Run (Returned tt) w [].
Proof. unfold Coordinator.display_update. by destruct (Coordinator.are_updates_displayed self). Qed.

Lemma do_op_queue_get (w : world) (r : request) (rest : list request) :
  Queue.items (request_queue w) = r :: rest →
  do_op' QueueGet w
  = Some (r, set_request_queue
               (Queue.Make rest (Queue.unfinished_tasks (request_queue w))) w).
Proof. intros Hq. simpl. unfold Queue.get. by rewrite Hq. Qed.

Lemma do_op_queue_get_empty (w : world) :
  Queue.items (request_queue w) = [] → do_op' QueueGet w = None.
Proof. intros Hq. simpl. unfold Queue.get. by rewrite Hq. Qed.

(** The run of one pass: the oldest entry leaves the queue, then the
    [try] and [finally] blocks run for it. *)
Lemma exec_process_request (w : world) (s : fd) (a : address) (rest : list request) :
  Queue.items (request_queue w) = (s, a) :: rest →
  exec' (Coordinator.process_request self) w
  = after_event (Event QueueGet (s, a))
      (exec' (Coordinator.display_update self
               ("Processing request from " +:+ repr_address a +:+ ".") ;;
             try_finally (try_block s a) (finally_block self s a))
            (set_request_queue
               (Queue.Make rest (Queue.unfinished_tasks (request_queue w))) w)).
Proof.
  intros Hq. unfold Coordinator.process_request.
  cbn [exec mbind prog_bind bind queue_get call].
  by rewrite (do_op_queue_get _ _ _ Hq).
Qed.

Lemma exec_process_request_empty (w : world) :
  Queue.items (request_queue w) = [] →
  exec' (Coordinator.process_request self) w = Run Blocked w [].
Proof.
  intros Hq. unfold Coordinator.process_request.
  cbn [exec mbind prog_bind bind queue_get call].
  by rewrite (do_op_queue_get_empty _ Hq).
Qed.

(** The [try] block touches neither the queue nor which sockets are
    open, and it closes nothing and marks nothing done. *)
Lemma try_block_frame (s : fd) (a : address) (w : world) :
  let r := exec' (try_block s a) w in
  request_queue (world_of r) = request_queue w
  ∧ socket_status (world_of r) = socket_status w
  ∧ closes (trace_of r) = []
  ∧ task_dones (trace_of r) = 0%nat
  ∧ dequeued (trace_of r) = [].
Proof.
  unfold try_block. cbn -[do_op].
  destruct (do_op' (SockRecv s 1024) w) as [[[data|e] w1]|] eqn:H1; [| |done];
    framed H1; cbn -[do_op]; [|split_and!; congruence].
  destruct (do_op' (Handle s a data) w1) as [[[response|e] w2]|] eqn:H2; [| |cbn; split_and!; congruence];
    framed H2; cbn -[do_op]; [|split_and!; congruence].
  destruct (do_op' (SockSend s response) w2) as [[[n|e] w3]|] eqn:H3; [| |cbn; split_and!; congruence];
    framed H3; cbn; split_and!; congruence.
Qed.

(** The [finally] block closes the connection and marks the entry done. *)
Lemma finally_block_run (s : fd) (a : address) (w : world) (n : nat) :
  Queue.unfinished_tasks (request_queue w) = S n →
  let r := exec' (finally_block self s a) w in
  result_of r = Returned tt
  ∧ request_queue (world_of r) = Queue.Make (Queue.items (request_queue w)) n
  ∧ socket_status (world_of r) = alter (λ _, true) s (socket_status w)
  ∧ closes (trace_of r) = [s]
  ∧ task_dones (trace_of r) = 1%nat
  ∧ dequeued (trace_of r) = [].
Proof.
  intros Hn. unfold finally_block.
  destruct (do_op_close handle_request s w) as (w1 & H1 & S1 & Q1 & _).
  cbn -[do_op]. rewrite H1. cbn -[do_op].
  change (bind ?p ?f) with (p ≫= f). rewrite exec_bind, exec_display_update.
  destruct (Coordinator.are_updates_displayed self);
    unfold and_then; cbn; unfold Queue.task_done; cbn; rewrite Q1, Hn; cbn;
    split_and!; try done; exact S1.
Qed.

End ProcessRequest.

(** A pass that is through with its request has taken the oldest entry,
    closed its connection, and no other, once, and marked it done once. *)
Lemma pass_closes_and_marks_done
    (handle_request : fd → address → bytes → result bytes) (self : Coordinator.t)
    (w : world) (s : fd) (a : address) (rest : list request) :
  Queue.items (request_queue w) = (s, a) :: rest →
  Queue.wf (request_queue w) →
  exited (exec handle_request (Coordinator.process_request self) w) →
  let r := exec handle_request (Coordinator.process_request self) w in
  dequeued (trace_of r) = [(s, a)]
  ∧ closes (trace_of r) = [s]
  ∧ task_dones (trace_of r) = 1%nat
  ∧ socket_status (world_of r) = alter (λ _, true) s (socket_status w)
  ∧ Queue.items (request_queue (world_of r)) = rest
  ∧ S (Queue.unfinished_tasks (request_queue (world_of r)))
    = Queue.unfinished_tasks (request_queue w)
  ∧ Queue.wf (request_queue (world_of r)).
Proof.
  intros Hq Hwf. rewrite (exec_process_request _ _ _ _ _ _ Hq).
  unfold Queue.wf in *. rewrite Hq in Hwf. simpl in Hwf.
  destruct (Queue.unfinished_tasks (request_queue w)) as [|n] eqn:Hn; [lia|].
  change (?p ;; ?q) with (p ≫= λ _, q).
  rewrite exec_bind, exec_display_update.
  destruct (Coordinator.are_updates_displayed self);
    unfold and_then; cbn [result_of world_of trace_of];
    rewrite exec_try_finally;
    match goal with
    | |- context [exec _ (try_block s a) ?w2] =>
        pose proof (try_block_frame handle_request s a w2) as (Q & St & C & T & D);
        destruct (exec handle_request (try_block s a) w2) as [[u|e| |] w3 tr3]
    end;
    unfold and_finally, exited, after_event;
    cbn [result_of world_of trace_of] in *; try done;
    (pose proof (finally_block_run handle_request self s a w3 n) as F;
     rewrite Q in F; specialize (F eq_refl); cbv zeta in F;
     destruct F as (R & Q' & S' & C' & T' & D');
     destruct (exec handle_request (finally_block self s a) w3) as [rf w4 tr4];
     cbn [result_of world_of trace_of] in *; subst rf; intros _;
     rewrite ?app_comm_cons, ?dequeued_app, ?closes_app, ?task_dones_app,
       C, T, D, C', T', D', Q', S', St;
     cbn; split_and!; try done; lia).
Qed.

(** The read of a pass is its only call that can wait: when data has
    arrived on the connection, or its stream is at its end, or the read
    fails, or the connection is not open, [recv] answers. *)
Lemma do_op_recv_answers
    (handle_request : fd → address → bytes → result bytes)
    (w : world) (s : fd) (bufsize : Z) :
  recv_answers w s → do_op handle_request (SockRecv s bufsize) w ≠ None.
Proof.
  intros Hrecv. simpl. unfold usable.
  destruct (sockets w !! s) as [st|] eqn:Hs; [|done].
  destruct (closed st) eqn:Hc; [done|].
  destruct (recv_fault st) eqn:Hf; [done|].
  destruct (bufsize <? 0); [done|].
  destruct (Hrecv st Hs Hc Hf) as [Hrx|Heof].
  - by destruct (rx st).
  - rewrite Heof. by destruct (rx st).
Qed.

(** When the read answers, the [try] block ends: by a return, or by the
    exception of the read, of the handler or of the write. *)
Lemma try_block_exits
    (handle_request : fd → address → bytes → result bytes)
    (s : fd) (a : address) (w : world) :
  recv_answers w s → exited (exec handle_request (try_block s a) w).
Proof.
  intros Hrecv. pose proof (do_op_recv_answers handle_request w s 1024 Hrecv) as H1.
  unfold try_block. cbn -[do_op].
  destruct (do_op handle_request (SockRecv s 1024) w) as [[[data|e] w1]|]; [| |done];
    cbn -[do_op]; [|done].
  cbn [do_op]. destruct (handle_request s a data) as [response|e]; cbn -[do_op]; [|done].
  cbn [do_op]. destruct (usable w1 s) as [st|e]; cbn; [|done].
  by destruct (send_fault st).
Qed.

(** When the read answers, the pass ends. *)
Lemma pass_exits
    (handle_request : fd → address → bytes → result bytes) (self : Coordinator.t)
    (w : world) (s : fd) (a : address) (rest : list request) :
  Queue.items (request_queue w) = (s, a) :: rest →
  Queue.wf (request_queue w) →
  recv_answers w s →
  exited (exec handle_request (Coordinator.process_request self) w).
Proof.
  intros Hq Hwf Hrecv. rewrite (exec_process_request _ _ _ _ _ _ Hq).
  unfold Queue.wf in *. rewrite Hq in Hwf. simpl in Hwf.
  destruct (Queue.unfinished_tasks (request_queue w)) as [|n] eqn:Hn; [lia|].
  change (?p ;; ?q) with (p ≫= λ _, q).
  rewrite exec_bind, exec_display_update.
  destruct (Coordinator.are_updates_displayed self);
    unfold and_then; cbn [result_of world_of trace_of];
    rewrite exec_try_finally;
    match goal with
    | |- context [exec _ (try_block s a) ?w2] =>
        pose proof (try_block_frame handle_request s a w2) as (Q & _);
        pose proof (try_block_exits handle_request s a w2 Hrecv) as Hex;
        destruct (exec handle_request (try_block s a) w2) as [[u|e| |] w3 tr3]
    end;
    unfold and_finally, exited, after_event in *;
    cbn [result_of world_of trace_of] in *; try done;
    (pose proof (finally_block_run handle_request self s a w3 n) as F;
     rewrite Q in F; specialize (F eq_refl); cbv zeta in F;
     destruct F as (R & _);
     destruct (exec handle_request (finally_block self s a) w3) as [rf w4 tr4];
     cbn [result_of world_of trace_of] in *; by subst rf).
Qed.

(** C2. Whatever the read, the handler and the write answer, a request
    that the processing loop has taken from the queue has its connection
    closed exactly once and its queue entry marked done exactly once.  When
    the read on the connection of the oldest entry [(s, a)] answers (data
    has arrived, or the stream is at its end, or the read fails, or the
    connection is not open), the pass over it ends, by a return or by an
    exception, and by then it has taken that entry from the queue, called
    [close()] once, on [s], called [task_done()] once, left [s] closed and
    every other socket as it was, and left one unfinished task fewer. *)
Theorem request_closed_and_marked_done_exactly_once
    (handle_request : fd → address → bytes → result bytes) (self : Coordinator.t)
    (w : world) (s : fd) (a : address) (rest : list request) :
  Queue.items (request_queue w) = (s, a) :: rest →
  Queue.wf (request_queue w) →
  recv_answers w s →
  let r := exec handle_request (Coordinator.process_request self) w in
  exited r
  ∧ dequeued (trace_of r) = [(s, a)]
  ∧ closes (trace_of r) = [s]
  ∧ task_dones (trace_of r) = 1%nat
  ∧ socket_status (world_of r) = alter (λ _, true) s (socket_status w)
  ∧ Queue.items (request_queue (world_of r)) = rest
  ∧ S (Queue.unfinished_tasks (request_queue (world_of r)))
    = Queue.unfinished_tasks (request_queue w)
  ∧ Queue.wf (request_queue (world_of r)).
Proof.
  intros Hq Hwf Hrecv.
  pose proof (pass_exits handle_request self w s a rest Hq Hwf Hrecv) as Hex.
  split; [exact Hex|]. by apply pass_closes_and_marks_done.
Qed.

(* ===================================================================== *)
(** ** Calls on a live connection *)
(* ===================================================================== *)

Section LiveSocket.

Variable handle_request : fd → address → bytes → result bytes.
Local Abbreviation do_op' := (do_op handle_request).

Lemma usable_live (w : world) (s : fd) (st : socket_state) :
  sockets w !! s = Some st → closed st = false → usable w s = Ok st.
Proof. intros Hs Hc. unfold usable. by rewrite Hs, Hc. Qed.

Lemma lookup_deliver_ne (p : option fd) (data : bytes) (m : gmap fd socket_state) (i : fd) :
  p ≠ Some i → deliver p data m !! i = m !! i.
Proof.
  intros Hp. destruct p as [q|]; simpl; [|done].
  destruct (m !! q) eqn:Hq; [|done].
  rewrite lookup_insert_ne; [done|]. by intros ->.
Qed.

Lemma lookup_hang_up_ne (p : option fd) (m : gmap fd socket_state) (i : fd) :
  p ≠ Some i → hang_up p m !! i = m !! i.
Proof.
  intros Hp. destruct p as [q|]; simpl; [|done].
  destruct (m !! q) eqn:Hq; [|done].
  rewrite lookup_insert_ne; [done|]. by intros ->.
Qed.

Lemma set_rx_same (st : socket_state) : set_rx (rx st) st = st.
Proof. by destruct st. Qed.

Lemma set_sockets_same (w : world) : set_sockets (λ m, m) w = w.
Proof. by destruct w. Qed.

(** [recv] on a live connection with something to read, or at its end. *)
Lemma do_op_recv_live (w : world) (s : fd) (st : socket_state) (bufsize : Z) :
  sockets w !! s = Some st → closed st = false → recv_fault st = None →
  0 ≤ bufsize → rx st ≠ [] ∨ rx_eof st = true →
  do_op' (SockRecv s bufsize) w
  = Some (Ok (chunk bufsize (rx st)),
          set_sockets (λ m, <[s := set_rx (unread bufsize (rx st)) st]> m) w).
Proof.
  intros Hs Hc Hf Hn Hrx. simpl. rewrite (usable_live _ _ _ Hs Hc), Hf.
  destruct (Z.ltb_spec bufsize 0) as [?|_]; [lia|].
  destruct (rx st) as [|b rx'] eqn:Hrx'; [|done].
  destruct Hrx as [?|Heof]; [done|]. rewrite Heof.
  unfold chunk, unread. rewrite take_nil, drop_nil. do 2 f_equal.
  rewrite <- Hrx', set_rx_same.
  rewrite <- (set_sockets_same w) at 1. unfold set_sockets. f_equal.
  by rewrite insert_id.
Qed.

(** [send] on a live connection. *)
Lemma do_op_send_live (w : world) (s : fd) (st : socket_state) (data : bytes) :
  sockets w !! s = Some st → closed st = false → send_fault st = None →
  do_op' (SockSend s data) w
  = Some (Ok (Z.of_nat (accepted (send_room st) data)),
          set_sockets
            (λ m, deliver (peer st) (take (accepted (send_room st) data) data)
                    (<[s := set_tx (tx st ++ take (accepted (send_room st) data) data) st]> m))
            w).
Proof. intros Hs Hc Hf. simpl. by rewrite (usable_live _ _ _ Hs Hc), Hf. Qed.

Lemma do_op_close_live (w : world) (s : fd) (st : socket_state) :
  sockets w !! s = Some st →
  do_op' (SockClose s) w
  = Some (tt, set_sockets (λ m, hang_up (peer st) (<[s := set_closed true st]> m)) w).
Proof. intros Hs. simpl. by rewrite Hs. Qed.

Lemma chunk_bound (bufsize : Z) (arrived : bytes) :
  0 ≤ bufsize → Z.of_nat (length (chunk bufsize arrived)) ≤ bufsize.
Proof. intros Hn. unfold chunk. rewrite length_take. lia. Qed.

Lemma chunk_all (bufsize : Z) (arrived : bytes) :
  Z.of_nat (length arrived) ≤ bufsize → chunk bufsize arrived = arrived.
Proof. intros Hn. unfold chunk. apply take_ge. lia. Qed.

Lemma unread_none (bufsize : Z) (arrived : bytes) :
  Z.of_nat (length arrived) ≤ bufsize → unread bufsize arrived = [].
Proof. intros Hn. unfold unread. apply drop_ge. lia. Qed.

End LiveSocket.

(* ===================================================================== *)
(** ** [Coordinator.process_requests]: a request that is served *)
(* ===================================================================== *)

Section Served.

Variable handle_request : fd → address → bytes → result bytes.
Variable self : Coordinator.t.
Local Abbreviation exec' := (exec handle_request).

(** The [try] block on a live connection whose handler returns. *)
Lemma try_block_served (w : world) (s : fd) (a : address) (st : socket_state)
    (response : bytes) :
  sockets w !! s = Some st → closed st = false →
  recv_fault st = None → send_fault st = None → peer st ≠ Some s →
  rx st ≠ [] ∨ rx_eof st = true →
  handle_request s a (chunk 1024 (rx st)) = Ok response →
  ∃ w',
    exec' (try_block s a) w
    = Run (Returned tt) w'
        [Event (SockRecv s 1024) (Ok (chunk 1024 (rx st)));
         Event (Handle s a (chunk 1024 (rx st))) (Ok response);
         Event (SockSend s response) (Ok (Z.of_nat (accepted (send_room st) response)))]
    ∧ request_queue w' = request_queue w
    ∧ sockets w' !! s
      = Some (set_tx (tx st ++ take (accepted (send_room st) response) response)
                (set_rx (unread 1024 (rx st)) st))
    ∧ (∀ i, i ≠ s → peer st ≠ Some i → sockets w' !! i = sockets w !! i).
Proof.
  intros Hs Hc Hrf Hsf Hp Hrx Hh. unfold try_block.
  cbn [exec mbind prog_bind bind sock_recv call_raising].
  rewrite (do_op_recv_live _ _ _ _ 1024 Hs Hc Hrf ltac:(lia) Hrx).
  cbn [exec mbind prog_bind bind Coordinator.handle_request call_raising do_op].
  rewrite Hh.
  cbn [exec mbind prog_bind bind sock_send call_raising].
  erewrite do_op_send_live; [|by apply lookup_insert_eq|done|done].
  eexists; split; [reflexivity|]. cbn. split; [done|]. split.
  - rewrite lookup_deliver_ne by done. by rewrite lookup_insert_eq.
  - intros i Hi Hpi. rewrite lookup_deliver_ne by done.
    by rewrite !lookup_insert_ne.
Qed.

(** The [finally] block on a connection that exists. *)
Lemma finally_block_closes (w : world) (s : fd) (a : address) (st : socket_state) (n : nat) :
  sockets w !! s = Some st → peer st ≠ Some s →
  Queue.unfinished_tasks (request_queue w) = S n →
  ∃ w' tr,
    exec' (finally_block self s a) w = Run (Returned tt) w' tr
    ∧ io_trace tr = [Event (SockClose s) tt; Event QueueTaskDone (Ok tt)]
    ∧ request_queue w' = Queue.Make (Queue.items (request_queue w)) n
    ∧ sockets w' !! s = Some (set_closed true st)
    ∧ (∀ i, i ≠ s → peer st ≠ Some i → sockets w' !! i = sockets w !! i).
Proof.
  intros Hs Hp Hn. unfold finally_block.
  cbn [exec mbind prog_bind bind sock_close call].
  rewrite (do_op_close_live _ _ _ _ Hs).
  change (bind ?p ?f) with (p ≫= f). rewrite exec_bind, exec_display_update.
  destruct (Coordinator.are_updates_displayed self);
    unfold and_then, after_event; cbn; unfold Queue.task_done; rewrite Hn;
    (do 2 eexists; split; [reflexivity|]); cbn; split_and!; try done;
    try (rewrite lookup_hang_up_ne by done; by rewrite lookup_insert_eq);
    intros i Hi Hpi; rewrite lookup_hang_up_ne by done;
    by rewrite lookup_insert_ne.
Qed.

(** A pass over a request on a live connection whose handler returns. *)
Lemma process_request_served (w : world) (s : fd) (a : address) (rest : list request)
    (n : nat) (st : socket_state) (response : bytes) :
  Queue.items (request_queue w) = (s, a) :: rest →
  Queue.unfinished_tasks (request_queue w) = S n →
  sockets w !! s = Some st → closed st = false →
  recv_fault st = None → send_fault st = None → peer st ≠ Some s →
  rx st ≠ [] ∨ rx_eof st = true →
  handle_request s a (chunk 1024 (rx st)) = Ok response →
  let r := exec' (Coordinator.process_request self) w in
  result_of r = Returned tt
  ∧ io_trace (trace_of r)
    = [Event QueueGet (s, a);
       Event (SockRecv s 1024) (Ok (chunk 1024 (rx st)));
       Event (Handle s a (chunk 1024 (rx st))) (Ok response);
       Event (SockSend s response) (Ok (Z.of_nat (accepted (send_room st) response)));
       Event (SockClose s) tt;
       Event QueueTaskDone (Ok tt)]
  ∧ request_queue (world_of r) = Queue.Make rest n
  ∧ sockets (world_of r) !! s = Some (served st response)
  ∧ (∀ i, i ≠ s → peer st ≠ Some i → sockets (world_of r) !! i = sockets w !! i).
Proof.
  intros Hq Hn Hs Hc Hrf Hsf Hp Hrx Hh.
  rewrite (exec_process_request _ _ _ _ _ _ Hq).
  change (?p ;; ?q) with (p ≫= λ _, q). rewrite exec_bind, exec_display_update.
  destruct (Coordinator.are_updates_displayed self);
    unfold and_then; cbn [result_of world_of trace_of]; rewrite exec_try_finally;
    match goal with
    | |- context [exec _ (try_block s a) ?w2] =>
        destruct (try_block_served w2 s a st response Hs Hc Hrf Hsf Hp Hrx Hh)
          as (w3 & -> & Q3 & S3 & O3)
    end;
    unfold and_finally; cbn [result_of world_of trace_of];
    (destruct (finally_block_closes w3 s a _ n S3 Hp) as (w4 & tr4 & -> & T4 & Q4 & S4 & O4);
     [by rewrite Q3|]);
    cbn [result_of world_of trace_of after_event];
    (split; [done|]); (split; [by rewrite ?app_comm_cons, !io_trace_app, T4|]);
    (split; [by rewrite Q4, Q3|]); (split; [exact S4|]);
    intros i Hi Hpi; rewrite (O4 i Hi Hpi); exact (O3 i Hi Hpi).
Qed.

End Served.

(** C5, as the claim states it, fails: when the read raises, the pass over
    the request invokes no handler and writes nothing. *)
Lemma read_error_skips_handler_and_write :
  let r := exec echo (Coordinator.process_request sample_coordinator) alice_reset in
  dequeued (trace_of r) = [(5%nat, alice)]
  ∧ io_trace (trace_of r)
    = [Event QueueGet (5%nat, alice);
       Event (SockRecv 5%nat 1024) (Err reset_by_peer);
       Event (SockClose 5%nat) tt;
       Event QueueTaskDone (Ok tt)]
  ∧ handler_calls (trace_of r) = []
  ∧ tx <$> sockets (world_of r) !! 5%nat = Some [].
Proof. vm_compute. done. Qed.

(** C5, amended. For a dequeued request whose read, handler call and write
    succeed, the pass performs these steps in this order: it takes the
    oldest queue entry [(s, a)]; it reads once, at most 1024 bytes, the
    first 1024 of what has arrived; it invokes the handler once, with
    [s], [a] and the bytes read; it writes the handler's response, in
    full and unchanged; it closes the connection; it marks the entry
    done. *)
Theorem process_request_steps_in_order
    (handle_request : fd → address → bytes → result bytes) (self : Coordinator.t)
    (w : world) (s : fd) (a : address) (rest : list request)
    (st : socket_state) (response : bytes) :
  Queue.items (request_queue w) = (s, a) :: rest →
  Queue.wf (request_queue w) →
  sockets w !! s = Some st → closed st = false →
  recv_fault st = None → send_fault st = None → peer st ≠ Some s →
  rx st ≠ [] ∨ rx_eof st = true →
  handle_request s a (take 1024 (rx st)) = Ok response →
  accepted (send_room st) response = length response →
  let r := exec handle_request (Coordinator.process_request self) w in
  result_of r = Returned tt
  ∧ io_trace (trace_of r)
    = [Event QueueGet (s, a);
       Event (SockRecv s 1024) (Ok (take 1024 (rx st)));
       Event (Handle s a (take 1024 (rx st))) (Ok response);
       Event (SockSend s response) (Ok (Z.of_nat (length response)));
       Event (SockClose s) tt;
       Event QueueTaskDone (Ok tt)]
  ∧ (length (take 1024 (rx st)) ≤ 1024)%nat
  ∧ Queue.items (request_queue (world_of r)) = rest
  ∧ ∃ st', sockets (world_of r) !! s = Some st'
           ∧ tx st' = tx st ++ response
           ∧ rx st' = drop 1024 (rx st)
           ∧ closed st' = true.
Proof.
  intros Hq Hwf Hs Hc Hrf Hsf Hp Hrx Hh Hroom.
  unfold Queue.wf in Hwf. rewrite Hq in Hwf. simpl in Hwf.
  destruct (Queue.unfinished_tasks (request_queue w)) as [|n] eqn:Hn; [lia|].
  change (take 1024 (rx st)) with (chunk 1024 (rx st)) in *.
  destruct (process_request_served handle_request self w s a rest n st response
              Hq Hn Hs Hc Hrf Hsf Hp Hrx Hh) as (R & T & Q & S1 & _).
  cbv zeta. rewrite R, T, Q, S1, Hroom. split_and!; try done.
  - unfold chunk. rewrite length_take. lia.
  - eexists; split; [done|]. unfold served; simpl.
    rewrite Hroom, firstn_all. done.
Qed.

(** The hypotheses of C5, amended, hold for Alice's request under the
    echo handler. *)
Lemma process_request_steps_in_order_witness :
  let r := exec echo (Coordinator.process_request sample_coordinator) alice_waiting in
  result_of r = Returned tt
  ∧ io_trace (trace_of r)
    = [Event QueueGet (5%nat, alice);
       Event (SockRecv 5%nat 1024) (Ok (take 1024 hi));
       Event (Handle 5%nat alice (take 1024 hi)) (Ok hi);
       Event (SockSend 5%nat hi) (Ok (Z.of_nat (length hi)));
       Event (SockClose 5%nat) tt;
       Event QueueTaskDone (Ok tt)]
  ∧ (length (take 1024 hi) ≤ 1024)%nat
  ∧ Queue.items (request_queue (world_of r)) = []
  ∧ ∃ st', sockets (world_of r) !! 5%nat = Some st'
           ∧ tx st' = [] ++ hi
           ∧ rx st' = drop 1024 hi
           ∧ closed st' = true.
Proof.
  apply (process_request_steps_in_order echo sample_coordinator alice_waiting
           5%nat alice [] (client_with hi) hi).
  - reflexivity.
  - unfold Queue.wf. simpl. lia.
  - reflexivity.
  - reflexivity.
  - reflexivity.
  - reflexivity.
  - simpl. discriminate.
  - left. simpl. discriminate.
  - reflexivity.
  - reflexivity.
Defined.

(** The hypotheses of C2 hold for Alice's request, both when her request
    has arrived, so that it is read, handled and answered, and when her
    connection was reset, so that the read raises: either way the pass ends
    with her connection closed once and her entry marked done once. *)
Lemma request_closed_and_marked_done_exactly_once_witness :
  let served := exec echo (Coordinator.process_request sample_coordinator) alice_waiting in
  let failed := exec echo (Coordinator.process_request sample_coordinator) alice_reset in
  (recv_answers alice_waiting 5%nat
   ∧ result_of served = Returned tt
   ∧ handler_calls (trace_of served) = [(5%nat, alice, hi)]
   ∧ closes (trace_of served) = [5%nat]
   ∧ task_dones (trace_of served) = 1%nat
   ∧ socket_status (world_of served) = alter (λ _, true) 5%nat (socket_status alice_waiting))
  ∧ (recv_answers alice_reset 5%nat
     ∧ result_of failed = Raised reset_by_peer
     ∧ handler_calls (trace_of failed) = []
     ∧ closes (trace_of failed) = [5%nat]
     ∧ task_dones (trace_of failed) = 1%nat
     ∧ socket_status (world_of failed) = alter (λ _, true) 5%nat (socket_status alice_reset)).
Proof.
  assert (recv_answers alice_waiting 5%nat) as Hserved.
  { intros st Hs _ _. vm_compute in Hs. injection Hs as <-. left. discriminate. }
  assert (recv_answers alice_reset 5%nat) as Hfailed.
  { intros st Hs _ Hf. vm_compute in Hs. injection Hs as <-. discriminate Hf. }
  split.
  - destruct (request_closed_and_marked_done_exactly_once echo sample_coordinator
                alice_waiting 5%nat alice [] eq_refl ltac:(unfold Queue.wf; simpl; lia)
                Hserved) as (_ & _ & C & T & S1 & _).
    split; [exact Hserved|]. split; [reflexivity|]. split; [reflexivity|].
    split; [exact C|]. split; [exact T|exact S1].
  - destruct (request_closed_and_marked_done_exactly_once echo sample_coordinator
                alice_reset 5%nat alice [] eq_refl ltac:(unfold Queue.wf; simpl; lia)
                Hfailed) as (_ & _ & C & T & S1 & _).
    split; [exact Hfailed|]. split; [reflexivity|]. split; [reflexivity|].
    split; [exact C|]. split; [exact T|exact S1].
Defined.

(* ===================================================================== *)
(** ** [Coordinator.process_requests]: the loop *)
(* ===================================================================== *)

Section Loop.

Variable handle_request : fd → address → bytes → result bytes.
Variable self : Coordinator.t.
Local Abbreviation exec' := (exec handle_request).

Lemma exec_process_requests_S (fuel : nat) (w : world) :
  exec' (Coordinator.process_requests self (S fuel)) w
  = and_then (exec' (Coordinator.process_request self) w)
             (λ _ w', exec' (Coordinator.process_requests self fuel) w').
Proof.
  change (Coordinator.process_requests self (S fuel))
    with (Coordinator.process_request self ≫= λ _, Coordinator.process_requests self fuel).
  apply exec_bind.
Qed.

(** An exception that leaves a pass leaves the loop: nothing of the
    [while True] runs after it. *)
Lemma loop_ends_when_a_pass_raises (fuel : nat) (w : world) (e : exn) :
  result_of (exec' (Coordinator.process_request self) w) = Raised e →
  exec' (Coordinator.process_requests self (S fuel)) w
  = exec' (Coordinator.process_request self) w.
Proof.
  intros H. rewrite exec_process_requests_S. unfold and_then. rewrite H.
  rewrite <- H. apply run_eta.
Qed.

(** With nothing in the queue the loop waits. *)
Lemma loop_waits_on_empty_queue (fuel : nat) (w : world) :
  Queue.items (request_queue w) = [] →
  exec' (Coordinator.process_requests self (S fuel)) w = Run Blocked w [].
Proof.
  intros H. rewrite exec_process_requests_S.
  by rewrite (exec_process_request_empty _ _ _ H).
Qed.

End Loop.

(** C1, at the failing input. Alice's connection was reset and Bob's
    request waits behind hers: the loop closes Alice's connection, marks her
    entry done, and ends with the exception of the read, however often the
    [while True] is unrolled.  Bob's entry stays in the queue, his
    connection stays open and no handler is ever invoked. *)
Theorem first_error_ends_processing_loop (fuel : nat) :
  let r := exec echo (Coordinator.process_requests sample_coordinator (S fuel))
             alice_reset_then_bob in
  result_of r = Raised reset_by_peer
  ∧ closes (trace_of r) = [5%nat]
  ∧ task_dones (trace_of r) = 1%nat
  ∧ handler_calls (trace_of r) = []
  ∧ Queue.items (request_queue (world_of r)) = [(6%nat, bob)]
  ∧ socket_status (world_of r) = {[ 5%nat := true; 6%nat := false ]}.
Proof.
  cbv zeta.
  rewrite (loop_ends_when_a_pass_raises echo sample_coordinator fuel
             alice_reset_then_bob reset_by_peer); [|by vm_compute].
  vm_compute. done.
Qed.

(* ===================================================================== *)
(** ** Requests are handled in queue order *)
(* ===================================================================== *)

Lemma handler_calls_io_trace (tr : list event) :
  handler_calls (io_trace tr) = handler_calls tr.
Proof.
  unfold handler_calls, io_trace.
  induction tr as [|[X o x] tr IH]; [done|].
  destruct o; cbn; by rewrite ?IH.
Qed.

Section QueueOrder.

Variable handle_request : fd → address → bytes → result bytes.
Variable self : Coordinator.t.
Local Abbreviation exec' := (exec handle_request).

(** Registering puts the entry at the tail of the queue and touches no
    socket. *)
Lemma exec_queue_client_request (w : world) (s : fd) (a : address) :
  let r := exec' (Coordinator.queue_client_request self s a) w in
  result_of r = Returned tt
  ∧ request_queue (world_of r) = Queue.put (s, a) (request_queue w)
  ∧ sockets (world_of r) = sockets w.
Proof.
  unfold Coordinator.queue_client_request, Coordinator.display_update.
  by destruct (Coordinator.are_updates_displayed self).
Qed.

Lemma exec_register_all (rs : list request) (w : world) :
  let r := exec' (register_all self rs) w in
  result_of r = Returned tt
  ∧ Queue.items (request_queue (world_of r)) = Queue.items (request_queue w) ++ rs
  ∧ Queue.unfinished_tasks (request_queue (world_of r))
    = (Queue.unfinished_tasks (request_queue w) + length rs)%nat
  ∧ sockets (world_of r) = sockets w.
Proof.
  revert w. induction rs as [|[s a] rs IH]; intros w.
  - cbn. by rewrite app_nil_r, Nat.add_0_r.
  - cbn [register_all fst snd]. cbv zeta. rewrite exec_bind.
    destruct (exec_queue_client_request w s a) as (R & Q & S1).
    unfold and_then. rewrite R. cbn [result_of world_of trace_of].
    destruct (IH (world_of (exec' (Coordinator.queue_client_request self s a) w)))
      as (R' & Q' & U' & S').
    rewrite R', Q', U', S', Q, S1. cbn. rewrite <- app_assoc. cbn.
    split_and!; try done; lia.
Qed.

(** When every waiting request can be served, the loop serves them all,
    oldest first, and then waits. *)
Lemma loop_serves_all (rs : list request) :
  ∀ (w : world) (fuel n : nat),
    Queue.items (request_queue w) = rs →
    Queue.unfinished_tasks (request_queue w) = (length rs + n)%nat →
    NoDup rs.*1 → Forall (servable handle_request w) rs →
    (length rs < fuel)%nat →
    let r := exec' (Coordinator.process_requests self fuel) w in
    result_of r = Blocked
    ∧ handler_calls (trace_of r) = map (λ r, (r.1, r.2, arrived w r.1)) rs
    ∧ closes (trace_of r) = rs.*1
    ∧ Queue.items (request_queue (world_of r)) = [].
Proof.
  induction rs as [|[s a] rs IH]; intros w fuel n Hq Hn Hnd Hall Hfuel;
    (destruct fuel as [|fuel]; [simpl in Hfuel; lia|]).
  - cbv zeta. by rewrite (loop_waits_on_empty_queue _ _ _ _ Hq).
  - cbv zeta. rewrite exec_process_requests_S.
    apply NoDup_cons in Hnd as [Hs Hnd]. apply Forall_cons in Hall as [Hsa Hall].
    destruct Hsa as (st & response & Hst & Hc & Hrf & Hsf & Hp & Hrx & Hh).
    simpl in Hst, Hh.
    destruct (process_request_served handle_request self w s a rs (length rs + n) st
                response Hq Hn Hst Hc Hrf Hsf ltac:(by rewrite Hp) Hrx Hh)
      as (R & T & Q & S1 & O).
    assert (∀ r, r ∈ rs →
              sockets (world_of (exec' (Coordinator.process_request self) w)) !! r.1
              = sockets w !! r.1) as Hsame.
    { intros r Hr. apply O; [|by rewrite Hp].
      intros Heq. apply Hs. simpl. rewrite <- Heq. by apply list_elem_of_fmap_2. }
    unfold and_then. rewrite R. cbn [result_of world_of trace_of].
    destruct (IH (world_of (exec' (Coordinator.process_request self) w)) fuel n)
      as (R' & H' & C' & Q'); [by rewrite Q|by rewrite Q|done| |simpl in Hfuel; lia|].
    { apply Forall_forall. intros r Hr.
      rewrite Forall_forall in Hall. destruct (Hall r Hr) as (st' & resp' & Hst' & Hrest).
      exists st', resp'. by rewrite (Hsame r Hr). }
    rewrite R', Q', handler_calls_app, closes_app, H', C'.
    rewrite <- (handler_calls_io_trace
                  (trace_of (exec' (Coordinator.process_request self) w))), T.
    assert (closes (trace_of (exec' (Coordinator.process_request self) w)) = [s]) as ->.
    { apply (pass_closes_and_marks_done handle_request self w s a rs Hq).
      - unfold Queue.wf. rewrite Hq, Hn. simpl. lia.
      - unfold exited. by rewrite R. }
    split_and!; try done. cbn [map fst snd].
    replace (arrived w s) with (chunk 1024 (rx st)) by (unfold arrived; by rewrite Hst).
    match goal with
    | |- handler_calls ?tr ++ _ = _ =>
        change (handler_calls tr) with [(s, a, chunk 1024 (rx st))]
    end.
    cbn [app]. f_equal.
    apply map_ext_in. intros r Hr. apply list_elem_of_In in Hr.
    unfold arrived. by rewrite (Hsame r Hr).
Qed.

(** The [try] block invokes the handler at most once, for its request. *)
Lemma try_block_calls (s : fd) (a : address) (w : world) :
  request_of <$> handler_calls (trace_of (exec' (try_block s a) w)) `sublist_of` [(s, a)].
Proof.
  unfold try_block. cbn -[do_op].
  destruct (do_op handle_request (SockRecv s 1024) w) as [[[data|e] w1]|];
    cbn -[do_op]; [| |]; try apply sublist_nil_l.
  destruct (do_op handle_request (Handle s a data) w1) as [[[response|e] w2]|];
    cbn -[do_op]; [| |]; try apply sublist_nil_l; try done.
  destruct (do_op handle_request (SockSend s response) w2) as [[[n|e] w3]|];
    cbn -[do_op]; done.
Qed.

(** The [finally] block invokes no handler. *)
Lemma finally_block_calls (s : fd) (a : address) (w : world) :
  handler_calls (trace_of (exec' (finally_block self s a) w)) = [].
Proof.
  unfold finally_block, Coordinator.display_update.
  destruct (Coordinator.are_updates_displayed self); cbn;
    destruct (sockets w !! s); cbn;
    by destruct (Queue.task_done _).
Qed.

(** A pass invokes the handler at most once, for the oldest entry, and
    leaves the younger entries in the queue. *)
Lemma pass_calls (w : world) (s : fd) (a : address) (rest : list request) :
  Queue.items (request_queue w) = (s, a) :: rest →
  Queue.wf (request_queue w) →
  let r := exec' (Coordinator.process_request self) w in
  request_of <$> handler_calls (trace_of r) `sublist_of` [(s, a)]
  ∧ (result_of r = Returned tt →
     Queue.items (request_queue (world_of r)) = rest
     ∧ Queue.wf (request_queue (world_of r))).
Proof.
  intros Hq Hwf. split.
  - rewrite (exec_process_request _ _ _ _ _ _ Hq).
    change (?p ;; ?q) with (p ≫= λ _, q). rewrite exec_bind, exec_display_update.
    destruct (Coordinator.are_updates_displayed self);
      unfold and_then; cbn [result_of world_of trace_of]; rewrite exec_try_finally;
      match goal with
      | |- context [exec _ (try_block s a) ?w2] =>
          pose proof (try_block_calls s a w2) as Hcalls;
          destruct (exec handle_request (try_block s a) w2) as [[u|e| |] w3 tr3]
      end;
      unfold and_finally, after_event; cbn [result_of world_of trace_of] in *;
      try exact Hcalls;
      rewrite ?app_comm_cons, !handler_calls_app, finally_block_calls, app_nil_r;
      exact Hcalls.
  - intros R.
    destruct (pass_closes_and_marks_done handle_request self w s a rest Hq Hwf)
      as (_ & _ & _ & _ & Hi & _ & Hw); [|done].
    unfold exited. cbv zeta in R. by rewrite R.
Qed.

(** Whatever happens to the requests, the handler invocations follow the
    order of the queue: the requests handled are, in this order, among the
    entries of the queue, each at most once. *)
Lemma handler_calls_follow_queue_order (fuel : nat) :
  ∀ w : world,
    Queue.wf (request_queue w) →
    request_of <$> handler_calls (trace_of (exec' (Coordinator.process_requests self fuel) w))
      `sublist_of` Queue.items (request_queue w).
Proof.
  induction fuel as [|fuel IH]; intros w Hwf; [apply sublist_nil_l|].
  rewrite exec_process_requests_S.
  destruct (Queue.items (request_queue w)) as [|[s a] rest] eqn:Hq.
  - by rewrite (exec_process_request_empty _ _ _ Hq).
  - destruct (pass_calls w s a rest Hq Hwf) as [Hcalls Hnext].
    unfold and_then.
    destruct (result_of (exec' (Coordinator.process_request self) w)) as [[]|e| |] eqn:R;
      cbn [result_of world_of trace_of];
      try (etrans; [exact Hcalls|]; apply sublist_skip, sublist_nil_l).
    destruct (Hnext eq_refl) as [Hq' Hwf'].
    rewrite handler_calls_app, fmap_app.
    apply (sublist_app _ [(s, a)] _ rest); [exact Hcalls|].
    rewrite <- Hq'. by apply IH.
Qed.

End QueueOrder.

(** C4, as the claim states it, fails: one request is put into the queue
    and the handler is never invoked, because the read of that request
    raises. *)
Lemma unread_request_is_never_handled :
  let w := world_of (exec echo (register_all sample_coordinator [(5%nat, alice)])
                       (serving [(5%nat, client_failing_recv reset_by_peer)] [])) in
  let r := exec echo (Coordinator.process_requests sample_coordinator 3) w in
  Queue.items (request_queue w) = [(5%nat, alice)]
  ∧ dequeued (trace_of r) = [(5%nat, alice)]
  ∧ length (handler_calls (trace_of r)) = 0%nat.
Proof. vm_compute. done. Qed.

(** C4, amended. For any sequence of N requests put into the empty queue
    whose read, handler call and write all succeed, the processing loop
    invokes the handler exactly N times, once per request, with that
    request's connection, address and received bytes, and in the order in
    which the requests were put into the queue. *)
Theorem handler_invoked_once_per_served_request_in_order
    (handle_request : fd → address → bytes → result bytes) (self : Coordinator.t)
    (w : world) (rs : list request) (fuel : nat) :
  Queue.items (request_queue w) = [] →
  NoDup rs.*1 →
  Forall (servable handle_request w) rs →
  (length rs < fuel)%nat →
  let w1 := world_of (exec handle_request (register_all self rs) w) in
  let r := exec handle_request (Coordinator.process_requests self fuel) w1 in
  Queue.items (request_queue w1) = rs
  ∧ handler_calls (trace_of r) = map (λ r, (r.1, r.2, arrived w r.1)) rs
  ∧ length (handler_calls (trace_of r)) = length rs
  ∧ request_of <$> handler_calls (trace_of r) = rs.
Proof.
  intros Hq Hnd Hall Hfuel. cbv zeta.
  destruct (exec_register_all handle_request self rs w) as (_ & Q & U & S1).
  rewrite Hq in Q. simpl in Q.
  set (w1 := world_of (exec handle_request (register_all self rs) w)) in *.
  assert (Forall (servable handle_request w1) rs) as Hall1.
  { eapply Forall_impl; [exact Hall|]. intros r (st & resp & Hst & Hrest).
    exists st, resp. by rewrite S1. }
  destruct (loop_serves_all handle_request self rs w1 fuel
              (Queue.unfinished_tasks (request_queue w)) Q ltac:(lia) Hnd Hall1 Hfuel)
    as (_ & H & _ & _).
  assert (handler_calls
            (trace_of (exec handle_request (Coordinator.process_requests self fuel) w1))
          = map (λ r : request, (r.1, r.2, arrived w r.1)) rs) as E.
  { rewrite H. apply map_ext. intros r. unfold arrived. by rewrite S1. }
  rewrite E. split_and!; try done.
  - by rewrite length_map.
  - clear. induction rs as [|[s a] rs IH]; [done|]. cbn. by f_equal.
Qed.

(** The hypotheses of C4, amended,
    hold for Alice's "hi" followed by Bob's "yo" under the echo handler. *)
Lemma handler_invoked_once_per_served_request_in_order_witness :
  let w := serving [(5%nat, client_with hi); (6%nat, client_with yo)] [] in
  let rs := [(5%nat, alice); (6%nat, bob)] in
  let w1 := world_of (exec echo (register_all sample_coordinator rs) w) in
  let r := exec echo (Coordinator.process_requests sample_coordinator 3) w1 in
  Queue.items (request_queue w1) = rs
  ∧ handler_calls (trace_of r) = map (λ r, (r.1, r.2, arrived w r.1)) rs
  ∧ length (handler_calls (trace_of r)) = length rs
  ∧ request_of <$> handler_calls (trace_of r) = rs.
Proof.
  apply (handler_invoked_once_per_served_request_in_order echo sample_coordinator
           (serving [(5%nat, client_with hi); (6%nat, client_with yo)] [])
           [(5%nat, alice); (6%nat, bob)] 3).
  - reflexivity.
  - simpl. apply NoDup_cons. split; [|apply NoDup_singleton].
    intros H%list_elem_of_singleton. discriminate.
  - repeat constructor.
    + exists (client_with hi), hi. vm_compute. repeat split; try done. by left.
    + exists (client_with yo), yo. vm_compute. repeat split; try done. by left.
  - simpl. lia.
Defined.

(* ===================================================================== *)
(** ** [Worker.query_coordinator] *)
(* ===================================================================== *)

Section Calls.

Variable handle_request : fd → address → bytes → result bytes.

Lemma do_op_print (message : string) (w : world) :
  do_op handle_request (Print message) w
  = Some (tt, set_stdout (λ out, out ++ [message]) w).
Proof. done. Qed.

Lemma do_op_get_client_socket (w : world) :
  do_op handle_request GetClientSocket w = Some (client_socket w, w).
Proof. done. Qed.

Lemma do_op_set_client_socket (v : option fd) (w : world) :
  do_op handle_request (SetClientSocket v) w = Some (tt, set_client_socket v w).
Proof. done. Qed.

End Calls.

(** Case analysis on what the next socket call answers. *)
Ltac answer :=
  rewrite ?do_op_print, ?do_op_get_client_socket, ?do_op_set_client_socket;
  cbn -[do_op];
  match goal with
  | |- context [do_op ?h ?o ?w] =>
      let H := fresh "Hop" in
      destruct (do_op h o w) as [[[?|?] ?]|] eqn:H; cbn -[do_op]
  | |- context [match client_socket ?w with _ => _ end] =>
      destruct (client_socket w) eqn:?; cbn -[do_op]
  end.

(** C7. Whenever a [send] or a [recv] of [query_coordinator] raises a socket
    error, the call does not raise: it returns the empty byte string. *)
Theorem query_returns_empty_on_socket_error
    (handle_request : fd → address → bytes → result bytes) (self : Worker.t)
    (data : bytes) (w : world) (e : exn) :
  e ∈ io_errors (trace_of (exec handle_request (Worker.query_coordinator self data) w)) →
  is_socket_error e = true →
  result_of (exec handle_request (Worker.query_coordinator self data) w) = Returned [].
Proof.
  unfold Worker.query_coordinator, Worker.on_client_socket, Worker.display_update.
  destruct (Worker.are_updates_displayed self); cbn -[do_op];
    repeat answer; rewrite ?do_op_print; cbn;
    intros Hin Hse; try (destruct (is_socket_error _) eqn:Hse'); cbn in *;
    apply list_elem_of_In in Hin; simpl in Hin; intuition; subst; congruence.
Qed.

(** The hypotheses of C7 hold for a worker whose connection is broken. *)
Lemma query_returns_empty_on_socket_error_witness :
  result_of (exec echo (Worker.query_coordinator sample_worker hi) broken_pipe) = Returned [].
Proof.
  apply (query_returns_empty_on_socket_error echo sample_worker hi broken_pipe
           (OSError "Broken pipe")).
  - vm_compute. constructor.
  - reflexivity.
Defined.

(* ===================================================================== *)
(** ** [Worker.start] *)
(* ===================================================================== *)

Section Invariants.

Variable handle_request : fd → address → bytes → result bytes.

(** What every allowed call preserves, a program of allowed calls
    preserves. *)
Lemma exec_preserves (P : ∀ X : Type, op X → Prop) (I : world → Prop) :
  (∀ X (o : op X) w x w', P X o → do_op handle_request o w = Some (x, w') → I w → I w') →
  ∀ A (p : prog A) w, all_ops P p → I w → I (world_of (exec handle_request p w)).
Proof.
  intros Hstep A p w Hp. revert w.
  induction Hp as [a|e| |X o k Ho Hk IH]; intros w Hw; try done.
  simpl. destruct (do_op handle_request o w) as [[x w']|] eqn:Hop; [|done].
  simpl. eapply IH, Hstep; eauto.
Qed.


End Invariants.

Section Start.

Variable handle_request : fd → address → bytes → result bytes.
Variable self : Worker.t.
Local Abbreviation exec' := (exec handle_request).

Lemma start_pieces (run_worker : prog unit) :
  Worker.start self run_worker
  = try_finally
      (try_except (connect_and_run self run_worker) is_socket_error
         (report_connection_error self))
      (disconnect self).
Proof. done. Qed.

Lemma exec_worker_display_update (message : string) (w : world) :
  exec' (Worker.display_update self message) w
  = if Worker.are_updates_displayed self
    then Run (Returned tt) (set_stdout (λ out, out ++ [message]) w) [Event (Print message) tt]
    else Run (Returned tt) w [].
Proof. unfold Worker.display_update. by destruct (Worker.are_updates_displayed self). Qed.

(** The [finally] block returns, with [self.client_socket] closed and
    set to [None]. *)
Lemma disconnect_run (w : world) :
  let r := exec' (disconnect self) w in
  result_of r = Returned tt
  ∧ client_socket (world_of r) = None
  ∧ socket_status (world_of r)
    = match client_socket w with
      | Some s => alter (λ _, true) s (socket_status w)
      | None => socket_status w
      end.
Proof.
  unfold disconnect, Worker.on_client_socket. cbn -[do_op].
  rewrite do_op_get_client_socket. cbn -[do_op].
  destruct (client_socket w) as [s|] eqn:Hcs; [|done].
  cbn -[do_op]. rewrite do_op_get_client_socket, Hcs. cbn -[do_op].
  destruct (do_op_close handle_request s w) as (w1 & H1 & S1 & _ & _).
  rewrite H1. cbn -[Worker.display_update].
  rewrite exec_worker_display_update.
  by destruct (Worker.are_updates_displayed self).
Qed.


(** The [except] handler returns and touches no socket. *)
Lemma report_connection_error_run (e : exn) (w : world) :
  let r := exec' (report_connection_error self e) w in
  result_of r = Returned tt
  ∧ client_socket (world_of r) = client_socket w
  ∧ socket_status (world_of r) = socket_status w.
Proof.
  unfold report_connection_error. cbv zeta. rewrite exec_worker_display_update.
  by destruct (Worker.are_updates_displayed self).
Qed.










(** With a coordinator listening, the [try] block gets to [run_worker]. *)
Lemma connect_and_run_connected (run_worker : prog unit) (w : world) :
  socket_fault w = None →
  port_in_range (Worker.port self) = true →
  (Worker.host self, Worker.port self) ∈ listening w →
  result_of (exec' (connect_and_run self run_worker) w)
  = result_of (exec' run_worker (worker_connected self w)).
Proof.
  intros Hf Hport Hl. unfold connect_and_run, Worker.on_client_socket, worker_connected.
  cbn -[do_op Worker.display_update].
  destruct (do_op handle_request SockNew w) as [[[s|e] w1]|] eqn:H1;
    simpl in H1; rewrite Hf in H1; simplify_eq.
  cbn -[do_op Worker.display_update].
  rewrite do_op_set_client_socket. cbn -[do_op Worker.display_update].
  rewrite do_op_get_client_socket. cbn -[do_op Worker.display_update].
  cbn [do_op snd]. rewrite Hport. unfold usable.
  cbn [sockets set_sockets set_client_socket].
  rewrite lookup_insert_eq. cbn [closed fresh_socket listening set_sockets set_client_socket].
  rewrite decide_True by done. cbn -[do_op Worker.display_update].
  rewrite exec_bind, exec_worker_display_update.
  destruct (Worker.are_updates_displayed self); unfold and_then;
    cbn [result_of world_of trace_of];
    by destruct (result_of (exec' run_worker _)).
Qed.


(** The [except] handler and the [finally] block return: how [start] ends
    is decided by its [try] block. *)
Lemma start_ends_as_try_block (run_worker : prog unit) (w : world) :
  result_of (exec' (Worker.start self run_worker) w)
  = start_outcome (result_of (exec' (connect_and_run self run_worker) w)).
Proof.
  rewrite start_pieces, exec_try_finally, exec_try_except.
  destruct (exec' (connect_and_run self run_worker) w) as [[[]|e| |] w1 tr1];
    unfold or_else, and_finally, start_outcome;
    cbn [result_of world_of trace_of] in *; try done;
    try (destruct (is_socket_error e));
    cbn [result_of world_of trace_of] in *;
    try (pose proof (report_connection_error_run e w1) as (R2 & C2 & S2);
         destruct (exec' (report_connection_error self e) w1) as [r2 w2 tr2];
         cbn [result_of world_of trace_of] in *; subst r2;
         cbn [result_of world_of trace_of] in *);
    match goal with
    | |- context [exec _ (disconnect self) ?w3] =>
        pose proof (disconnect_run w3) as (R3 & C3 & S3);
        destruct (exec' (disconnect self) w3) as [r3 w4 tr3];
        cbn [result_of world_of trace_of] in *; subst r3
    end; done.
Qed.


End Start.





(* ===================================================================== *)
(** ** [Coordinator.start]: the accept loop *)
(* ===================================================================== *)

Section AcceptLoop.

Variable handle_request : fd → address → bytes → result bytes.
Variable self : Coordinator.t.
Local Abbreviation exec' := (exec handle_request).

Lemma do_op_accept (w : world) (s : fd) (st : socket_state) (r : result request)
    (rest : list (result request)) :
  sockets w !! s = Some st → closed st = false → arrivals w = r :: rest →
  do_op handle_request (SockAccept s) w = Some (r, set_arrivals rest w).
Proof. intros Hs Hc Ha. simpl. by rewrite (usable_live _ _ _ Hs Hc), Ha. Qed.

(** A pass of the accept loop when a connection has arrived: it is
    accepted and handed to a registration thread. *)
Lemma accept_one_accepts (w : world) (s : fd) (st : socket_state) (c : request)
    (rest : list (result request)) :
  sockets w !! s = Some st → closed st = false → arrivals w = Ok c :: rest →
  let r := exec' (Coordinator.accept_one self s) w in
  result_of r = Returned tt
  ∧ accepted_connections (trace_of r) = [c]
  ∧ sockets (world_of r) = sockets w
  ∧ threads (world_of r) = threads w ++ [registration c]
  ∧ arrivals (world_of r) = rest.
Proof.
  intros Hs Hc Ha. unfold Coordinator.accept_one, Coordinator.display_update.
  cbn -[do_op]. rewrite (do_op_accept _ _ _ _ _ Hs Hc Ha).
  destruct c as [c a]. by destruct (Coordinator.are_updates_displayed self).
Qed.

(** A pass of the accept loop when [accept] raises: the exception
    leaves the pass. *)
Lemma accept_one_raises (w : world) (s : fd) (st : socket_state) (e : exn)
    (rest : list (result request)) :
  sockets w !! s = Some st → closed st = false → arrivals w = Err e :: rest →
  exec' (Coordinator.accept_one self s) w
  = Run (Raised e) (set_arrivals rest w) [Event (SockAccept s) (Err e)].
Proof.
  intros Hs Hc Ha. unfold Coordinator.accept_one.
  cbn -[do_op]. by rewrite (do_op_accept _ _ _ _ _ Hs Hc Ha).
Qed.

Lemma exec_accept_loop_S (s : fd) (fuel : nat) (w : world) :
  exec' (Coordinator.accept_loop self s (S fuel)) w
  = and_then (exec' (Coordinator.accept_one self s) w)
             (λ _ w', exec' (Coordinator.accept_loop self s fuel) w').
Proof.
  change (Coordinator.accept_loop self s (S fuel))
    with (Coordinator.accept_one self s ≫= λ _, Coordinator.accept_loop self s fuel).
  apply exec_bind.
Qed.

(** The accept loop accepts the connections that arrive before the first
    error, and ends with that error. *)
Lemma accept_loop_until_error (s : fd) (st : socket_state) (e : exn)
    (rest : list (result request)) (conns : list request) :
  ∀ (w : world) (fuel : nat),
    sockets w !! s = Some st → closed st = false →
    arrivals w = (Ok <$> conns) ++ Err e :: rest →
    (length conns < fuel)%nat →
    let r := exec' (Coordinator.accept_loop self s fuel) w in
    result_of r = Raised e
    ∧ accepted_connections (trace_of r) = conns
    ∧ threads (world_of r) = threads w ++ (registration <$> conns)
    ∧ arrivals (world_of r) = rest.
Proof.
  induction conns as [|c conns IH]; intros w fuel Hs Hc Ha Hfuel;
    (destruct fuel as [|fuel]; [simpl in Hfuel; lia|]);
    cbv zeta; rewrite exec_accept_loop_S.
  - rewrite (accept_one_raises _ _ _ _ _ Hs Hc Ha). cbn. by rewrite app_nil_r.
  - destruct (accept_one_accepts w s st c _ Hs Hc Ha) as (R & A & S1 & T & Ar).
    unfold and_then. rewrite R. cbn [result_of world_of trace_of].
    destruct (IH (world_of (exec' (Coordinator.accept_one self s) w)) fuel)
      as (R' & A' & T' & Ar'); [by rewrite S1|done|done|simpl in Hfuel; lia|].
    rewrite R', accepted_connections_app, A, A', T', T, Ar'.
    by rewrite <- app_assoc.
Qed.

(** [start] up to its accept loop: the server socket is made, bound and
    listening, and the processing thread is started. *)
Lemma exec_start (fuel : nat) (w : world) :
  socket_fault w = None →
  port_in_range (Coordinator.port self) = true →
  fits_c_int (Coordinator.max_num_of_clients self) = true →
  (Coordinator.host self, Coordinator.port self) ∉ bound w →
  ∃ w',
    exec' (Coordinator.start self fuel) w
    = after_events (setup_trace self (fresh (dom (sockets w))))
        (exec' (Coordinator.accept_loop self (fresh (dom (sockets w))) fuel) w')
    ∧ sockets w' !! fresh (dom (sockets w))
      = Some (set_bound_to (Some (Coordinator.host self, Coordinator.port self)) fresh_socket)
    ∧ threads w' = threads w ++ [(ProcessRequests, Some true)]
    ∧ arrivals w' = arrivals w.
Proof.
  intros Hf Hport Hbacklog Hb.
  unfold Coordinator.start, Coordinator.display_update, setup_trace.
  cbn -[Coordinator.accept_loop port_in_range fits_c_int]. rewrite Hf.
  do 3 (cbn -[Coordinator.accept_loop port_in_range fits_c_int];
        rewrite ?Hport, ?Hbacklog; unfold usable;
        cbn -[Coordinator.accept_loop port_in_range fits_c_int];
        rewrite ?lookup_insert_eq;
        rewrite ?decide_False by done).
  cbn -[Coordinator.accept_loop port_in_range fits_c_int].
  destruct (Coordinator.are_updates_displayed self);
    cbn -[Coordinator.accept_loop port_in_range fits_c_int];
    (eexists; split; [reflexivity|]); cbn; by rewrite lookup_insert_eq.
Qed.

End AcceptLoop.

Lemma accepted_connections_setup (self : Coordinator.t) (s : fd) :
  accepted_connections (setup_trace self s) = [].
Proof. unfold setup_trace. by destruct (Coordinator.are_updates_displayed self). Qed.

(** An error on accepting a connection is not contained: it leaves [start]
    as an exception and ends the accept loop.  The connections that arrived
    before the error have each been accepted and handed to a registration
    thread, in the order of their arrival; no connection that arrives after
    the error is accepted. *)
Lemma start_accepts_until_error
    (handle_request : fd → address → bytes → result bytes) (self : Coordinator.t)
    (w : world) (conns : list request) (e : exn) (rest : list (result request))
    (fuel : nat) :
  socket_fault w = None →
  port_in_range (Coordinator.port self) = true →
  fits_c_int (Coordinator.max_num_of_clients self) = true →
  (Coordinator.host self, Coordinator.port self) ∉ bound w →
  arrivals w = (Ok <$> conns) ++ Err e :: rest →
  (length conns < fuel)%nat →
  let r := exec handle_request (Coordinator.start self fuel) w in
  result_of r = Raised e
  ∧ accepted_connections (trace_of r) = conns
  ∧ threads (world_of r) = threads w ++ (ProcessRequests, Some true) :: (registration <$> conns)
  ∧ arrivals (world_of r) = rest.
Proof.
  intros Hf Hport Hbacklog Hb Ha Hfuel. cbv zeta.
  destruct (exec_start handle_request self fuel w Hf Hport Hbacklog Hb)
    as (w' & -> & Hs & Ht & Har).
  destruct (accept_loop_until_error handle_request self (fresh (dom (sockets w))) _ e rest
              conns w' fuel Hs eq_refl ltac:(by rewrite Har) Hfuel)
    as (R & A & T & Ar).
  unfold after_events. cbn [result_of world_of trace_of].
  rewrite R, accepted_connections_app, accepted_connections_setup, A, T, Ht, Ar.
  by rewrite <- app_assoc.
Qed.

(** C3, at the failing input.  The first [accept] raises "Too many open
    files" and Bob's connection arrives after it: [start] has no [except]
    around [accept], so it ends with that exception however often its
    [while True] is unrolled.  The accept loop has not continued: Bob's
    connection is still waiting to be accepted, no connection was accepted
    and no registration thread was started. *)
Theorem accept_error_ends_start (fuel : nat) :
  let r := exec echo (Coordinator.start sample_coordinator (S fuel)) alice_fails_then_bob in
  result_of r = Raised too_many_files
  ∧ accepted_connections (trace_of r) = []
  ∧ arrivals (world_of r) = [Ok (6%nat, bob)]
  ∧ threads (world_of r) = [(ProcessRequests, Some true)].
Proof.
  cbv zeta.
  destruct (start_accepts_until_error echo sample_coordinator alice_fails_then_bob
              [] too_many_files [Ok (6%nat, bob)] (S fuel))
    as (R & A & T & Ar);
    [reflexivity|reflexivity|reflexivity|simpl; apply not_elem_of_empty|reflexivity
    |simpl; lia|].
  by rewrite R, A, T, Ar.
Qed.

(* ===================================================================== *)
(** ** The verbosity flag *)
(* ===================================================================== *)

Lemma silence_set_stdout (f : list string → list string) (w : world) :
  silence (set_stdout f w) = silence w.
Proof. done. Qed.

(** No call reads what was printed. *)
Lemma do_op_silence (handle_request : fd → address → bytes → result bytes)
    {X : Type} (o : op X) (w : world) :
  prod_map id silence <$> do_op handle_request o (silence w)
  = prod_map id silence <$> do_op handle_request o w.
Proof.
  destruct o; simpl; unfold usable; simpl; repeat case_match; simplify_eq; done.
Qed.

Lemma do_op_silenced (handle_request : fd → address → bytes → result bytes)
    {X : Type} (o : op X) (w1 w2 : world) :
  silence w1 = silence w2 →
  match do_op handle_request o w1, do_op handle_request o w2 with
  | Some (x1, w1'), Some (x2, w2') => x1 = x2 ∧ silence w1' = silence w2'
  | None, None => True
  | _, _ => False
  end.
Proof.
  intros Hw. pose proof (do_op_silence handle_request o w1) as H1.
  pose proof (do_op_silence handle_request o w2) as H2.
  rewrite Hw, H2 in H1.
  destruct (do_op handle_request o w1) as [[x1 w1']|],
    (do_op handle_request o w2) as [[x2 w2']|]; simpl in H1; try done.
  split; congruence.
Qed.

Lemma same_but_prints_refl {A : Type} (p : prog A) : same_but_prints p p.
Proof. induction p; by constructor. Qed.

Lemma same_but_prints_bind {A B : Type} (p q : prog A) (f g : A → prog B) :
  same_but_prints p q → (∀ a, same_but_prints (f a) (g a)) →
  same_but_prints (p ≫= f) (q ≫= g).
Proof.
  intros Hpq Hfg. induction Hpq; simpl; try by constructor.
  apply Hfg.
Qed.

Lemma same_but_prints_try_finally {A : Type} (p q : prog A) (f g : prog unit) :
  same_but_prints p q → same_but_prints f g →
  same_but_prints (try_finally p f) (try_finally q g).
Proof.
  intros Hpq Hfg. induction Hpq; simpl; try by constructor.
  - apply same_but_prints_bind; [done|]. intros _. constructor.
  - apply same_but_prints_bind; [done|]. intros _. constructor.
Qed.

Lemma same_but_prints_try_except {A : Type} (p q : prog A) (c : exn → bool)
    (f g : exn → prog A) :
  same_but_prints p q → (∀ e, same_but_prints (f e) (g e)) →
  same_but_prints (try_except p c f) (try_except q c g).
Proof.
  intros Hpq Hfg. induction Hpq; simpl; try by constructor.
  destruct (c e); [apply Hfg|constructor].
Qed.

(** Programs that make the same calls apart from [print] are inert. *)
Lemma same_but_prints_inert {A : Type} (p q : prog A) :
  same_but_prints p q → inert p q.
Proof.
  intros Hpq h w.
  assert (∀ w1 w2, silence w1 = silence w2 →
            result_of (exec h p w1) = result_of (exec h q w2)
            ∧ silence (world_of (exec h p w1)) = silence (world_of (exec h q w2))
            ∧ io_trace (trace_of (exec h p w1)) = io_trace (trace_of (exec h q w2)))
    as H; [|by apply H].
  clear w. induction Hpq as [a|e| |X o k k' Hk IH|m k q Hkq IH|m p k Hpk IH];
    intros w1 w2 Hw; try done.
  - simpl. pose proof (do_op_silenced h o w1 w2 Hw) as Ho.
    destruct (do_op h o w1) as [[x1 w1']|], (do_op h o w2) as [[x2 w2']|];
      try done. destruct Ho as [-> Hw'].
    destruct (IH x2 w1' w2' Hw') as (R & W & T).
    unfold after_event, io_trace in *. cbn [result_of world_of trace_of omap list_omap].
    split_and!; try done. destruct (printed (Event o x2)); by rewrite ?T.
  - simpl. apply (IH (set_stdout (λ out, out ++ [m]) w1) w2 Hw).
  - simpl. apply (IH w1 (set_stdout (λ out, out ++ [m]) w2) Hw).
Qed.

Lemma coordinator_display_update_same (b b' : bool) (c : Coordinator.t) (message : string) :
  same_but_prints (Coordinator.display_update (coordinator_displaying b c) message)
                  (Coordinator.display_update (coordinator_displaying b' c) message).
Proof.
  unfold Coordinator.display_update. simpl. destruct b, b'; simpl; unfold print, call.
  - apply same_but_prints_refl.
  - apply sbp_print_l. constructor.
  - apply sbp_print_r. constructor.
  - constructor.
Qed.

Lemma worker_display_update_same (b b' : bool) (k : Worker.t) (message : string) :
  same_but_prints (Worker.display_update (worker_displaying b k) message)
                  (Worker.display_update (worker_displaying b' k) message).
Proof.
  unfold Worker.display_update. simpl. destruct b, b'; simpl; unfold print, call.
  - apply same_but_prints_refl.
  - apply sbp_print_l. constructor.
  - apply sbp_print_r. constructor.
  - constructor.
Qed.

(** One step of showing that two method bodies make the same calls. *)
Ltac same_calls :=
  repeat first
    [ assumption
    | apply coordinator_display_update_same
    | apply worker_display_update_same
    | apply same_but_prints_try_finally
    | apply same_but_prints_try_except
    | apply same_but_prints_bind
    | progress intros
    | match goal with x : request |- _ => destruct x end
    | match goal with x : (_ * _)%type |- _ => destruct x end
    | match goal with x : option fd |- _ => destruct x end
    | apply same_but_prints_refl ].

Section Inert.

Variable b b' : bool.
Variable c : Coordinator.t.
Variable k : Worker.t.

Lemma queue_client_request_same (s : fd) (a : address) :
  same_but_prints (Coordinator.queue_client_request (coordinator_displaying b c) s a)
                  (Coordinator.queue_client_request (coordinator_displaying b' c) s a).
Proof. unfold Coordinator.queue_client_request. same_calls. Qed.

Lemma process_request_same :
  same_but_prints (Coordinator.process_request (coordinator_displaying b c))
                  (Coordinator.process_request (coordinator_displaying b' c)).
Proof. unfold Coordinator.process_request. same_calls. Qed.

Lemma process_requests_same (fuel : nat) :
  same_but_prints (Coordinator.process_requests (coordinator_displaying b c) fuel)
                  (Coordinator.process_requests (coordinator_displaying b' c) fuel).
Proof.
  induction fuel as [|fuel IH]; [constructor|].
  change (Coordinator.process_requests ?s (S fuel))
    with (Coordinator.process_request s ≫= λ _, Coordinator.process_requests s fuel).
  apply same_but_prints_bind; [apply process_request_same|done].
Qed.

Lemma accept_loop_same (s : fd) (fuel : nat) :
  same_but_prints (Coordinator.accept_loop (coordinator_displaying b c) s fuel)
                  (Coordinator.accept_loop (coordinator_displaying b' c) s fuel).
Proof.
  induction fuel as [|fuel IH]; [constructor|].
  change (Coordinator.accept_loop ?x s (S fuel))
    with (Coordinator.accept_one x s ≫= λ _, Coordinator.accept_loop x s fuel).
  apply same_but_prints_bind; [|done].
  unfold Coordinator.accept_one. same_calls.
Qed.

Lemma start_same (fuel : nat) :
  same_but_prints (Coordinator.start (coordinator_displaying b c) fuel)
                  (Coordinator.start (coordinator_displaying b' c) fuel).
Proof.
  unfold Coordinator.start. simpl Coordinator.host. simpl Coordinator.port.
  simpl Coordinator.max_num_of_clients.
  apply same_but_prints_bind; [apply same_but_prints_refl|]. intros s.
  do 2 (apply same_but_prints_bind; [apply same_but_prints_refl|]; intros _).
  apply same_but_prints_bind; [apply coordinator_display_update_same|]. intros _.
  apply same_but_prints_bind; [apply same_but_prints_refl|]. intros _.
  apply accept_loop_same.
Qed.

Lemma query_coordinator_same (data : bytes) :
  same_but_prints (Worker.query_coordinator (worker_displaying b k) data)
                  (Worker.query_coordinator (worker_displaying b' k) data).
Proof. unfold Worker.query_coordinator, Worker.on_client_socket. same_calls. Qed.

Lemma worker_start_same (run_worker run_worker' : prog unit) :
  same_but_prints run_worker run_worker' →
  same_but_prints (Worker.start (worker_displaying b k) run_worker)
                  (Worker.start (worker_displaying b' k) run_worker').
Proof.
  intros Hrw. unfold Worker.start, Worker.on_client_socket.
  simpl Worker.host. simpl Worker.port. same_calls.
Qed.

End Inert.

(** C10. The verbosity flag is inert.  Take any coordinator and any worker,
    and any two values of [are_updates_displayed]: every operation of the
    two classes, run from the same world under the one value and under the
    other, ends the same way with the same result, makes the same calls
    apart from [print], and leaves the same world (queue, sockets, threads
    started, [self.client_socket]) apart from the printed lines.  For
    [Worker.start] this holds with the subclass's [run_worker] standing for
    code that itself differs in nothing but what it prints. *)
Theorem verbosity_flag_is_inert (b b' : bool) (c : Coordinator.t) (k : Worker.t) :
  (∀ message,
     inert (Coordinator.display_update (coordinator_displaying b c) message)
           (Coordinator.display_update (coordinator_displaying b' c) message))
  ∧ (∀ s a,
       inert (Coordinator.queue_client_request (coordinator_displaying b c) s a)
             (Coordinator.queue_client_request (coordinator_displaying b' c) s a))
  ∧ (∀ fuel,
       inert (Coordinator.process_requests (coordinator_displaying b c) fuel)
             (Coordinator.process_requests (coordinator_displaying b' c) fuel))
  ∧ (∀ fuel,
       inert (Coordinator.start (coordinator_displaying b c) fuel)
             (Coordinator.start (coordinator_displaying b' c) fuel))
  ∧ (∀ message,
       inert (Worker.display_update (worker_displaying b k) message)
             (Worker.display_update (worker_displaying b' k) message))
  ∧ (∀ data,
       inert (Worker.query_coordinator (worker_displaying b k) data)
             (Worker.query_coordinator (worker_displaying b' k) data))
  ∧ (∀ run_worker run_worker',
       same_but_prints run_worker run_worker' →
       inert (Worker.start (worker_displaying b k) run_worker)
             (Worker.start (worker_displaying b' k) run_worker')).
Proof.
  split_and!; intros; apply same_but_prints_inert.
  - apply coordinator_display_update_same.
  - apply queue_client_request_same.
  - apply process_requests_same.
  - apply start_same.
  - apply worker_display_update_same.
  - apply query_coordinator_same.
  - by apply worker_start_same.
Qed.

(* ===================================================================== *)
(** ** One consumer, one handler invocation at a time *)
(* ===================================================================== *)

Lemma all_ops_bind (P : ∀ X : Type, op X → Prop) {A B : Type} (p : prog A) (f : A → prog B) :
  all_ops P p → (∀ a, all_ops P (f a)) → all_ops P (p ≫= f).
Proof. intros Hp Hf. induction Hp; simpl; try by constructor. apply Hf. Qed.

Lemma all_ops_try_finally (P : ∀ X : Type, op X → Prop) {A : Type} (p : prog A)
    (f : prog unit) :
  all_ops P p → all_ops P f → all_ops P (try_finally p f).
Proof.
  intros Hp Hf. induction Hp; simpl; try by constructor.
  - apply all_ops_bind; [done|]. intros _. constructor.
  - apply all_ops_bind; [done|]. intros _. constructor.
Qed.

Lemma all_ops_call (P : ∀ X : Type, op X → Prop) {X : Type} (o : op X) :
  P X o → all_ops P (call o).
Proof. intros Ho. constructor; [done|]. intros x. constructor. Qed.

Lemma all_ops_call_raising (P : ∀ X : Type, op X → Prop) {X : Type} (o : op (result X)) :
  P (result X) o → all_ops P (call_raising o).
Proof. intros Ho. constructor; [done|]. intros [x|e]; constructor. Qed.

(** One step of showing that every call of a method body satisfies [P]. *)
Ltac every_call :=
  repeat first
    [ apply all_ops_bind
    | apply all_ops_try_finally
    | apply all_ops_call; by repeat split
    | apply all_ops_call_raising; by repeat split
    | apply all_ops_ret
    | progress intros
    | match goal with x : (_ * _)%type |- _ => destruct x end
    | match goal with |- context [if ?b then _ else _] => destruct b end ].

Section Roles.

Variable self : Coordinator.t.

Lemma queue_client_request_bystander (s : fd) (a : address) :
  bystander (Coordinator.queue_client_request self s a).
Proof.
  unfold bystander, Coordinator.queue_client_request, Coordinator.display_update,
    queue_put, print.
  every_call.
Qed.

Lemma process_requests_consumer (fuel : nat) :
  consumer (Coordinator.process_requests self fuel).
Proof.
  induction fuel as [|fuel IH]; [constructor|].
  change (Coordinator.process_requests self (S fuel))
    with (Coordinator.process_request self ≫= λ _, Coordinator.process_requests self fuel).
  apply all_ops_bind; [|done].
  unfold Coordinator.process_request, Coordinator.display_update, Coordinator.handle_request,
    queue_get, print, sock_recv, sock_send, sock_close, queue_task_done.
  every_call.
Qed.

Lemma accept_loop_bystander (s : fd) (fuel : nat) :
  bystander (Coordinator.accept_loop self s fuel).
Proof.
  induction fuel as [|fuel IH]; [constructor|].
  change (Coordinator.accept_loop self s (S fuel))
    with (Coordinator.accept_one self s ≫= λ _, Coordinator.accept_loop self s fuel).
  apply all_ops_bind; [|done].
  unfold Coordinator.accept_one, Coordinator.display_update, sock_accept, print, thread_start.
  every_call.
Qed.

Lemma start_starter (fuel : nat) : starter (Coordinator.start self fuel).
Proof.
  unfold Coordinator.start, Coordinator.display_update.
  cbn -[Coordinator.accept_loop].
  apply starter_vis; [done|done|]. intros [s|e]; [|constructor].
  cbn -[Coordinator.accept_loop].
  apply starter_vis; [done|done|]. intros [[]|e]; [|constructor].
  cbn -[Coordinator.accept_loop].
  apply starter_vis; [done|done|]. intros [[]|e]; [|constructor].
  cbn -[Coordinator.accept_loop].
  destruct (Coordinator.are_updates_displayed self); cbn -[Coordinator.accept_loop].
  - apply starter_vis; [done|done|]. intros [].
    apply starter_spawn; [done|]. intros []. apply accept_loop_bystander.
  - apply starter_spawn; [done|]. intros []. apply accept_loop_bystander.
Qed.

End Roles.

Lemma all_ops_inv (P : ∀ X : Type, op X → Prop) {A : Type} (p : prog A) :
  all_ops P p →
  match p with
  | Vis o k => P _ o ∧ ∀ x, all_ops P (k x)
  | _ => True
  end.
Proof. by intros []. Qed.

Lemma starter_inv {A : Type} (p : prog A) :
  starter p →
  match p with
  | Vis o k =>
      (is_handle o = false ∧ started o ≠ Some ProcessRequests ∧ ∀ x, starter (k x))
      ∨ (started o = Some ProcessRequests ∧ ∀ x, bystander (k x))
  | _ => True
  end.
Proof. intros []; try done; [by left|by right]. Qed.

Lemma started_not_handle {X : Type} (o : op X) (t : task) :
  started o = Some t → is_handle o = false.
Proof. by destruct o. Qed.

Lemma bystander_starter {A : Type} (p : prog A) : bystander p → starter p.
Proof. intros Hp. induction Hp as [| | |X o k [Hh Hs] Hk IH]; by constructor. Qed.

Lemma stays_outside_may_consume (th : thread) : stays_outside th → may_consume th.
Proof. intros [Hb Hh]. left. split; [by apply bystander_starter|done]. Qed.

Section Pool.

Variable handle_request : fd → address → bytes → result bytes.
Variable self : Coordinator.t.
Variable fuel : nat.

(** A call that starts no processing thread starts only bystanders. *)
Lemma new_threads_outside {X : Type} (o : op X) :
  started o ≠ Some ProcessRequests →
  Forall stays_outside (new_threads self fuel o).
Proof.
  intros Ho. unfold new_threads.
  destruct (started o) as [[|s a]|]; [done| |constructor].
  constructor; [|constructor]. split; [apply queue_client_request_bystander|done].
Qed.

(** A thread outside the handler stays outside, and so do the threads it
    starts. *)
Lemma step_outside (th th' : thread) (w w' : world) (new : list thread) :
  stays_outside th →
  thread_step handle_request self fuel th w = Some (th', w', new) →
  stays_outside th' ∧ Forall stays_outside new.
Proof.
  intros [Hb Hh]. unfold thread_step.
  destruct (code th) as [| | |X o k] eqn:Hc; try done.
  apply all_ops_inv in Hb as [[Ho Hs] Hk]. rewrite Ho. simpl.
  destruct (do_op handle_request o w) as [[x w1]|]; [|done].
  intros [= <- <- <-]. split; [split; [apply Hk|done]|by apply new_threads_outside].
Qed.

(** The thread that may consume either goes on as it is, starting
    bystanders only, or starts the consumer and becomes a bystander. *)
Lemma step_may_consume (th th' : thread) (w w' : world) (new : list thread) :
  may_consume th →
  thread_step handle_request self fuel th w = Some (th', w', new) →
  (may_consume th' ∧ Forall stays_outside new)
  ∨ (stays_outside th' ∧ ∃ c, new = [c] ∧ may_consume c).
Proof.
  intros [[Hs Hh]|Hc]; unfold thread_step.
  - destruct (code th) as [| | |X o k] eqn:Hcode; try done.
    apply starter_inv in Hs as [(Ho & Hst & Hk)|(Hst & Hk)].
    + rewrite Ho. simpl. destruct (do_op handle_request o w) as [[x w1]|]; [|done].
      intros [= <- <- <-]. left.
      split; [left; split; [apply Hk|done]|by apply new_threads_outside].
    + rewrite (started_not_handle o _ Hst). simpl.
      destruct (do_op handle_request o w) as [[x w1]|]; [|done].
      intros [= <- <- <-]. right. split; [split; [apply Hk|done]|].
      unfold new_threads. rewrite Hst. eexists; split; [done|].
      right. apply process_requests_consumer.
  - destruct (code th) as [| | |X o k] eqn:Hcode; try done.
    apply all_ops_inv in Hc as [Hst Hk].
    destruct (is_handle o && negb (in_handler th)).
    + intros [= <- <- <-]. left. split; [|constructor].
      right. simpl. by constructor.
    + destruct (do_op handle_request o w) as [[x w1]|]; [|done].
      intros [= <- <- <-]. left.
      split; [right; apply Hk|by apply new_threads_outside].
Qed.

(** A step of the scheduler keeps the pool with a single consumer. *)
Lemma system_step_single_consumer (i : nat) (special : option nat) (σ : system) :
  single_consumer special σ →
  ∃ special', single_consumer special' (system_step handle_request self fuel i σ).
Proof.
  intros Hinv. unfold system_step.
  destruct (pool σ !! i) as [th|] eqn:Hi; [|by exists special].
  destruct (thread_step handle_request self fuel th (shared σ)) as [[[th' w'] new]|] eqn:Hstep;
    [|by exists special].
  pose proof (Hinv i th Hi) as Hth.
  assert (i < length (pool σ))%nat as Hlt by (by eapply lookup_lt_Some).
  destruct (decide (special = Some i)) as [->|Hne].
  - destruct (step_may_consume th th' _ _ new Hth Hstep) as [[Hth' Hnew]|[Hth' (c & -> & Hc)]].
    + exists (Some i). intros j thj Hj. simpl in Hj.
      apply lookup_app_Some in Hj as [Hj|[Hlen Hj]].
      * apply list_lookup_insert_Some in Hj as [(-> & <- & _)|[Hij Hj]].
        -- by rewrite decide_True.
        -- rewrite decide_False by congruence.
           pose proof (Hinv j thj Hj) as H. by rewrite decide_False in H by congruence.
      * rewrite length_insert in Hlen. rewrite decide_False by (intros [= ->]; lia).
        rewrite Forall_forall in Hnew. apply Hnew. by eapply list_elem_of_lookup_2.
    + exists (Some (length (pool σ))). intros j thj Hj. simpl in Hj.
      apply lookup_app_Some in Hj as [Hj|[Hlen Hj]].
      * assert (j < length (pool σ))%nat as Hjlt.
        { apply lookup_lt_Some in Hj. by rewrite length_insert in Hj. }
        rewrite decide_False by (intros [= Heq]; lia).
        apply list_lookup_insert_Some in Hj as [(-> & <- & _)|[Hij Hj]]; [done|].
        pose proof (Hinv j thj Hj) as H. by rewrite decide_False in H by congruence.
      * rewrite length_insert in Hlen, Hj.
        destruct (j - length (pool σ))%nat as [|n] eqn:Hd; simpl in Hj; [|done].
        simplify_eq. assert (j = length (pool σ)) as -> by lia.
        by rewrite decide_True.
  - destruct (step_outside th th' _ _ new Hth Hstep) as [Hth' Hnew].
    exists special. intros j thj Hj. simpl in Hj.
    assert (stays_outside thj ∨ (j ≠ i ∧ pool σ !! j = Some thj)) as [Hout|[Hji Hold]].
    { apply lookup_app_Some in Hj as [Hj|[Hlen Hj]].
      - apply list_lookup_insert_Some in Hj as [(-> & <- & _)|[Hij Hj]]; [by left|].
        right. by split.
      - left. rewrite Forall_forall in Hnew. apply Hnew. by eapply list_elem_of_lookup_2. }
    + case_decide; [by apply stays_outside_may_consume|done].
    + apply (Hinv j thj Hold).
Qed.

Lemma system_run_single_consumer (schedule : list nat) :
  ∀ (special : option nat) (σ : system),
    single_consumer special σ →
    ∃ special', single_consumer special' (system_run handle_request self fuel schedule σ).
Proof.
  induction schedule as [|i schedule IH]; intros special σ Hinv; [by exists special|].
  simpl. destruct (system_step_single_consumer i special σ Hinv) as [special' Hinv'].
  by apply (IH special').
Qed.

Lemma boot_single_consumer (w : world) :
  single_consumer (Some 0%nat) (boot self fuel w).
Proof.
  intros [|i] th Hi; simpl in Hi; [|done]. simplify_eq.
  rewrite decide_True by done. left. split; [apply start_starter|done].
Qed.

End Pool.

Lemma filter_none {A : Type} (P : A → Prop) `{∀ x, Decision (P x)} (l : list A) :
  (∀ i x, l !! i = Some x → ¬ P x) → filter P l = [].
Proof.
  induction l as [|a l IH]; intros Hl; [done|].
  rewrite filter_cons. destruct (decide (P a)) as [Ha|Ha].
  - by destruct (Hl 0%nat a eq_refl).
  - apply IH. intros i x Hi. by apply (Hl (S i)).
Qed.

(** In a list in which only the element at one index can satisfy [P], at
    most one element does. *)
Lemma at_most_one_filter {A : Type} (P : A → Prop) `{∀ x, Decision (P x)}
    (l : list A) :
  ∀ s : option nat,
    (∀ i x, l !! i = Some x → P x → s = Some i) →
    (length (filter P l) ≤ 1)%nat.
Proof.
  induction l as [|a l IH]; intros s Hs; [simpl; lia|].
  rewrite filter_cons. destruct (decide (P a)) as [Ha|Ha].
  - pose proof (Hs 0%nat a eq_refl Ha) as ->.
    rewrite (filter_none P l); [simpl; lia|].
    intros i x Hi Hx. by pose proof (Hs (S i) x Hi Hx).
  - apply (IH (pred <$> s)). intros i x Hi Hx.
    by rewrite (Hs (S i) x Hi Hx).
Qed.

(** C6. No two handler invocations overlap in time: however the threads of
    the coordinator are scheduled after [start], at every moment at most
    one thread is inside [handle_request], because only the one thread that
    [start] makes for [process_requests] ever calls it. *)
Theorem handler_invocations_never_overlap
    (handle_request : fd → address → bytes → result bytes) (self : Coordinator.t)
    (fuel : nat) (w : world) (schedule : list nat) :
  (handling (system_run handle_request self fuel schedule (boot self fuel w)) ≤ 1)%nat.
Proof.
  destruct (system_run_single_consumer handle_request self fuel schedule (Some 0%nat)
              (boot self fuel w) (boot_single_consumer self fuel w)) as [special Hinv].
  unfold handling. apply (at_most_one_filter _ _ special).
  intros i th Hi Hin. pose proof (Hinv i th Hi) as Hth.
  case_decide; [done|]. destruct Hth as [_ Hout]. congruence.
Qed.

(** The pool can tell overlapping invocations: with two consumers of the
    queue, both are inside the handler at once. *)
Lemma two_consumers_overlap :
  handling (system_run echo sample_coordinator 2 [0; 0; 0; 0; 1; 1; 1; 1]%nat two_consumers)
  = 2%nat.
Proof. vm_compute. reflexivity. Qed.

(** After [start], the processing thread does get inside the handler. *)
Lemma handler_is_reached :
  handling (system_run echo sample_coordinator 2
              [0; 0; 0; 0; 0; 0; 0; 0; 2; 2; 1; 1; 1; 1]%nat
              (boot sample_coordinator 2 alice_arriving))
  = 1%nat.
Proof. vm_compute. reflexivity. Qed.

(* ===================================================================== *)
(** ** The round trip *)
(* ===================================================================== *)

Lemma lookup_deliver_eq (q : fd) (data : bytes) (m : gmap fd socket_state) (st : socket_state) :
  m !! q = Some st → deliver (Some q) data m !! q = Some (set_rx (rx st ++ data) st).
Proof. intros Hq. simpl. rewrite Hq. apply lookup_insert_eq. Qed.

Lemma lookup_hang_up_eq (q : fd) (m : gmap fd socket_state) (st : socket_state) :
  m !! q = Some st → hang_up (Some q) m !! q = Some (set_rx_eof true st).
Proof. intros Hq. simpl. rewrite Hq. apply lookup_insert_eq. Qed.

Lemma exchange_run_app (handle_request : fd → address → bytes → result bytes)
    (before after : list party) (x : exchange) :
  exchange_run handle_request (before ++ after) x
  = exchange_run handle_request after (exchange_run handle_request before x).
Proof. apply foldl_app. Qed.

Section RoundTripSteps.

Variable c : Coordinator.t.
Variable n : nat.
Variable a : address.
Variable payload : bytes.
Hypothesis payload_fits : (length payload ≤ 1024)%nat.

Lemma payload_chunk : chunk 1024 payload = payload.
Proof. apply chunk_all. lia. Qed.

Lemma payload_unread : unread 1024 payload = [].
Proof. apply unread_none. lia. Qed.

Lemma round_trip_in_phase (k : Worker.t) :
  in_phase k c n a payload AtQuery AtGet (round_trip k c (S n) a payload).
Proof. by constructor. Qed.

Lemma c_sent_received (cph : coordinator_phase) : c_sent cph = true → c_received cph = true.
Proof. by destruct cph. Qed.

Lemma c_closed_sent (cph : coordinator_phase) : c_closed cph = true → c_sent cph = true.
Proof. by destruct cph. Qed.

(** Closing the goals about ranks. *)
Ltac ranks := simpl; split; [lia|intros; first [lia | by left | by right]].

(** A step of the worker: it moves on, unless it has returned or waits
    for a response that is not yet written. *)
Lemma worker_step (k : Worker.t) (wph : worker_phase) (cph : coordinator_phase)
    (x : exchange) :
  in_phase k c n a payload wph cph x →
  ∃ wph',
    in_phase k c n a payload wph' cph (exchange_step echo TheWorker x)
    ∧ (w_rank wph ≤ w_rank wph')%nat
    ∧ (w_rank wph' = w_rank wph → wph = AtReturn ∨ (wph = AtRecv ∧ c_sent cph = false)).
Proof.
  intros [Hw Hc H0 H1 Hq Ha Hrs Hrw]. destruct x as [wk co w]. simpl in *. subst wk co.
  destruct k as [host port flag]. destruct wph; unfold exchange_step; simpl worker_side;
    simpl coordinator_side; simpl network.
  - (* AtQuery *)
    destruct flag; cbn -[do_op].
    + exists AtSendLookup. split; [by constructor|ranks].
    + rewrite do_op_get_client_socket, Ha.
      exists AtSend. split; [by constructor|ranks].
  - (* AtSendLookup *)
    cbn -[do_op]. rewrite do_op_get_client_socket, Ha.
    exists AtSend. split; [by constructor|ranks].
  - (* AtSend *)
    cbn -[do_op]. rewrite (do_op_send_live echo w 0%nat _ payload H0 eq_refl eq_refl).
    exists AtWaiting. split; [|ranks].
    constructor; cbn [worker_side coordinator_side network]; try done;
      cbn [sockets set_sockets peer send_room tx worker_end_at accepted];
      rewrite ?firstn_all.
    + rewrite lookup_deliver_ne by done. by rewrite lookup_insert_eq.
    + erewrite lookup_deliver_eq; [|rewrite lookup_insert_ne by done; exact H1].
      unfold coordinator_end_at, set_rx. simpl.
      destruct (c_received cph) eqn:E; [by destruct (Hrs eq_refl)|done].
    + intros Hr. by destruct (Hrs Hr).
  - (* AtWaiting *)
    destruct flag; cbn -[do_op].
    + exists AtRecvLookup. split; [by constructor|ranks].
    + rewrite do_op_get_client_socket, Ha.
      exists AtRecv. split; [by constructor|ranks].
  - (* AtRecvLookup *)
    cbn -[do_op]. rewrite do_op_get_client_socket, Ha.
    exists AtRecv. split; [by constructor|ranks].
  - (* AtRecv *)
    destruct (c_sent cph) eqn:Hsent.
    + destruct (Hrs (c_sent_received _ Hsent)) as [_ Hne].
      assert (rx (worker_end_at payload AtRecv cph) = payload) as Hrx.
      { unfold worker_end_at. by rewrite Hsent. }
      cbn -[do_op].
      rewrite (do_op_recv_live echo w 0%nat _ 1024 H0 eq_refl eq_refl ltac:(lia)
                 ltac:(left; by rewrite Hrx)).
      rewrite Hrx, payload_chunk, payload_unread.
      destruct flag; cbn -[do_op].
      * exists AtReceived. split; [|ranks].
        constructor; simpl; try done.
        -- rewrite lookup_insert_eq. unfold worker_end_at, set_rx. simpl.
           by rewrite Hsent.
        -- by rewrite lookup_insert_ne.
      * exists AtReturn. split; [|ranks].
        constructor; simpl; try done.
        -- rewrite lookup_insert_eq. unfold worker_end_at, set_rx. simpl.
           by rewrite Hsent.
        -- by rewrite lookup_insert_ne.
    + assert (c_closed cph = false) as Hcl.
      { destruct (c_closed cph) eqn:E; [|done]. by rewrite (c_closed_sent _ E) in Hsent. }
      assert (do_op echo (SockRecv 0%nat 1024) w = None) as Hblocked.
      { simpl. rewrite (usable_live _ _ _ H0 eq_refl). unfold worker_end_at. simpl.
        by rewrite Hsent, Hcl. }
      cbn -[do_op]. rewrite Hblocked.
      exists AtRecv. split; [by constructor|]. simpl. split; [lia|]. intros _. by right.
  - (* AtReceived *)
    destruct flag; cbn -[do_op].
    + exists AtReturn. split; [by constructor|ranks].
    + exists AtReturn. split; [by constructor|ranks].
  - (* AtReturn *)
    cbn. exists AtReturn. split; [by constructor|ranks].
Qed.

(** The coordinator about to read: it reads the request once the worker has
    sent it, and waits until then; it waits for ever for an empty one. *)
Lemma coordinator_read_step (k : Worker.t) (wph : worker_phase) (x : exchange) :
  in_phase k c n a payload wph AtRead x →
  ∃ cph',
    in_phase k c n a payload wph cph' (exchange_step echo TheCoordinator x)
    ∧ (2 ≤ c_rank cph')%nat
    ∧ (c_rank cph' = 2%nat → w_sent wph = false ∨ payload = []).
Proof.
  intros [Hw Hc H0 H1 Hq Ha Hrs Hrw]. destruct x as [wk co w]. simpl in *. subst wk co.
  unfold exchange_step; simpl worker_side; simpl coordinator_side; simpl network.
  assert (payload = [] ∨ payload ≠ []) as Hp by (clear; destruct payload; [by left|by right]).
  destruct (w_sent wph) eqn:Hsent; [destruct Hp as [Hp|Hp]|].
  - (* an empty request was sent *)
    assert (do_op echo (SockRecv 1%nat 1024) w = None) as Hblocked.
    { simpl. rewrite (usable_live _ _ _ H1 eq_refl). unfold coordinator_end_at. simpl.
      by rewrite Hsent, Hp. }
    cbn -[do_op]. rewrite Hblocked.
    exists AtRead. split; [by constructor|]. simpl. split; [lia|]. intros _. by right.
  - (* the request is there *)
    assert (rx (coordinator_end_at payload wph AtRead) = payload) as Hrx.
    { unfold coordinator_end_at. by rewrite Hsent. }
    cbn -[do_op].
    rewrite (do_op_recv_live echo w 1%nat _ 1024 H1 eq_refl eq_refl ltac:(lia)
               ltac:(left; by rewrite Hrx)).
    rewrite Hrx, payload_chunk, payload_unread.
    exists AtHandle. split; [|simpl; split; [lia|intros; lia]].
    constructor; simpl; try done.
    + by rewrite lookup_insert_ne.
    + rewrite lookup_insert_eq. unfold coordinator_end_at, set_rx. simpl.
      by rewrite Hsent.
  - (* nothing was sent yet *)
    assert (do_op echo (SockRecv 1%nat 1024) w = None) as Hblocked.
    { simpl. rewrite (usable_live _ _ _ H1 eq_refl). unfold coordinator_end_at. simpl.
      by rewrite Hsent. }
    cbn -[do_op]. rewrite Hblocked.
    exists AtRead. split; [by constructor|]. simpl. split; [lia|]. intros _. by left.
Qed.

Lemma task_done_last (w : world) :
  request_queue w = queue_at a AtTaskDone →
  do_op echo QueueTaskDone w = Some (Ok tt, set_request_queue (queue_at a AtNext) w).
Proof. intros Hq. simpl. by rewrite Hq. Qed.

(** A step of the coordinator: it moves on, unless its first pass is over
    or it waits for a request that has not arrived. *)
Lemma coordinator_step (k : Worker.t) (wph : worker_phase) (cph : coordinator_phase)
    (x : exchange) :
  in_phase k c n a payload wph cph x →
  ∃ cph',
    in_phase k c n a payload wph cph' (exchange_step echo TheCoordinator x)
    ∧ (c_rank cph ≤ c_rank cph')%nat
    ∧ (c_rank cph' = c_rank cph →
       cph = AtNext ∨ (cph = AtRead ∧ (w_sent wph = false ∨ payload = []))).
Proof.
  intros Hin. destruct cph.
  - (* AtGet *)
    destruct Hin as [Hw Hc H0 H1 Hq Ha Hrs Hrw]. destruct x as [wk co w]. simpl in *. subst wk co.
    unfold exchange_step; simpl worker_side; simpl coordinator_side; simpl network.
    cbn -[do_op].
    rewrite (do_op_queue_get echo w (1%nat, a) []) by by rewrite Hq.
    rewrite Hq. destruct c as [host port backlog flag]. destruct flag; cbn -[do_op].
    + exists AtProcessing. split; [by constructor|ranks].
    + exists AtRead. split; [by constructor|ranks].
  - (* AtProcessing *)
    destruct (Coordinator.are_updates_displayed c) eqn:Hflag.
    + destruct Hin as [Hw Hc H0 H1 Hq Ha Hrs Hrw]. destruct x as [wk co w]. simpl in *. subst wk co.
      unfold exchange_step; simpl worker_side; simpl coordinator_side; simpl network.
      destruct c as [host port backlog flag]. simpl in Hflag. subst flag. cbn -[do_op].
      exists AtRead. split; [by constructor|ranks].
    + destruct (coordinator_read_step k wph x) as (cph' & Hin' & Hle & _).
      { destruct Hin as [Hw Hc H0 H1 Hq Ha Hrs Hrw]. constructor; try done.
        rewrite Hc. simpl. unfold Coordinator.display_update. by rewrite Hflag. }
      exists cph'. split; [done|]. simpl. split; [lia|]. intros; lia.
  - (* AtRead *)
    destruct (coordinator_read_step k wph x Hin) as (cph' & Hin' & Hle & Hstay).
    exists cph'. split; [done|]. simpl. split; [lia|]. intros E. right. split; [done|]. by apply Hstay.
  - (* AtHandle *)
    destruct Hin as [Hw Hc H0 H1 Hq Ha Hrs Hrw]. destruct x as [wk co w]. simpl in *. subst wk co.
    unfold exchange_step; simpl worker_side; simpl coordinator_side; simpl network.
    cbn. exists AtWrite. split; [by constructor|ranks].
  - (* AtWrite *)
    destruct Hin as [Hw Hc H0 H1 Hq Ha Hrs Hrw]. destruct x as [wk co w]. simpl in *. subst wk co.
    unfold exchange_step; simpl worker_side; simpl coordinator_side; simpl network.
    assert (w_received wph = false) as Hnr.
    { destruct (w_received wph) eqn:E; [|done]. by specialize (Hrw eq_refl). }
    cbn -[do_op]. rewrite (do_op_send_live echo w 1%nat _ payload H1 eq_refl eq_refl).
    exists AtClose. split; [|ranks].
    constructor; cbn [worker_side coordinator_side network]; try done;
      cbn [sockets set_sockets peer send_room tx coordinator_end_at accepted];
      rewrite ?firstn_all.
    + erewrite lookup_deliver_eq; [|rewrite lookup_insert_ne by done; exact H0].
      unfold worker_end_at, set_rx. simpl. by rewrite Hnr.
    + rewrite lookup_deliver_ne by done. rewrite lookup_insert_eq.
      unfold coordinator_end_at, set_tx. simpl. by destruct (w_sent wph).
  - (* AtClose *)
    destruct Hin as [Hw Hc H0 H1 Hq Ha Hrs Hrw]. destruct x as [wk co w]. simpl in *. subst wk co.
    unfold exchange_step; simpl worker_side; simpl coordinator_side; simpl network.
    cbn -[do_op]. rewrite (do_op_close_live echo w 1%nat _ H1).
    assert (∀ cph', c_rank cph' = 6%nat ∨ c_rank cph' = 7%nat →
              sockets (set_sockets
                (λ m, hang_up (peer (coordinator_end_at payload wph AtClose))
                        (<[1%nat:=set_closed true (coordinator_end_at payload wph AtClose)]> m)) w)
                !! 0%nat = Some (worker_end_at payload wph cph')
              ∧ sockets (set_sockets
                (λ m, hang_up (peer (coordinator_end_at payload wph AtClose))
                        (<[1%nat:=set_closed true (coordinator_end_at payload wph AtClose)]> m)) w)
                !! 1%nat = Some (coordinator_end_at payload wph cph')) as Hsockets.
    { intros cph' Hcph'. cbn [sockets set_sockets peer coordinator_end_at]. split.
      - erewrite lookup_hang_up_eq; [|rewrite lookup_insert_ne by done; exact H0].
        by destruct cph', Hcph'.
      - rewrite lookup_hang_up_ne by done. rewrite lookup_insert_eq.
        by destruct cph', Hcph'. }
    destruct c as [host port backlog flag]. destruct flag; cbn -[do_op].
    + exists AtClosed. split; [|ranks].
      destruct (Hsockets AtClosed) as [? ?]; [by left|]. by constructor.
    + exists AtTaskDone. split; [|ranks].
      destruct (Hsockets AtTaskDone) as [? ?]; [by right|]. by constructor.
  - (* AtClosed *)
    destruct Hin as [Hw Hc H0 H1 Hq Ha Hrs Hrw]. destruct x as [wk co w]. simpl in *. subst wk co.
    unfold exchange_step; simpl worker_side; simpl coordinator_side; simpl network.
    destruct c as [host port backlog flag]. destruct flag; cbn -[do_op].
    + exists AtTaskDone. split; [by constructor|ranks].
    + rewrite (task_done_last w Hq). cbn.
      exists AtNext. split; [by constructor|ranks].
  - (* AtTaskDone *)
    destruct Hin as [Hw Hc H0 H1 Hq Ha Hrs Hrw]. destruct x as [wk co w]. simpl in *. subst wk co.
    unfold exchange_step; simpl worker_side; simpl coordinator_side; simpl network.
    cbn -[do_op]. rewrite (task_done_last w Hq). cbn.
    exists AtNext. split; [by constructor|ranks].
  - (* AtNext *)
    exists AtNext. split; [|simpl; split; [lia|by left]].
    destruct Hin as [Hw Hc H0 H1 Hq Ha Hrs Hrw]. destruct x as [wk co w]. simpl in *. subst wk co.
    unfold exchange_step; simpl worker_side; simpl coordinator_side; simpl network.
    destruct n as [|n']; cbn -[do_op]; [by constructor|].
    rewrite (do_op_queue_get_empty echo w) by by rewrite Hq.
    by constructor.
Qed.

(** Every step of either side keeps the exchange in some pair of phases. *)
Lemma step_in_phase (k : Worker.t) (who : party) (wph : worker_phase)
    (cph : coordinator_phase) (x : exchange) :
  in_phase k c n a payload wph cph x →
  ∃ wph' cph', in_phase k c n a payload wph' cph' (exchange_step echo who x).
Proof.
  intros Hin. destruct who.
  - destruct (worker_step k wph cph x Hin) as (wph' & Hin' & _). by exists wph', cph.
  - destruct (coordinator_step k wph cph x Hin) as (cph' & Hin' & _). by exists wph, cph'.
Qed.

Lemma run_in_phase (k : Worker.t) (schedule : list party) (wph : worker_phase)
    (cph : coordinator_phase) (x : exchange) :
  in_phase k c n a payload wph cph x →
  ∃ wph' cph', in_phase k c n a payload wph' cph' (exchange_run echo schedule x).
Proof.
  revert wph cph x. induction schedule as [|who schedule IH]; intros wph cph x Hin.
  - by exists wph, cph.
  - destruct (step_in_phase k who wph cph x Hin) as (wph1 & cph1 & Hin1).
    exact (IH wph1 cph1 _ Hin1).
Qed.

Lemma w_rank_last (wph : worker_phase) : (7 ≤ w_rank wph)%nat → wph = AtReturn.
Proof. destruct wph; simpl; intros; first [done|lia]. Qed.

Lemma w_rank_bound (wph : worker_phase) : (w_rank wph ≤ 7)%nat.
Proof. destruct wph; simpl; lia. Qed.

Lemma c_rank_bound (cph : coordinator_phase) : (c_rank cph ≤ 8)%nat.
Proof. destruct cph; simpl; lia. Qed.

(** One turn of each side: the worker has returned, or one of the two has
    moved on. *)
Lemma turn_progress (k : Worker.t) (wph : worker_phase) (cph : coordinator_phase)
    (x : exchange) :
  payload ≠ [] →
  in_phase k c n a payload wph cph x →
  ∃ wph' cph',
    in_phase k c n a payload wph' cph'
      (exchange_step echo TheCoordinator (exchange_step echo TheWorker x))
    ∧ (w_rank wph ≤ w_rank wph')%nat
    ∧ (wph' = AtReturn ∨ (w_rank wph + c_rank cph < w_rank wph' + c_rank cph')%nat).
Proof.
  intros Hne Hin.
  destruct (worker_step k wph cph x Hin) as (wph1 & Hin1 & Hwle & Hwstay).
  destruct (coordinator_step k wph1 cph _ Hin1) as (cph1 & Hin2 & Hcle & Hcstay).
  exists wph1, cph1. split; [done|]. split; [done|].
  destruct (decide (w_rank wph1 = w_rank wph)) as [Hw|Hw]; [|right; lia].
  destruct (Hwstay Hw) as [->|[-> Hns]].
  { left. apply w_rank_last. simpl in Hw. lia. }
  destruct (decide (c_rank cph1 = c_rank cph)) as [Hc|Hc]; [|right; lia].
  assert (wph1 = AtRecv) as -> by (by destruct wph1).
  destruct (Hcstay Hc) as [->|[_ [?|?]]]; done.
Qed.

(** [j] turns of each side: the worker has returned, or [j] moves were made. *)
Lemma turns_progress (k : Worker.t) (j : nat) (wph : worker_phase)
    (cph : coordinator_phase) (x : exchange) :
  payload ≠ [] →
  in_phase k c n a payload wph cph x →
  ∃ wph' cph',
    in_phase k c n a payload wph' cph' (exchange_run echo (in_turn j) x)
    ∧ (w_rank wph ≤ w_rank wph')%nat
    ∧ (wph' = AtReturn ∨ (w_rank wph + c_rank cph + j ≤ w_rank wph' + c_rank cph')%nat).
Proof.
  intros Hne. revert wph cph x. induction j as [|j IH]; intros wph cph x Hin.
  - exists wph, cph. split; [done|]. split; [done|]. right. lia.
  - destruct (turn_progress k wph cph x Hne Hin) as (wph1 & cph1 & Hin1 & Hle1 & Hmove).
    destruct (IH wph1 cph1 _ Hin1) as (wph2 & cph2 & Hin2 & Hle2 & Hmoves).
    exists wph2, cph2. split; [exact Hin2|]. split; [lia|].
    destruct Hmoves as [?|Hmoves]; [by left|].
    destruct Hmove as [->|Hmove]; [|right; lia].
    left. apply w_rank_last. simpl in Hle2. lia.
Qed.

(** After sixteen turns of each side the worker has returned. *)
Lemma worker_returns_in_turn (k : Worker.t) (wph : worker_phase) (cph : coordinator_phase)
    (x : exchange) :
  payload ≠ [] →
  in_phase k c n a payload wph cph x →
  worker_side (exchange_run echo (in_turn 16) x) = Ret payload.
Proof.
  intros Hne Hin.
  destruct (turns_progress k 16 wph cph x Hne Hin) as (wph' & cph' & Hin' & _ & Hmoves).
  destruct Hin' as [Hw _ _ _ _ _ _ _]. rewrite Hw.
  destruct Hmoves as [->|Hmoves]; [done|].
  pose proof (w_rank_bound wph'). pose proof (c_rank_bound cph'). lia.
Qed.

(** Whatever the worker has returned, it is the payload. *)
Lemma worker_returns_payload_only (k : Worker.t) (wph : worker_phase) (response : bytes) :
  worker_prog k payload wph = Ret response → response = payload.
Proof. destruct k as [host port []], wph; cbn; congruence. Qed.

(** The worker has not returned before it has read the response. *)
Lemma worker_not_returned (k : Worker.t) (wph : worker_phase) (response : bytes) :
  w_received wph = false → worker_prog k payload wph ≠ Ret response.
Proof. destruct k as [host port []], wph; cbn; congruence. Qed.

End RoundTripSteps.

(** C9, as stated, fails for the empty payload, whose length is within the
    bound: [send(b'')] transmits nothing, so the coordinator waits in its
    [recv] for a request and the worker waits in its [recv] for a response.
    Under no schedule does [query_coordinator(b'')] return. *)
Lemma empty_payload_never_returns :
  ¬ ∃ (schedule : list party) (response : bytes),
      worker_side (exchange_run echo schedule
                     (round_trip sample_worker sample_coordinator 1 alice []))
      = Ret response.
Proof.
  intros (schedule & response & Hret).
  assert (length ([] : bytes) ≤ 1024)%nat as Hfits by (simpl; lia).
  destruct (run_in_phase sample_coordinator 0 alice [] Hfits sample_worker schedule
              AtQuery AtGet _ (round_trip_in_phase sample_coordinator 0 alice [] sample_worker))
    as (wph & cph & Hin).
  destruct Hin as [Hw _ _ _ _ _ Hrs Hrw]. rewrite Hw in Hret.
  apply worker_not_returned in Hret; [done|].
  destruct (w_received wph) eqn:E; [|done].
  by destruct (Hrs (c_sent_received _ (Hrw eq_refl))).
Qed.

(** C9, amended. Round trip: when the handler echoes its received payload,
    a worker's [query_coordinator payload], for any non-empty payload of
    length at most the 1024-byte bound, returns exactly that payload: after
    any schedule of the two sides, sixteen further turns of each side bring
    the worker's call to [Ret payload]; and under no schedule does the call
    return anything else. *)
Theorem round_trip_returns_payload (k : Worker.t) (c : Coordinator.t) (n : nat)
    (a : address) (payload : bytes) (schedule : list party) :
  payload ≠ [] →
  (length payload ≤ 1024)%nat →
  worker_side (exchange_run echo (schedule ++ in_turn 16) (round_trip k c (S n) a payload))
  = Ret payload
  ∧ ∀ response : bytes,
      worker_side (exchange_run echo schedule (round_trip k c (S n) a payload)) = Ret response →
      response = payload.
Proof.
  intros Hne Hfits.
  destruct (run_in_phase c n a payload Hfits k schedule AtQuery AtGet _
              (round_trip_in_phase c n a payload k)) as (wph & cph & Hin).
  split.
  - rewrite exchange_run_app.
    exact (worker_returns_in_turn c n a payload Hfits k wph cph _ Hne Hin).
  - intros response Hret. destruct Hin as [Hw _ _ _ _ _ _ _]. rewrite Hw in Hret.
    exact (worker_returns_payload_only payload k wph response Hret).
Qed.

(** The round trip of "hi", the coordinator scheduled first. *)
Lemma round_trip_returns_payload_witness :
  hi ≠ [] ∧ (length hi ≤ 1024)%nat
  ∧ worker_side (exchange_run echo ([TheCoordinator; TheCoordinator; TheWorker] ++ in_turn 16)
                   (round_trip sample_worker sample_coordinator 1 alice hi))
    = Ret hi.
Proof.
  assert (hi ≠ []) as Hne by discriminate.
  assert (length hi ≤ 1024)%nat as Hfits by (simpl; lia).
  split; [exact Hne|]. split; [exact Hfits|].
  exact (proj1 (round_trip_returns_payload sample_worker sample_coordinator 0 alice hi
                  [TheCoordinator; TheCoordinator; TheWorker] Hne Hfits)).
Defined.

(** The same round trip, run: the echo of "hi" comes back, the connection
    is closed and the entry is marked done. *)
Lemma sample_round_trip :
  let x := exchange_run echo (in_turn 16) (round_trip sample_worker sample_coordinator 1 alice hi) in
  worker_side x = Ret hi
  ∧ coordinator_side x = OutOfFuel
  ∧ request_queue (network x) = Queue.Make [] 0
  ∧ closed <$> sockets (network x) !! 1%nat = Some true.
Proof. vm_compute. done. Qed.

(* ===================================================================== *)
(** ** [Worker.query_coordinator] outside a connection and on a live one *)
(* ===================================================================== *)

(** Without a connection the [send] is a call on [None]. *)
Lemma query_on_none
    (handle_request : fd → address → bytes → result bytes) (self : Worker.t)
    (data : bytes) (w : world) :
  client_socket w = None →
  let r := exec handle_request (Worker.query_coordinator self data) w in
  result_of r = Raised (no_attribute "send")
  ∧ silence (world_of r) = silence w
  ∧ io_errors (trace_of r) = [].
Proof.
  intros Hcs. unfold Worker.query_coordinator, Worker.on_client_socket, Worker.display_update.
  destruct (Worker.are_updates_displayed self); cbn -[do_op];
    rewrite ?do_op_print; cbn -[do_op]; rewrite do_op_get_client_socket; cbn -[do_op];
    rewrite Hcs; cbn; done.
Qed.

(** X1. [query_coordinator] on a worker that holds no connection does not
    return [b'']: the [send] on [None] raises [AttributeError], which
    [except socket.error] does not catch.  The world is left as it was,
    apart from the first update printed. *)
Theorem query_without_connection_raises
    (handle_request : fd → address → bytes → result bytes) (self : Worker.t)
    (data : bytes) (w : world) :
  client_socket w = None →
  let r := exec handle_request (Worker.query_coordinator self data) w in
  result_of r = Raised (no_attribute "send")
  ∧ silence (world_of r) = silence w
  ∧ io_errors (trace_of r) = [].
Proof. apply query_on_none. Qed.

Lemma query_without_connection_raises_witness :
  client_socket empty_world = None
  ∧ result_of (exec echo (Worker.query_coordinator sample_worker hi) empty_world)
    = Raised (no_attribute "send").
Proof.
  split; [reflexivity|].
  apply (query_without_connection_raises echo sample_worker hi empty_world). reflexivity.
Defined.

(** When [start] has ended and its [close()], if it made the call, has
    answered, [self.client_socket] is [None] again. *)
Lemma start_resets_client_socket
    (handle_request : fd → address → bytes → result bytes) (self : Worker.t)
    (run_worker : prog unit) (w : world) :
  exited (exec handle_request (Worker.start self run_worker) w) →
  client_socket (world_of (exec handle_request (Worker.start self run_worker) w)) = None.
Proof.
  rewrite start_pieces, exec_try_finally, exec_try_except.
  destruct (exec handle_request (connect_and_run self run_worker) w) as [[[]|e| |] w1 tr1];
    unfold or_else, and_finally, exited;
    cbn [result_of world_of trace_of] in *; try done;
    try (destruct (is_socket_error e));
    cbn [result_of world_of trace_of] in *;
    try (pose proof (report_connection_error_run handle_request self e w1) as (R2 & C2 & S2);
         destruct (exec handle_request (report_connection_error self e) w1) as [r2 w2 tr2];
         cbn [result_of world_of trace_of] in *; subst r2;
         cbn [result_of world_of trace_of] in *);
    match goal with
    | |- context [exec _ (disconnect self) ?w3] =>
        pose proof (disconnect_run handle_request self w3) as (R3 & C3 & S3);
        destruct (exec handle_request (disconnect self) w3) as [r3 w4 tr3];
        cbn [result_of world_of trace_of] in *; subst r3
    end; done.
Qed.

(** X2. [query_coordinator] is of use only while [run_worker] runs: once
    [start] has returned, a query raises [AttributeError], for
    [self.client_socket] is [None] again. *)
Theorem query_after_start_raises
    (handle_request : fd → address → bytes → result bytes) (self : Worker.t)
    (run_worker : prog unit) (data : bytes) (w : world) :
  result_of (exec handle_request (Worker.start self run_worker) w) = Returned tt →
  result_of (exec handle_request (Worker.query_coordinator self data)
               (world_of (exec handle_request (Worker.start self run_worker) w)))
  = Raised (no_attribute "send").
Proof.
  intros Hret.
  apply (query_on_none handle_request self data).
  apply start_resets_client_socket. unfold exited. by rewrite Hret.
Qed.

Lemma query_after_start_raises_witness :
  result_of (exec echo (Worker.start sample_worker (send_once hi)) coordinator_up)
  = Returned tt
  ∧ result_of (exec echo (Worker.query_coordinator sample_worker hi)
                 (world_of (exec echo (Worker.start sample_worker (send_once hi))
                              coordinator_up)))
    = Raised (no_attribute "send").
Proof.
  assert (result_of (exec echo (Worker.start sample_worker (send_once hi)) coordinator_up)
          = Returned tt) as Hret by (vm_compute; reflexivity).
  split; [exact Hret|].
  exact (query_after_start_raises echo sample_worker (send_once hi) hi coordinator_up Hret).
Defined.

(** A query over a live connection on which a response is there to read,
    or whose other side has closed. *)
Lemma query_live
    (handle_request : fd → address → bytes → result bytes) (self : Worker.t)
    (data : bytes) (w : world) (s : fd) (st : socket_state) :
  client_socket w = Some s →
  sockets w !! s = Some st → closed st = false →
  send_fault st = None → recv_fault st = None → peer st ≠ Some s →
  rx st ≠ [] ∨ rx_eof st = true →
  let r := exec handle_request (Worker.query_coordinator self data) w in
  result_of r = Returned (chunk 1024 (rx st))
  ∧ io_errors (trace_of r) = []
  ∧ sockets (world_of r) !! s
    = Some (set_rx (unread 1024 (rx st))
              (set_tx (tx st ++ take (accepted (send_room st) data) data) st))
  ∧ client_socket (world_of r) = Some s.
Proof.
  intros Hcs Hs Hc Hsf Hrf Hp Hrx.
  unfold Worker.query_coordinator, Worker.on_client_socket, Worker.display_update.
  destruct (Worker.are_updates_displayed self); cbn -[do_op];
    rewrite ?do_op_print; cbn -[do_op]; rewrite do_op_get_client_socket; cbn -[do_op];
    rewrite Hcs; cbn -[do_op];
    (erewrite do_op_send_live; [|exact Hs|exact Hc|exact Hsf]); cbn -[do_op];
    rewrite ?do_op_print; cbn -[do_op]; rewrite do_op_get_client_socket; cbn -[do_op];
    rewrite Hcs; cbn -[do_op];
    (erewrite (do_op_recv_live _ _ s
                 (set_tx (tx st ++ take (accepted (send_room st) data) data) st) 1024);
     [|cbn; rewrite lookup_deliver_ne by done; by rewrite lookup_insert_eq
      |exact Hc|exact Hrf|lia|exact Hrx]);
    cbn; rewrite lookup_insert_eq; done.
Qed.

(** X3. A query over a live connection on which a response has arrived
    returns its first 1024 bytes and leaves the rest unread in the socket.
    What [send] returns is not looked at: the bytes of [data] the socket did
    not accept are not sent again. *)
Theorem query_reads_one_chunk
    (handle_request : fd → address → bytes → result bytes) (self : Worker.t)
    (data : bytes) (w : world) (s : fd) (st : socket_state) :
  client_socket w = Some s →
  sockets w !! s = Some st → closed st = false →
  send_fault st = None → recv_fault st = None → peer st ≠ Some s →
  rx st ≠ [] →
  let r := exec handle_request (Worker.query_coordinator self data) w in
  result_of r = Returned (take 1024 (rx st))
  ∧ (length (take 1024 (rx st)) ≤ 1024)%nat
  ∧ ∃ st', sockets (world_of r) !! s = Some st'
           ∧ rx st' = drop 1024 (rx st)
           ∧ tx st' = tx st ++ take (accepted (send_room st) data) data
           ∧ closed st' = false.
Proof.
  intros Hcs Hs Hc Hsf Hrf Hp Hrx.
  destruct (query_live handle_request self data w s st Hcs Hs Hc Hsf Hrf Hp (or_introl Hrx))
    as (R & _ & S1 & _).
  split; [exact R|]. split; [rewrite length_take; lia|].
  eexists. split; [exact S1|]. split_and!; [reflexivity|reflexivity|exact Hc].
Qed.

Lemma query_reads_one_chunk_witness :
  let r := exec echo (Worker.query_coordinator sample_worker yo) (worker_with hi false) in
  result_of r = Returned hi
  ∧ tx <$> sockets (world_of r) !! 0%nat = Some yo.
Proof.
  assert (hi ≠ []) as Hne by discriminate.
  destruct (query_reads_one_chunk echo sample_worker yo (worker_with hi false) 0%nat
              (SocketState false hi false [] None None None None None)
              eq_refl eq_refl eq_refl eq_refl eq_refl ltac:(discriminate) Hne)
    as (R & _).
  split; [exact R|reflexivity].
Defined.

(** X4. An empty result does not tell an error: when the other side has
    closed the connection and nothing is left to read, a query returns
    [b''] although neither its [send] nor its [recv] raised. *)
Theorem query_returns_empty_at_end_of_stream
    (handle_request : fd → address → bytes → result bytes) (self : Worker.t)
    (data : bytes) (w : world) (s : fd) (st : socket_state) :
  client_socket w = Some s →
  sockets w !! s = Some st → closed st = false →
  send_fault st = None → recv_fault st = None → peer st ≠ Some s →
  rx st = [] → rx_eof st = true →
  let r := exec handle_request (Worker.query_coordinator self data) w in
  result_of r = Returned [] ∧ io_errors (trace_of r) = [].
Proof.
  intros Hcs Hs Hc Hsf Hrf Hp Hrx Heof.
  destruct (query_live handle_request self data w s st Hcs Hs Hc Hsf Hrf Hp (or_intror Heof))
    as (R & E & _).
  by rewrite Hrx in R.
Qed.

Lemma query_returns_empty_at_end_of_stream_witness :
  let r := exec echo (Worker.query_coordinator sample_worker hi) (worker_with [] true) in
  result_of r = Returned [] ∧ io_errors (trace_of r) = [].
Proof.
  by apply (query_returns_empty_at_end_of_stream echo sample_worker hi (worker_with [] true)
              0%nat (SocketState false [] true [] None None None None None)).
Defined.

(** What one [recv(1024)] gives is at most 1024 bytes long. *)
Lemma do_op_recv_bound
    (handle_request : fd → address → bytes → result bytes) (s : fd) (w w' : world)
    (data : bytes) :
  do_op handle_request (SockRecv s 1024) w = Some (Ok data, w') → (length data ≤ 1024)%nat.
Proof.
  simpl. repeat case_match; intros [= <- _]; simpl; try lia.
  unfold chunk. rewrite length_take. lia.
Qed.

(** X5. Whatever the world, a result of [query_coordinator] is at most 1024
    bytes long. *)
Theorem query_result_at_most_1024_bytes
    (handle_request : fd → address → bytes → result bytes) (self : Worker.t)
    (data : bytes) (w : world) (response : bytes) :
  result_of (exec handle_request (Worker.query_coordinator self data) w) = Returned response →
  (length response ≤ 1024)%nat.
Proof.
  unfold Worker.query_coordinator, Worker.on_client_socket, Worker.display_update.
  destruct (Worker.are_updates_displayed self); cbn -[do_op];
    repeat answer; rewrite ?do_op_print; cbn;
    try (destruct (is_socket_error _)); cbn;
    intros [= <-]; simpl; try lia;
    by eapply do_op_recv_bound.
Qed.

Lemma query_result_at_most_1024_bytes_witness :
  result_of (exec echo (Worker.query_coordinator sample_worker yo) (worker_with hi false))
  = Returned hi
  ∧ (length hi ≤ 1024)%nat.
Proof.
  assert (result_of (exec echo (Worker.query_coordinator sample_worker yo)
                       (worker_with hi false)) = Returned hi) as R by reflexivity.
  split; [exact R|].
  exact (query_result_at_most_1024_bytes echo sample_worker yo (worker_with hi false) hi R).
Defined.

(* ===================================================================== *)
(** ** What a method never does *)
(* ===================================================================== *)

(** The calls of a run are calls of the program. *)
Lemma exec_calls (handle_request : fd → address → bytes → result bytes)
    (P : ∀ X : Type, op X → Prop) {A : Type} (p : prog A) (w : world) :
  all_ops P p →
  Forall (λ ev, match ev with @Event X o _ => P X o end)
         (trace_of (exec handle_request p w)).
Proof.
  intros Hp. revert w. induction Hp as [a|e| |X o k Ho Hk IH]; intros w; simpl; try done.
  destruct (do_op handle_request o w) as [[x w']|]; simpl; [|done].
  constructor; [done|]. apply IH.
Qed.

Lemma closes_none (tr : list event) :
  Forall (λ ev, match ev with @Event X o _ => is_sock_close o = false end) tr →
  closes tr = [].
Proof.
  induction 1 as [|[X o x] tr Ho _ IH]; [done|].
  change (Event o x :: tr) with ([Event o x] ++ tr).
  rewrite closes_app, IH. by destruct o.
Qed.

(** Only [Thread(...).start()] starts a thread. *)
Lemma do_op_threads (handle_request : fd → address → bytes → result bytes)
    {X : Type} (o : op X) (w w' : world) (x : X) :
  is_thread_start o = false → do_op handle_request o w = Some (x, w') →
  threads w' = threads w.
Proof.
  intros Hq H. destruct o; simpl in *; try done;
    repeat case_match; by simplify_eq.
Qed.

Lemma is_housekeeping_false {X : Type} (o : op X) :
  is_housekeeping o = false →
  is_sock_new o = false ∧ is_sock_close o = false ∧ is_assignment o = false
  ∧ is_queue_op o = false ∧ is_thread_start o = false.
Proof. by destruct o. Qed.

(** A program without housekeeping calls leaves the sockets open or closed
    as they were, the queue, the threads and [self.client_socket]. *)
Lemma no_housekeeping_frame (handle_request : fd → address → bytes → result bytes)
    {A : Type} (p : prog A) (w : world) :
  all_ops (λ X (o : op X), is_housekeeping o = false) p →
  let r := exec handle_request p w in
  closes (trace_of r) = []
  ∧ client_socket (world_of r) = client_socket w
  ∧ socket_status (world_of r) = socket_status w
  ∧ request_queue (world_of r) = request_queue w
  ∧ threads (world_of r) = threads w.
Proof.
  intros Hp. split.
  - apply closes_none.
    eapply Forall_impl; [exact (exec_calls handle_request _ p w Hp)|].
    intros [X o x] Ho. by apply is_housekeeping_false in Ho as (_ & ? & _).
  - apply (exec_preserves handle_request
             (λ X (o : op X), is_housekeeping o = false)
             (λ w', client_socket w' = client_socket w
                    ∧ socket_status w' = socket_status w
                    ∧ request_queue w' = request_queue w
                    ∧ threads w' = threads w)); [|exact Hp|done].
    clear. intros X o w1 x w2 Ho Hop (C & S1 & Q & T).
    apply is_housekeeping_false in Ho as (Hn & Hc & Ha & Hq & Ht).
    rewrite (do_op_client_socket _ _ _ _ _ Ha Hop), (do_op_socket_status _ _ _ _ _ Hn Hc Hop),
      (do_op_request_queue _ _ _ _ _ Hq Hop), (do_op_threads _ _ _ _ _ Ht Hop).
    done.
Qed.

Lemma query_coordinator_no_housekeeping (self : Worker.t) (data : bytes) :
  all_ops (λ X (o : op X), is_housekeeping o = false) (Worker.query_coordinator self data).
Proof.
  unfold Worker.query_coordinator, Worker.on_client_socket, Worker.display_update.
  destruct (Worker.are_updates_displayed self); cbn;
    repeat first
      [ apply all_ops_ret
      | apply all_ops_raise
      | apply all_ops_vis; [done|intros x; try destruct x; cbn]
      | match goal with |- context [is_socket_error ?e] => destruct (is_socket_error e); cbn end ].
Qed.

(** X6. However a query ends, also by an error, [query_coordinator] has
    closed no socket, has left [self.client_socket] assigned as it was, and
    has made no socket, touched no queue and started no thread: a failed
    query is followed by no cleanup and by no new connection. *)
Theorem query_leaves_connection_as_it_is
    (handle_request : fd → address → bytes → result bytes) (self : Worker.t)
    (data : bytes) (w : world) :
  let r := exec handle_request (Worker.query_coordinator self data) w in
  closes (trace_of r) = []
  ∧ client_socket (world_of r) = client_socket w
  ∧ socket_status (world_of r) = socket_status w
  ∧ request_queue (world_of r) = request_queue w
  ∧ threads (world_of r) = threads w.
Proof. apply no_housekeeping_frame, query_coordinator_no_housekeeping. Qed.

(* ===================================================================== *)
(** ** How [Worker.start] ends *)
(* ===================================================================== *)


(** With a port that is no port, [connect] raises [OverflowError] before it
    looks for the coordinator; it is no socket error, so it leaves [start]. *)
Lemma start_port_out_of_range
    (handle_request : fd → address → bytes → result bytes) (self : Worker.t)
    (run_worker : prog unit) (w : world) :
  socket_fault w = None →
  port_in_range (Worker.port self) = false →
  result_of (exec handle_request (Worker.start self run_worker) w)
  = Raised (OverflowError "connect(): port must be 0-65535.").
Proof.
  intros Hf Hport. rewrite start_ends_as_try_block.
  unfold connect_and_run, Worker.on_client_socket. cbn -[port_in_range].
  rewrite Hf. cbn -[port_in_range]. by rewrite Hport.
Qed.

(** X8. With a coordinator listening, [start] ends as [run_worker] ends,
    but for one case: a socket error that [run_worker] raises, whatever its
    cause, is caught and [start] returns.  Every other exception of
    [run_worker] leaves [start].  (When the port is outside 0..65535,
    [run_worker] is not reached: [connect] raises [OverflowError], which
    leaves [start].) *)
Theorem start_ends_as_run_worker
    (handle_request : fd → address → bytes → result bytes) (self : Worker.t)
    (run_worker : prog unit) (w : world) :
  socket_fault w = None →
  (Worker.host self, Worker.port self) ∈ listening w →
  result_of (exec handle_request (Worker.start self run_worker) w)
  = if port_in_range (Worker.port self)
    then start_outcome (result_of (exec handle_request run_worker (worker_connected self w)))
    else Raised (OverflowError "connect(): port must be 0-65535.").
Proof.
  intros Hf Hl. destruct (port_in_range (Worker.port self)) eqn:Hport.
  - by rewrite start_ends_as_try_block, connect_and_run_connected.
  - by apply start_port_out_of_range.
Qed.

Lemma start_ends_as_run_worker_witness :
  result_of (exec echo (Worker.start sample_worker (Raise (OSError "Broken pipe")))
               coordinator_up)
  = Returned tt.
Proof.
  apply (start_ends_as_run_worker echo sample_worker (Raise (OSError "Broken pipe"))
           coordinator_up); [reflexivity|].
  vm_compute. reflexivity.
Defined.

(* ===================================================================== *)
(** ** A pass of [process_requests] that does not go well *)
(* ===================================================================== *)

Section Unserved.

Variable handle_request : fd → address → bytes → result bytes.
Variable self : Coordinator.t.

(** The [try] block on a live connection whose handler raises. *)
Lemma try_block_handler_raises (w : world) (s : fd) (a : address) (st : socket_state)
    (e : exn) :
  sockets w !! s = Some st → closed st = false → recv_fault st = None →
  rx st ≠ [] ∨ rx_eof st = true →
  handle_request s a (chunk 1024 (rx st)) = Err e →
  ∃ w',
    exec handle_request (try_block s a) w
    = Run (Raised e) w'
        [Event (SockRecv s 1024) (Ok (chunk 1024 (rx st)));
         Event (Handle s a (chunk 1024 (rx st))) (Err e)]
    ∧ request_queue w' = request_queue w
    ∧ sockets w' !! s = Some (set_rx (unread 1024 (rx st)) st)
    ∧ (∀ i, i ≠ s → sockets w' !! i = sockets w !! i).
Proof.
  intros Hs Hc Hrf Hrx Hh. unfold try_block.
  cbn [exec mbind prog_bind bind sock_recv call_raising].
  rewrite (do_op_recv_live _ _ _ _ 1024 Hs Hc Hrf ltac:(lia) Hrx).
  cbn [exec mbind prog_bind bind Coordinator.handle_request call_raising do_op].
  rewrite Hh. eexists; split; [reflexivity|]. cbn. split; [done|]. split.
  - by rewrite lookup_insert_eq.
  - intros i Hi. by rewrite lookup_insert_ne.
Qed.

(** A pass over a request whose handler raises. *)
Lemma process_request_handler_raises (w : world) (s : fd) (a : address)
    (rest : list request) (n : nat) (st : socket_state) (e : exn) :
  Queue.items (request_queue w) = (s, a) :: rest →
  Queue.unfinished_tasks (request_queue w) = S n →
  sockets w !! s = Some st → closed st = false → recv_fault st = None →
  peer st ≠ Some s →
  rx st ≠ [] ∨ rx_eof st = true →
  handle_request s a (chunk 1024 (rx st)) = Err e →
  let r := exec handle_request (Coordinator.process_request self) w in
  result_of r = Raised e
  ∧ io_trace (trace_of r)
    = [Event QueueGet (s, a);
       Event (SockRecv s 1024) (Ok (chunk 1024 (rx st)));
       Event (Handle s a (chunk 1024 (rx st))) (Err e);
       Event (SockClose s) tt;
       Event QueueTaskDone (Ok tt)]
  ∧ request_queue (world_of r) = Queue.Make rest n
  ∧ sockets (world_of r) !! s = Some (set_closed true (set_rx (unread 1024 (rx st)) st)).
Proof.
  intros Hq Hn Hs Hc Hrf Hp Hrx Hh.
  rewrite (exec_process_request _ _ _ _ _ _ Hq).
  change (?p ;; ?q) with (p ≫= λ _, q). rewrite exec_bind, exec_display_update.
  destruct (Coordinator.are_updates_displayed self);
    unfold and_then; cbn [result_of world_of trace_of]; rewrite exec_try_finally;
    match goal with
    | |- context [exec _ (try_block s a) ?w2] =>
        destruct (try_block_handler_raises w2 s a st e Hs Hc Hrf Hrx Hh)
          as (w3 & -> & Q3 & S3 & O3)
    end;
    unfold and_finally; cbn [result_of world_of trace_of];
    (destruct (finally_block_closes handle_request self w3 s a _ n S3 Hp)
       as (w4 & tr4 & -> & T4 & Q4 & S4 & O4);
     [by rewrite Q3|]);
    cbn [result_of world_of trace_of after_event];
    (split; [done|]); (split; [by rewrite ?app_comm_cons, !io_trace_app, T4|]);
    (split; [by rewrite Q4, Q3|]); exact S4.
Qed.

End Unserved.

(** X9. An exception of the handler is not answered and not contained: the
    request has been read, nothing is written to its connection, the
    connection is closed and the entry marked done, and the exception
    leaves [process_requests], so that the entries behind it stay in the
    queue. *)
Theorem handler_error_ends_processing_loop
    (handle_request : fd → address → bytes → result bytes) (self : Coordinator.t)
    (w : world) (s : fd) (a : address) (rest : list request) (st : socket_state)
    (e : exn) (fuel : nat) :
  Queue.items (request_queue w) = (s, a) :: rest →
  Queue.wf (request_queue w) →
  sockets w !! s = Some st → closed st = false → recv_fault st = None →
  peer st ≠ Some s →
  rx st ≠ [] ∨ rx_eof st = true →
  handle_request s a (take 1024 (rx st)) = Err e →
  let r := exec handle_request (Coordinator.process_requests self (S fuel)) w in
  result_of r = Raised e
  ∧ io_trace (trace_of r)
    = [Event QueueGet (s, a);
       Event (SockRecv s 1024) (Ok (take 1024 (rx st)));
       Event (Handle s a (take 1024 (rx st))) (Err e);
       Event (SockClose s) tt;
       Event QueueTaskDone (Ok tt)]
  ∧ Queue.items (request_queue (world_of r)) = rest
  ∧ ∃ st', sockets (world_of r) !! s = Some st'
           ∧ tx st' = tx st ∧ closed st' = true.
Proof.
  intros Hq Hwf Hs Hc Hrf Hp Hrx Hh. cbv zeta.
  unfold Queue.wf in Hwf. rewrite Hq in Hwf. simpl in Hwf.
  destruct (Queue.unfinished_tasks (request_queue w)) as [|n] eqn:Hn; [lia|].
  destruct (process_request_handler_raises handle_request self w s a rest n st e
              Hq Hn Hs Hc Hrf Hp Hrx Hh) as (R & T & Q & S1).
  rewrite (loop_ends_when_a_pass_raises _ _ _ _ _ R).
  split; [exact R|]. split; [exact T|]. split; [by rewrite Q|].
  eexists. split; [exact S1|]. done.
Qed.

Lemma handler_error_ends_processing_loop_witness :
  let r := exec refuse (Coordinator.process_requests sample_coordinator 3)
             (serving [(5%nat, client_with hi); (6%nat, client_with yo)]
                      [(5%nat, alice); (6%nat, bob)]) in
  result_of r = Raised (Exception "refused")
  ∧ Queue.items (request_queue (world_of r)) = [(6%nat, bob)].
Proof.
  destruct (handler_error_ends_processing_loop refuse sample_coordinator
              (serving [(5%nat, client_with hi); (6%nat, client_with yo)]
                       [(5%nat, alice); (6%nat, bob)])
              5%nat alice [(6%nat, bob)] (client_with hi) (Exception "refused") 2)
    as (R & _ & Q & _).
  - reflexivity.
  - unfold Queue.wf. simpl. lia.
  - reflexivity.
  - reflexivity.
  - reflexivity.
  - discriminate.
  - left. discriminate.
  - reflexivity.
  - split; [exact R|exact Q].
Defined.

(** X10. What [send] returns is not looked at.  When the connection accepts
    only the first [room] bytes of the response, the pass goes on as if the
    response were sent: there is one [send] call and no second one, the
    rest of the response is never written, the connection is closed and the
    entry is marked done. *)
Theorem short_send_is_not_completed
    (handle_request : fd → address → bytes → result bytes) (self : Coordinator.t)
    (w : world) (s : fd) (a : address) (rest : list request)
    (st : socket_state) (response : bytes) (room : nat) :
  Queue.items (request_queue w) = (s, a) :: rest →
  Queue.wf (request_queue w) →
  sockets w !! s = Some st → closed st = false →
  recv_fault st = None → send_fault st = None → peer st ≠ Some s →
  rx st ≠ [] ∨ rx_eof st = true →
  handle_request s a (take 1024 (rx st)) = Ok response →
  send_room st = Some room → (room < length response)%nat →
  let r := exec handle_request (Coordinator.process_request self) w in
  result_of r = Returned tt
  ∧ io_trace (trace_of r)
    = [Event QueueGet (s, a);
       Event (SockRecv s 1024) (Ok (take 1024 (rx st)));
       Event (Handle s a (take 1024 (rx st))) (Ok response);
       Event (SockSend s response) (Ok (Z.of_nat room));
       Event (SockClose s) tt;
       Event QueueTaskDone (Ok tt)]
  ∧ ∃ st', sockets (world_of r) !! s = Some st'
           ∧ tx st' = tx st ++ take room response
           ∧ (length (tx st') < length (tx st ++ response))%nat
           ∧ closed st' = true.
Proof.
  intros Hq Hwf Hs Hc Hrf Hsf Hp Hrx Hh Hroom Hshort. cbv zeta.
  unfold Queue.wf in Hwf. rewrite Hq in Hwf. simpl in Hwf.
  destruct (Queue.unfinished_tasks (request_queue w)) as [|n] eqn:Hn; [lia|].
  destruct (process_request_served handle_request self w s a rest n st response
              Hq Hn Hs Hc Hrf Hsf Hp Hrx Hh) as (R & T & Q & S1 & _).
  assert (accepted (send_room st) response = room) as Hacc.
  { rewrite Hroom. simpl. lia. }
  rewrite Hacc in T.
  split; [exact R|]. split; [exact T|].
  eexists. split; [exact S1|]. unfold served. simpl. rewrite Hacc.
  split_and!; [done| |done].
  rewrite !length_app, length_take. lia.
Qed.

Lemma short_send_is_not_completed_witness :
  let r := exec echo (Coordinator.process_request sample_coordinator)
             (serving [(5%nat, slow_client hi 1)] [(5%nat, alice)]) in
  result_of r = Returned tt
  ∧ tx <$> sockets (world_of r) !! 5%nat = Some [Byte.x68].
Proof.
  cbv zeta.
  destruct (short_send_is_not_completed echo sample_coordinator
              (serving [(5%nat, slow_client hi 1)] [(5%nat, alice)])
              5%nat alice [] (slow_client hi 1) hi 1) as (R & _).
  - reflexivity.
  - unfold Queue.wf. simpl. lia.
  - reflexivity.
  - reflexivity.
  - reflexivity.
  - reflexivity.
  - discriminate.
  - left. discriminate.
  - reflexivity.
  - reflexivity.
  - simpl. lia.
  - split; [exact R|reflexivity].
Defined.

(* ===================================================================== *)
(** ** The whole loop: no connection is left open behind *)
(* ===================================================================== *)

Section LoopCloses.

Variable handle_request : fd → address → bytes → result bytes.
Variable self : Coordinator.t.

(** The [try] block does not use up the unrolling of a loop. *)
Lemma try_block_not_exhausted (s : fd) (a : address) (w : world) :
  result_of (exec handle_request (try_block s a) w) ≠ Exhausted.
Proof.
  unfold try_block. cbn -[do_op].
  destruct (do_op handle_request (SockRecv s 1024) w) as [[[data|e] w1]|]; [| |done];
    cbn -[do_op]; [|done].
  destruct (do_op handle_request (Handle s a data) w1) as [[[response|e] w2]|]; [| |done];
    cbn -[do_op]; [|done].
  by destruct (do_op handle_request (SockSend s response) w2) as [[[n|e] w3]|].
Qed.

(** A pass that waits in its [recv] has taken its entry and closed
    nothing. *)
Lemma pass_waiting (w : world) (s : fd) (a : address) (rest : list request) :
  Queue.items (request_queue w) = (s, a) :: rest →
  Queue.wf (request_queue w) →
  let r := exec handle_request (Coordinator.process_request self) w in
  result_of r ≠ Exhausted
  ∧ (result_of r = Blocked →
     dequeued (trace_of r) = [(s, a)] ∧ closes (trace_of r) = []
     ∧ task_dones (trace_of r) = 0%nat).
Proof.
  intros Hq Hwf. cbv zeta. rewrite (exec_process_request _ _ _ _ _ _ Hq).
  unfold Queue.wf in *. rewrite Hq in Hwf. simpl in Hwf.
  destruct (Queue.unfinished_tasks (request_queue w)) as [|n] eqn:Hn; [lia|].
  change (?p ;; ?q) with (p ≫= λ _, q).
  rewrite exec_bind, exec_display_update.
  destruct (Coordinator.are_updates_displayed self);
    unfold and_then; cbn [result_of world_of trace_of];
    rewrite exec_try_finally;
    match goal with
    | |- context [exec _ (try_block s a) ?w2] =>
        pose proof (try_block_frame handle_request s a w2) as (Q & St & C & T & D);
        pose proof (try_block_not_exhausted s a w2) as NE;
        destruct (exec handle_request (try_block s a) w2) as [[u|e| |] w3 tr3]
    end;
    unfold and_finally, after_event;
    cbn [result_of world_of trace_of] in *; try done;
    try (pose proof (finally_block_run handle_request self s a w3 n) as F;
         rewrite Q in F; specialize (F eq_refl); cbv zeta in F;
         destruct F as (R & _);
         destruct (exec handle_request (finally_block self s a) w3) as [rf w4 tr4];
         cbn [result_of world_of trace_of] in *; subst rf; done);
    (split; [done|]); intros _;
    rewrite ?app_comm_cons, ?dequeued_app, ?closes_app, ?task_dones_app, ?C, ?T, ?D; done.
Qed.

End LoopCloses.

(** X11. The processing loop leaves no connection behind.  However long it
    runs, it never returns; whenever it is not waiting, every entry it has
    taken from the queue has had its connection closed, in the order taken,
    and has been marked done; and when it waits, at most the connection of
    the entry taken last is not closed yet. *)
Theorem loop_closes_every_connection_it_takes
    (handle_request : fd → address → bytes → result bytes) (self : Coordinator.t)
    (fuel : nat) (w : world) :
  Queue.wf (request_queue w) →
  let r := exec handle_request (Coordinator.process_requests self fuel) w in
  (∀ u, result_of r ≠ Returned u)
  ∧ (result_of r ≠ Blocked →
     closes (trace_of r) = (dequeued (trace_of r)).*1
     ∧ task_dones (trace_of r) = length (dequeued (trace_of r)))
  ∧ (result_of r = Blocked →
     ∃ waiting, (dequeued (trace_of r)).*1 = closes (trace_of r) ++ waiting
                ∧ (length waiting ≤ 1)%nat).
Proof.
  revert w. induction fuel as [|fuel IH]; intros w Hwf; [by split_and!|].
  cbv zeta. rewrite exec_process_requests_S.
  destruct (Queue.items (request_queue w)) as [|[s a] rest] eqn:Hq.
  { rewrite (exec_process_request_empty _ _ _ Hq). unfold and_then. cbn.
    split_and!; [done|congruence|]. intros _. exists []. split; [done|simpl; lia]. }
  pose proof (pass_closes_and_marks_done handle_request self w s a rest Hq Hwf) as Hdone.
  pose proof (pass_waiting handle_request self w s a rest Hq Hwf) as [Hne Hwait].
  cbv zeta in Hdone, Hne, Hwait. unfold exited in Hdone.
  destruct (exec handle_request (Coordinator.process_request self) w) as [[[]|e| |] w1 tr1];
    unfold and_then; cbn [result_of world_of trace_of] in *.
  - destruct (Hdone I) as (D & C & T & _ & _ & _ & Hwf1).
    destruct (IH w1 Hwf1) as (N & E & B). cbv zeta in N, E, B.
    rewrite dequeued_app, closes_app, task_dones_app, D, C, T, fmap_app, length_app.
    change ([(s, a)].*1) with [s].
    split_and!; [done| |].
    + intros Hnb. destruct (E Hnb) as [-> ->]. done.
    + intros Hb. destruct (B Hb) as (waiting & -> & Hlen). by exists waiting.
  - destruct (Hdone I) as (D & C & T & _). rewrite D, C, T.
    split_and!; [done|done|done].
  - destruct (Hwait eq_refl) as (D & C & T). rewrite D, C.
    split_and!; [done|congruence|]. intros _. exists [s]. split; [done|simpl; lia].
  - done.
Qed.

Lemma loop_closes_every_connection_it_takes_witness :
  let r := exec echo (Coordinator.process_requests sample_coordinator 5) alice_reset_then_bob in
  Queue.wf (request_queue alice_reset_then_bob)
  ∧ closes (trace_of r) = [5%nat]
  ∧ (dequeued (trace_of r)).*1 = [5%nat].
Proof.
  assert (Queue.wf (request_queue alice_reset_then_bob)) as Hwf
    by (unfold Queue.wf; simpl; lia).
  destruct (loop_closes_every_connection_it_takes echo sample_coordinator 5
              alice_reset_then_bob Hwf) as (_ & E & _).
  split; [exact Hwf|]. destruct E as [E _]; [discriminate|].
  split; [|rewrite <- E]; reflexivity.
Defined.

(* ===================================================================== *)
(** ** What [Coordinator.start] itself does, and what it leaves to its threads *)
(* ===================================================================== *)

Section ServerCalls.

Variable handle_request : fd → address → bytes → result bytes.
Variable self : Coordinator.t.

Lemma accept_loop_accept_calls (s : fd) (fuel : nat) :
  all_ops (λ X (o : op X), is_accept_call o = true) (Coordinator.accept_loop self s fuel).
Proof.
  induction fuel as [|fuel IH]; [constructor|].
  change (Coordinator.accept_loop self s (S fuel))
    with (Coordinator.accept_one self s ≫= λ _, Coordinator.accept_loop self s fuel).
  apply all_ops_bind; [|done].
  unfold Coordinator.accept_one, Coordinator.display_update, sock_accept, print, thread_start.
  every_call.
Qed.

Lemma all_ops_impl (P Q : ∀ X : Type, op X → Prop) {A : Type} (p : prog A) :
  (∀ X (o : op X), P X o → Q X o) → all_ops P p → all_ops Q p.
Proof. intros HPQ Hp. induction Hp; constructor; auto. Qed.

Lemma start_server_calls (fuel : nat) :
  all_ops (λ X (o : op X), is_server_call o = true) (Coordinator.start self fuel).
Proof.
  unfold Coordinator.start, Coordinator.display_update, socket_socket, sock_bind,
    sock_listen, print, thread_start.
  repeat first
    [ apply (all_ops_impl (λ X (o : op X), is_accept_call o = true));
        [intros X o; by destruct o|apply accept_loop_accept_calls]
    | apply all_ops_bind
    | apply all_ops_call; done
    | apply all_ops_call_raising; done
    | apply all_ops_ret
    | progress intros
    | match goal with |- context [if ?b then _ else _] => destruct b end ].
Qed.

(** A call of the accept loop changes no socket. *)
Lemma do_op_accept_call {X : Type} (o : op X) (w w' : world) (x : X) :
  is_accept_call o = true → do_op handle_request o w = Some (x, w') →
  sockets w' = sockets w.
Proof.
  intros Ho H. destruct o; simpl in *; try done;
    repeat case_match; by simplify_eq.
Qed.

Lemma accept_loop_sockets (s : fd) (fuel : nat) (w : world) :
  sockets (world_of (exec handle_request (Coordinator.accept_loop self s fuel) w)) = sockets w.
Proof.
  apply (exec_preserves handle_request
           (λ X (o : op X), is_accept_call o = true)
           (λ w', sockets w' = sockets w)); [|apply accept_loop_accept_calls|done].
  clear. intros X o w1 x w2 Ho Hop Hw.
  by rewrite (do_op_accept_call o w1 w2 x Ho Hop).
Qed.

(** [start] changes no socket but the one it makes. *)
Lemma start_keeps_sockets (fuel : nat) (w : world) (i : fd) :
  i ≠ fresh (dom (sockets w)) →
  sockets (world_of (exec handle_request (Coordinator.start self fuel) w)) !! i
  = sockets w !! i.
Proof.
  intros Hi. unfold Coordinator.start.
  cbn -[do_op Coordinator.accept_loop Coordinator.display_update].
  destruct (do_op handle_request SockNew w) as [[[s|e] w1]|] eqn:H1; [| |done];
    simpl in H1; destruct (socket_fault w); simplify_eq; [|done].
  cbn -[do_op Coordinator.accept_loop Coordinator.display_update].
  set (s := fresh (dom (sockets w))) in *.
  set (w1 := set_sockets _ w).
  assert (sockets w1 !! i = sockets w !! i) as H1i by (by apply lookup_insert_ne).
  destruct (do_op handle_request (SockBind s _) w1) as [[[[]|e] w2]|] eqn:H2; [| |done].
  2: { cbn. simpl in H2. repeat case_match; by simplify_eq. }
  assert (sockets w2 !! i = sockets w !! i) as H2i.
  { simpl in H2. repeat case_match; simplify_eq. cbn. by rewrite lookup_insert_ne. }
  cbn -[do_op Coordinator.accept_loop Coordinator.display_update].
  destruct (do_op handle_request (SockListen s _) w2) as [[[[]|e] w3]|] eqn:H3; [| |done].
  2: { cbn. simpl in H3. repeat case_match; by simplify_eq. }
  assert (sockets w3 !! i = sockets w !! i) as H3i.
  { simpl in H3. repeat case_match; by simplify_eq. }
  cbn -[do_op Coordinator.accept_loop Coordinator.display_update].
  change (bind ?p ?f) with (p ≫= f). rewrite exec_bind, exec_display_update.
  destruct (Coordinator.are_updates_displayed self); unfold and_then;
    cbn -[Coordinator.accept_loop]; by rewrite accept_loop_sockets.
Qed.

End ServerCalls.

Lemma handler_calls_none (tr : list event) :
  Forall (λ ev, match ev with @Event X o _ => is_handle o = false end) tr →
  handler_calls tr = [].
Proof.
  induction 1 as [|[X o x] tr Ho _ IH]; [done|].
  change (Event o x :: tr) with ([Event o x] ++ tr).
  rewrite handler_calls_app, IH. by destruct o.
Qed.

Lemma dequeued_none (tr : list event) :
  Forall (λ ev, match ev with @Event X o _ => is_queue_op o = false end) tr →
  dequeued tr = [].
Proof.
  induction 1 as [|[X o x] tr Ho _ IH]; [done|].
  change (Event o x :: tr) with ([Event o x] ++ tr).
  rewrite dequeued_app, IH. by destruct o.
Qed.

(** X12. [start] itself only makes its server socket, binds it, listens,
    accepts, prints and starts threads.  However it ends, it has closed no
    socket, not even its server socket when it ends with an error, has
    called no handler, has left the queue as it was, and has left every
    socket that was there exactly as it was: reading, answering, closing
    and queueing are left to the threads. *)
Theorem start_leaves_connections_to_its_threads
    (handle_request : fd → address → bytes → result bytes) (self : Coordinator.t)
    (fuel : nat) (w : world) :
  let r := exec handle_request (Coordinator.start self fuel) w in
  closes (trace_of r) = []
  ∧ handler_calls (trace_of r) = []
  ∧ dequeued (trace_of r) = []
  ∧ request_queue (world_of r) = request_queue w
  ∧ ∀ s st, sockets w !! s = Some st → sockets (world_of r) !! s = Some st.
Proof.
  cbv zeta.
  pose proof (exec_calls handle_request _ _ w (start_server_calls self fuel)) as Hcalls.
  split_and!.
  - apply closes_none. eapply Forall_impl; [exact Hcalls|]. intros [X o x]. by destruct o.
  - apply handler_calls_none. eapply Forall_impl; [exact Hcalls|]. intros [X o x]. by destruct o.
  - apply dequeued_none. eapply Forall_impl; [exact Hcalls|]. intros [X o x]. by destruct o.
  - apply (exec_preserves handle_request
             (λ X (o : op X), is_server_call o = true)
             (λ w', request_queue w' = request_queue w)); [|apply start_server_calls|done].
    clear. intros X o w1 x w2 Ho Hop Hw.
    rewrite <- Hw. apply (do_op_request_queue handle_request o w1 w2 x); [|done].
    by destruct o.
  - intros s st Hs. rewrite start_keeps_sockets; [done|].
    intros ->. pose proof (is_fresh (dom (sockets w))) as Hfresh.
    apply Hfresh, elem_of_dom. by exists st.
Qed.

(** X13. When the address is taken, [start] ends with the error of [bind]:
    it does not listen, starts no thread and accepts nothing, and the
    socket it made is left open.  (The error is "Address already in use";
    for a port outside 0..65535 it is the [OverflowError] that [bind]
    raises before it looks at the address.) *)
Theorem start_fails_on_taken_address
    (handle_request : fd → address → bytes → result bytes) (self : Coordinator.t)
    (fuel : nat) (w : world) :
  socket_fault w = None →
  (Coordinator.host self, Coordinator.port self) ∈ bound w →
  let r := exec handle_request (Coordinator.start self fuel) w in
  result_of r = Raised (if port_in_range (Coordinator.port self)
                        then OSError "Address already in use"
                        else OverflowError "bind(): port must be 0-65535.")
  ∧ threads (world_of r) = threads w
  ∧ listening (world_of r) = listening w
  ∧ arrivals (world_of r) = arrivals w
  ∧ closes (trace_of r) = []
  ∧ socket_status (world_of r) !! fresh (dom (sockets w)) = Some false.
Proof.
  intros Hf Hb. unfold Coordinator.start, socket_status.
  cbn -[Coordinator.accept_loop Coordinator.display_update port_in_range]. rewrite Hf.
  cbn -[Coordinator.accept_loop Coordinator.display_update port_in_range].
  destruct (port_in_range (Coordinator.port self)).
  - unfold usable.
    cbn -[Coordinator.accept_loop Coordinator.display_update].
    rewrite lookup_insert_eq. cbn -[Coordinator.accept_loop Coordinator.display_update].
    rewrite decide_True by done. cbn.
    split_and!; try done. by rewrite lookup_fmap, lookup_insert_eq.
  - cbn. split_and!; try done. by rewrite lookup_fmap, lookup_insert_eq.
Qed.

Lemma start_fails_on_taken_address_witness :
  let r := exec echo (Coordinator.start sample_coordinator 5) address_taken in
  result_of r = Raised (OSError "Address already in use")
  ∧ threads (world_of r) = []
  ∧ arrivals (world_of r) = [Ok (5%nat, alice)].
Proof.
  destruct (start_fails_on_taken_address echo sample_coordinator 5 address_taken)
    as (R & T & _ & A & _).
  - reflexivity.
  - vm_compute. reflexivity.
  - cbv zeta. rewrite R, T, A. done.
Defined.

Section Threads.

Variable handle_request : fd → address → bytes → result bytes.
Variable self : Coordinator.t.

(** The accept loop starts one registration thread for each connection it
    accepts, in the order accepted, and no other thread. *)
Lemma accept_loop_threads (s : fd) (fuel : nat) :
  ∀ w : world,
    let r := exec handle_request (Coordinator.accept_loop self s fuel) w in
    threads (world_of r)
    = threads w ++ (registration <$> accepted_connections (trace_of r)).
Proof.
  induction fuel as [|fuel IH]; intros w; cbv zeta; [cbn; by rewrite app_nil_r|].
  rewrite exec_accept_loop_S.
  assert (let r1 := exec handle_request (Coordinator.accept_one self s) w in
          threads (world_of r1)
          = threads w ++ (registration <$> accepted_connections (trace_of r1))) as H1.
  { unfold Coordinator.accept_one, Coordinator.display_update. cbn -[do_op].
    destruct (do_op handle_request (SockAccept s) w) as [[[[c a]|e] w1]|] eqn:Hop;
      [| |cbn; by rewrite app_nil_r].
    - assert (threads w1 = threads w) as Ht
        by (by apply (do_op_threads handle_request (SockAccept s) w w1 (Ok (c, a)))).
      destruct (Coordinator.are_updates_displayed self); cbn; by rewrite Ht.
    - assert (threads w1 = threads w) as Ht
        by (by apply (do_op_threads handle_request (SockAccept s) w w1 (Err e))).
      cbn. by rewrite Ht, app_nil_r. }
  cbv zeta in H1.
  destruct (exec handle_request (Coordinator.accept_one self s) w) as [[[]|e| |] w1 tr1];
    unfold and_then; cbn [result_of world_of trace_of] in *; try done.
  rewrite IH, H1, accepted_connections_app, fmap_app. by rewrite app_assoc.
Qed.

End Threads.

(** Making, binding and listening on a socket starts no thread and does
    not wait. *)
Lemma do_op_setup (handle_request : fd → address → bytes → result bytes)
    {X : Type} (o : op (result X)) (w : world) :
  is_server_call o = true → is_accept_call o = false →
  ∃ x w', do_op handle_request o w = Some (x, w') ∧ threads w' = threads w.
Proof.
  intros Hs Ha.
  destruct (do_op handle_request o w) as [[x w']|] eqn:Hop.
  - exists x, w'. split; [done|].
    apply (do_op_threads handle_request o w w' x); [|done].
    revert Hs Ha. clear. by destruct o.
  - exfalso. revert Hs Ha Hop. clear.
    refine (match o with SockNew | SockBind _ _ | SockListen _ _ => _ | _ => _ end);
      try done; simpl; intros _ _; repeat case_match; done.
Qed.

(** X14. In every run of [start], whatever arrives and however the run
    ends, the threads started are these: none when the server socket could
    not be set up, and otherwise the processing thread, started with
    [daemon=True], once and first, followed by one registration thread for
    each connection accepted, in the order accepted, each started with no
    [daemon] argument, so that it takes the daemon flag of the thread that
    runs [start]. *)
Theorem start_threads_in_every_run
    (handle_request : fd → address → bytes → result bytes) (self : Coordinator.t)
    (fuel : nat) (w : world) :
  let r := exec handle_request (Coordinator.start self fuel) w in
  (threads (world_of r) = threads w
   ∧ accepted_connections (trace_of r) = []
   ∧ ∃ e, result_of r = Raised e)
  ∨ threads (world_of r)
    = threads w ++ (ProcessRequests, Some true)
                :: (registration <$> accepted_connections (trace_of r)).
Proof.
  unfold Coordinator.start.
  cbn -[do_op Coordinator.accept_loop Coordinator.display_update].
  destruct (do_op_setup handle_request SockNew w eq_refl eq_refl) as ([s|e] & w1 & -> & T1);
    cbn -[do_op Coordinator.accept_loop Coordinator.display_update];
    [|left; split_and!; [done|done|by exists e]].
  destruct (do_op_setup handle_request
              (SockBind s (Coordinator.host self, Coordinator.port self)) w1 eq_refl eq_refl)
    as ([[]|e] & w2 & -> & T2);
    cbn -[do_op Coordinator.accept_loop Coordinator.display_update];
    [|left; split_and!; [congruence|done|by exists e]].
  destruct (do_op_setup handle_request
              (SockListen s (Coordinator.max_num_of_clients self)) w2 eq_refl eq_refl)
    as ([[]|e] & w3 & -> & T3);
    cbn -[do_op Coordinator.accept_loop Coordinator.display_update];
    [|left; split_and!; [congruence|done|by exists e]].
  right. change (bind ?p ?f) with (p ≫= f). rewrite exec_bind, exec_display_update.
  destruct (Coordinator.are_updates_displayed self); unfold and_then;
    cbn -[Coordinator.accept_loop];
    rewrite accept_loop_threads; cbn -[Coordinator.accept_loop];
    rewrite T3, T2, T1, <- app_assoc; done.
Qed.

(* ===================================================================== *)
(** ** [task_done()] under every interleaving of the threads *)
(* ===================================================================== *)

Lemma holds_inv {A : Type} (d : nat) (p : prog A) :
  holds d p →
  match p with
  | Vis o k =>
      match o in op X return (X → prog A) → Prop with
      | QueueGet => λ k, ∀ x, holds (S d) (k x)
      | QueueTaskDone => λ k, ∃ d', d = S d' ∧ ∀ x, holds d' (k x)
      | _ => λ k, ∀ x, holds d (k x)
      end k
  | _ => True
  end.
Proof.
  intros [| | |d' k Hk|d' k Hk|d' X o k Ho Hk]; try done.
  - by exists d'.
  - by destruct o.
Qed.

(** A program that neither takes an entry nor marks one done holds what
    it held. *)
Lemma holds_all_ops {A : Type} (d : nat) (p : prog A) :
  all_ops (λ X (o : op X), is_take_or_done o = false) p → holds d p.
Proof. induction 1; by constructor. Qed.

Section Accounting.

Variable handle_request : fd → address → bytes → result bytes.
Variable self : Coordinator.t.
Variable fuel : nat.

Lemma queue_client_request_holds (s : fd) (a : address) :
  holds 0 (Coordinator.queue_client_request self s a).
Proof.
  apply holds_all_ops.
  unfold Coordinator.queue_client_request, Coordinator.display_update, queue_put, print.
  every_call.
Qed.

Lemma start_holds (n : nat) : holds 0 (Coordinator.start self n).
Proof.
  apply holds_all_ops.
  apply (all_ops_impl (λ X (o : op X), is_server_call o = true));
    [intros X o; by destruct o|apply start_server_calls].
Qed.

(** The loop takes an entry and marks it done before it takes the next. *)
Lemma process_requests_holds (n : nat) : holds 0 (Coordinator.process_requests self n).
Proof.
  induction n as [|n IH]; [constructor|].
  change (Coordinator.process_requests self (S n))
    with (Coordinator.process_request self ≫= λ _, Coordinator.process_requests self n).
  unfold Coordinator.process_request, Coordinator.display_update, Coordinator.handle_request,
    queue_get, print, sock_recv, sock_send, sock_close, queue_task_done, call, call_raising.
  destruct (Coordinator.are_updates_displayed self);
    cbn -[Coordinator.process_requests];
    repeat first
      [ exact IH
      | apply holds_raise
      | apply holds_get; intros [? ?]; cbn -[Coordinator.process_requests]
      | apply holds_task_done; intros [[]|?]; cbn -[Coordinator.process_requests]
      | apply holds_other;
          [done|let y := fresh "y" in
                intros y; try destruct y as [?|?]; cbn -[Coordinator.process_requests]] ].
Qed.

Lemma new_threads_hold {X : Type} (o : op X) :
  Forall (λ t, holds 0 (code t)) (new_threads self fuel o).
Proof.
  unfold new_threads. destruct (started o) as [[|s a]|]; [| |constructor].
  - constructor; [|constructor]. apply process_requests_holds.
  - constructor; [|constructor]. apply queue_client_request_holds.
Qed.

(** A step of a thread keeps the account. *)
Lemma step_holds (th th' : thread) (w w' : world) (new : list thread) (d others : nat) :
  holds d (code th) →
  thread_step handle_request self fuel th w = Some (th', w', new) →
  (length (Queue.items (request_queue w)) + (d + others)
   ≤ Queue.unfinished_tasks (request_queue w))%nat →
  ∃ d', holds d' (code th')
        ∧ (length (Queue.items (request_queue w')) + (d' + others)
           ≤ Queue.unfinished_tasks (request_queue w'))%nat
        ∧ Forall (λ t, holds 0 (code t)) new.
Proof.
  intros Hd. unfold thread_step.
  destruct (code th) as [| | |X o k] eqn:Hcode; try done.
  destruct (is_handle o && negb (in_handler th)).
  { intros [= <- <- <-] Hacc. exists d. simpl. by split_and!. }
  destruct (do_op handle_request o w) as [[x w1]|] eqn:Hop; [|done].
  intros [= <- <- <-] Hacc. simpl.
  pose proof (new_threads_hold o) as Hnew.
  apply holds_inv in Hd.
  destruct (is_take_or_done o) eqn:Htd.
  - destruct o; try done.
    + exists (S d). split; [apply Hd|]. split; [|done].
      simpl in Hop. unfold Queue.get in Hop.
      destruct (Queue.items (request_queue w)) as [|r rest]; [done|].
      simplify_eq. simpl in *. lia.
    + destruct Hd as (d' & -> & Hk). exists d'. split; [apply Hk|]. split; [|done].
      simpl in Hop. unfold Queue.task_done in Hop.
      destruct (Queue.unfinished_tasks (request_queue w)) as [|u] eqn:Hu; [lia|].
      simplify_eq. simpl in *. lia.
  - exists d. split.
    + revert Hd Htd. clear. by destruct o.
    + split; [|done]. destruct (is_queue_op o) eqn:Hq.
      * destruct o; try done. simpl in Hop. simplify_eq. simpl.
        rewrite length_app. simpl. lia.
      * by rewrite (do_op_request_queue handle_request o w w1 x Hq Hop).
Qed.

Lemma sum_list_insert (ds : list nat) (i d d' : nat) :
  ds !! i = Some d → (sum_list (<[i := d']> ds) + d = sum_list ds + d')%nat.
Proof.
  revert i. induction ds as [|d0 ds IH]; intros [|i] Hi; simplify_eq/=; [lia|].
  specialize (IH i Hi). lia.
Qed.

(** A step of the scheduler keeps the account. *)
Lemma system_step_accounted (i : nat) (σ : system) :
  accounted σ → accounted (system_step handle_request self fuel i σ).
Proof.
  intros (ds & Hds & Hacc). unfold system_step.
  destruct (pool σ !! i) as [th|] eqn:Hi; [|by exists ds].
  destruct (thread_step handle_request self fuel th (shared σ)) as [[[th' w'] new]|] eqn:Hstep;
    [|by exists ds].
  destruct (Forall2_lookup_r _ _ _ _ _ Hds Hi) as (d & Hd & Hth).
  assert (∃ others, sum_list ds = d + others)%nat as [others Hsum].
  { exists (sum_list (<[i := 0%nat]> ds)). pose proof (sum_list_insert ds i d 0 Hd). lia. }
  destruct (step_holds th th' _ _ new d others Hth Hstep) as (d' & Hth' & Hacc' & Hnew); [lia|].
  exists (<[i := d']> ds ++ replicate (length new) 0%nat). simpl. split.
  - apply Forall2_app; [by apply Forall2_insert|].
    clear -Hnew. induction Hnew; simpl; by constructor.
  - rewrite sum_list_with_app, sum_list_replicate.
    pose proof (sum_list_insert ds i d d' Hd). lia.
Qed.

Lemma system_run_accounted (schedule : list nat) (σ : system) :
  accounted σ → accounted (system_run handle_request self fuel schedule σ).
Proof.
  revert σ. induction schedule as [|i schedule IH]; intros σ Hacc; [done|].
  simpl. by apply IH, system_step_accounted.
Qed.

Lemma boot_accounted (w : world) :
  Queue.wf (request_queue w) → accounted (boot self fuel w).
Proof.
  intros Hwf. exists [0%nat]. split.
  - constructor; [apply start_holds|constructor].
  - unfold Queue.wf in Hwf. simpl. lia.
Qed.

End Accounting.

(** X15. [task_done()] is never called too often.  Under every schedule of
    the threads that [start] starts, the unfinished tasks of the queue
    count at least the entries waiting in it, and whenever a thread is
    about to call [task_done()] the call succeeds: it does not raise
    [ValueError]. *)
Theorem task_done_never_fails_in_any_interleaving
    (handle_request : fd → address → bytes → result bytes) (self : Coordinator.t)
    (fuel : nat) (w : world) (schedule : list nat) :
  Queue.wf (request_queue w) →
  let σ := system_run handle_request self fuel schedule (boot self fuel w) in
  Queue.wf (request_queue (shared σ))
  ∧ ∀ (i : nat) (th : thread) (k : result unit → prog unit),
      pool σ !! i = Some th → code th = Vis QueueTaskDone k →
      ∃ w', do_op handle_request QueueTaskDone (shared σ) = Some (Ok tt, w').
Proof.
  intros Hwf. cbv zeta.
  destruct (system_run_accounted handle_request self fuel schedule _
              (boot_accounted self fuel w Hwf)) as (ds & Hds & Hacc).
  split; [unfold Queue.wf; lia|].
  intros i th k Hi Hcode.
  destruct (Forall2_lookup_r _ _ _ _ _ Hds Hi) as (d & Hd & Hth).
  rewrite Hcode in Hth. apply holds_inv in Hth as (d' & -> & _).
  pose proof (sum_list_insert ds i (S d') 0 Hd) as Hsum.
  simpl. unfold Queue.task_done.
  destruct (Queue.unfinished_tasks (request_queue (shared _))) as [|u]; [lia|].
  by eexists.
Qed.

Lemma task_done_never_fails_in_any_interleaving_witness :
  let σ := system_run echo sample_coordinator 2
             [0; 0; 0; 0; 0; 0; 0; 0; 2; 2; 1; 1; 1; 1; 1; 1; 1; 1]%nat
             (boot sample_coordinator 2 alice_arriving) in
  Queue.wf (request_queue alice_arriving)
  ∧ Queue.wf (request_queue (shared σ))
  ∧ ∃ w', do_op echo QueueTaskDone (shared σ) = Some (Ok tt, w').
Proof.
  assert (Queue.wf (request_queue alice_arriving)) as Hwf by (unfold Queue.wf; simpl; lia).
  destruct (task_done_never_fails_in_any_interleaving echo sample_coordinator 2 alice_arriving
              [0; 0; 0; 0; 0; 0; 0; 0; 2; 2; 1; 1; 1; 1; 1; 1; 1; 1]%nat Hwf)
    as [Hwf' Hdone].
  split; [exact Hwf|]. split; [exact Hwf'|].
  eapply (Hdone 1%nat); [vm_compute; reflexivity|reflexivity].
Defined.

(* ===================================================================== *)
(** ** The round trip with any handler and any payload *)
(* ===================================================================== *)

(** With nothing to read and the other side still there, [recv] waits. *)
Lemma do_op_recv_waits (handle_request : fd → address → bytes → result bytes)
    (w : world) (s : fd) (st : socket_state) (bufsize : Z) :
  sockets w !! s = Some st → closed st = false → recv_fault st = None →
  0 ≤ bufsize → rx st = [] → rx_eof st = false →
  do_op handle_request (SockRecv s bufsize) w = None.
Proof.
  intros Hs Hc Hf Hn Hrx Heof. simpl. rewrite (usable_live _ _ _ Hs Hc), Hf, Hrx, Heof.
  by destruct (Z.ltb_spec bufsize 0) as [?|_]; [lia|].
Qed.

Section AnyRoundTripSteps.

Variable handle_request : fd → address → bytes → result bytes.
Variable k : Worker.t.
Variable c : Coordinator.t.
Variable n : nat.
Variable a : address.
Variable payload : bytes.

Lemma round_trip_in_phases :
  in_phases handle_request k c n a payload AtQuery AtGet (round_trip k c (S n) a payload).
Proof. by constructor. Qed.

(** The handler returns or raises. *)
Lemma answer_cases :
  (∃ response, answer handle_request a payload = Ok response
               ∧ response_written handle_request a payload = response
               ∧ ending handle_request a payload = Ret tt)
  ∨ (∃ e, answer handle_request a payload = Err e
          ∧ response_written handle_request a payload = []
          ∧ ending handle_request a payload = Raise e).
Proof.
  unfold response_written, ending.
  destruct (answer handle_request a payload) as [response|e]; [left|right]; by eexists.
Qed.

(** Closing the goals about ranks. *)
Ltac ranked := simpl; split; [lia|intros; first [lia | by left | by right]].

(** A step of the worker: it moves on, unless it has returned or waits
    for the coordinator, which has not closed the connection. *)
Lemma worker_moves (wph : worker_phase) (cph : coordinator_phase) (x : exchange) :
  in_phases handle_request k c n a payload wph cph x →
  ∃ wph',
    in_phases handle_request k c n a payload wph' cph
      (exchange_step handle_request TheWorker x)
    ∧ (w_rank wph ≤ w_rank wph')%nat
    ∧ (w_rank wph' = w_rank wph → wph = AtReturn ∨ (wph = AtRecv ∧ c_closed cph = false)).
Proof.
  intros [Hw Hc H0 H1 Hq Ha Hrs Hrw Hwa]. destruct x as [wk co w]. simpl in *. subst wk co.
  destruct k as [host port flag]. destruct wph; unfold exchange_step; simpl worker_side;
    simpl coordinator_side; simpl network.
  - (* AtQuery *)
    destruct flag; cbn -[do_op].
    + exists AtSendLookup. split; [by constructor|ranked].
    + rewrite do_op_get_client_socket, Ha.
      exists AtSend. split; [by constructor|ranked].
  - (* AtSendLookup *)
    cbn -[do_op]. rewrite do_op_get_client_socket, Ha.
    exists AtSend. split; [by constructor|ranked].
  - (* AtSend *)
    cbn -[do_op]. rewrite (do_op_send_live handle_request w 0%nat _ payload H0 eq_refl eq_refl).
    exists AtWaiting. split; [|ranked].
    constructor; cbn [worker_side coordinator_side network]; try done;
      cbn [sockets set_sockets peer send_room tx worker_end_in accepted];
      rewrite ?firstn_all.
    + rewrite lookup_deliver_ne by done. by rewrite lookup_insert_eq.
    + erewrite lookup_deliver_eq; [|rewrite lookup_insert_ne by done; exact H1].
      unfold coordinator_end_in, set_rx. simpl.
      destruct (c_received cph) eqn:E; [by destruct (Hrs eq_refl)|done].
    + intros Hr. by destruct (Hrs Hr).
  - (* AtWaiting *)
    destruct flag; cbn -[do_op].
    + exists AtRecvLookup. split; [by constructor|ranked].
    + rewrite do_op_get_client_socket, Ha.
      exists AtRecv. split; [by constructor|ranked].
  - (* AtRecvLookup *)
    cbn -[do_op]. rewrite do_op_get_client_socket, Ha.
    exists AtRecv. split; [by constructor|ranked].
  - (* AtRecv *)
    set (st := worker_end_in handle_request a payload AtRecv cph) in *.
    assert ((c_sent cph = true ∧ (rx st ≠ [] ∨ rx_eof st = true))
            ∨ (rx st = [] ∧ rx_eof st = false)) as [[Hsent Hlive]|[Hrx Heof]].
    { unfold st, worker_end_in. simpl.
      destruct (c_sent cph) eqn:Hsent.
      - destruct (c_closed cph); [left; split; [done|by right]|].
        destruct (response_written handle_request a payload); [by right|].
        left. split; [done|by left].
      - right. split; [done|].
        destruct (c_closed cph) eqn:E; [|done]. by rewrite (c_closed_sent _ E) in Hsent. }
    + assert (rx st = response_written handle_request a payload) as Hrx.
      { unfold st, worker_end_in. simpl. by rewrite Hsent. }
      cbn -[do_op].
      rewrite (do_op_recv_live handle_request w 0%nat st 1024 H0 eq_refl eq_refl
                 ltac:(lia) Hlive).
      rewrite Hrx.
      change (chunk 1024 (response_written handle_request a payload))
        with (reply handle_request a payload).
      destruct flag; cbn -[do_op].
      * exists AtReceived. split; [|ranked].
        constructor; simpl; try done.
        -- rewrite lookup_insert_eq. unfold st, worker_end_in, set_rx. simpl.
           by rewrite Hsent.
        -- by rewrite lookup_insert_ne.
      * exists AtReturn. split; [|ranked].
        constructor; simpl; try done.
        -- rewrite lookup_insert_eq. unfold st, worker_end_in, set_rx. simpl.
           by rewrite Hsent.
        -- by rewrite lookup_insert_ne.
    + cbn -[do_op].
      rewrite (do_op_recv_waits handle_request w 0%nat st 1024 H0 eq_refl eq_refl
                 ltac:(lia) Hrx Heof).
      exists AtRecv. split; [by constructor|]. simpl. split; [lia|]. intros _. by right.
  - (* AtReceived *)
    destruct flag; cbn -[do_op].
    + exists AtReturn. split; [by constructor|ranked].
    + exists AtReturn. split; [by constructor|ranked].
  - (* AtReturn *)
    cbn. exists AtReturn. split; [by constructor|ranked].
Qed.

(** The coordinator about to read: it reads the first 1024 bytes of the
    request once the worker has sent it, and waits until then. *)
Lemma coordinator_reads (wph : worker_phase) (x : exchange) :
  in_phases handle_request k c n a payload wph AtRead x →
  ∃ cph',
    in_phases handle_request k c n a payload wph cph'
      (exchange_step handle_request TheCoordinator x)
    ∧ (2 ≤ c_rank cph')%nat
    ∧ (c_rank cph' = 2%nat → w_sent wph = false ∨ payload = []).
Proof.
  intros [Hw Hc H0 H1 Hq Ha Hrs Hrw Hwa]. destruct x as [wk co w]. simpl in *. subst wk co.
  unfold exchange_step; simpl worker_side; simpl coordinator_side; simpl network.
  set (st := coordinator_end_in handle_request a payload wph AtRead) in *.
  assert (payload = [] ∨ payload ≠ []) as Hp by (clear; destruct payload; [by left|by right]).
  assert ((w_sent wph = true ∧ payload ≠ []) ∨ (w_sent wph = false ∨ payload = []))
    as [[Hsent Hne]|Hnot].
  { destruct (w_sent wph); [|by right; left]. destruct Hp; [by right; right|by left]. }
  - assert (rx st = payload) as Hrx.
    { unfold st, coordinator_end_in. simpl. by rewrite Hsent. }
    cbn -[do_op].
    rewrite (do_op_recv_live handle_request w 1%nat st 1024 H1 eq_refl eq_refl ltac:(lia)
               ltac:(left; by rewrite Hrx)).
    rewrite Hrx.
    change (chunk 1024 payload) with (request_read payload).
    exists AtHandle. split; [|simpl; split; [lia|intros; lia]].
    constructor; simpl; try done.
    + by rewrite lookup_insert_ne.
    + rewrite lookup_insert_eq. unfold st, coordinator_end_in, set_rx. simpl.
      by rewrite Hsent.
  - assert (rx st = []) as Hrx.
    { unfold st, coordinator_end_in. simpl. destruct (w_sent wph); [|done].
      by destruct Hnot as [? | ->]. }
    cbn -[do_op].
    rewrite (do_op_recv_waits handle_request w 1%nat st 1024 H1 eq_refl eq_refl
               ltac:(lia) Hrx eq_refl).
    exists AtRead. split; [by constructor|]. simpl. split; [lia|]. by intros _.
Qed.

Lemma task_done_of_last (w : world) :
  request_queue w = queue_at a AtTaskDone →
  do_op handle_request QueueTaskDone w
  = Some (Ok tt, set_request_queue (queue_at a AtNext) w).
Proof. intros Hq. simpl. by rewrite Hq. Qed.

(** A step of the coordinator: it moves on, unless its first pass is over
    or it waits for a request that has not arrived. *)
Lemma coordinator_moves (wph : worker_phase) (cph : coordinator_phase) (x : exchange) :
  in_phases handle_request k c n a payload wph cph x →
  ∃ cph',
    in_phases handle_request k c n a payload wph cph'
      (exchange_step handle_request TheCoordinator x)
    ∧ (c_rank cph ≤ c_rank cph')%nat
    ∧ (c_rank cph' = c_rank cph →
       cph = AtNext ∨ (cph = AtRead ∧ (w_sent wph = false ∨ payload = []))).
Proof.
  intros Hin. destruct cph.
  - (* AtGet *)
    destruct Hin as [Hw Hc H0 H1 Hq Ha Hrs Hrw Hwa]. destruct x as [wk co w].
    simpl in *. subst wk co.
    unfold exchange_step; simpl worker_side; simpl coordinator_side; simpl network.
    cbn -[do_op].
    rewrite (do_op_queue_get handle_request w (1%nat, a) []) by by rewrite Hq.
    rewrite Hq. destruct c as [host port backlog flag]. destruct flag; cbn -[do_op].
    + exists AtProcessing. split; [by constructor|ranked].
    + exists AtRead. split; [by constructor|ranked].
  - (* AtProcessing *)
    destruct (Coordinator.are_updates_displayed c) eqn:Hflag.
    + destruct Hin as [Hw Hc H0 H1 Hq Ha Hrs Hrw Hwa]. destruct x as [wk co w].
      simpl in *. subst wk co.
      unfold exchange_step; simpl worker_side; simpl coordinator_side; simpl network.
      destruct c as [host port backlog flag]. simpl in Hflag. subst flag. cbn -[do_op].
      exists AtRead. split; [by constructor|ranked].
    + destruct (coordinator_reads wph x) as (cph' & Hin' & Hle & _).
      { destruct Hin as [Hw Hc H0 H1 Hq Ha Hrs Hrw Hwa]. constructor; try done.
        rewrite Hc. simpl. unfold Coordinator.display_update. by rewrite Hflag. }
      exists cph'. split; [done|]. simpl. split; [lia|]. intros; lia.
  - (* AtRead *)
    destruct (coordinator_reads wph x Hin) as (cph' & Hin' & Hle & Hstay).
    exists cph'. split; [done|]. simpl. split; [lia|]. intros E. right. split; [done|].
    by apply Hstay.
  - (* AtHandle *)
    destruct Hin as [Hw Hc H0 H1 Hq Ha Hrs Hrw Hwa]. destruct x as [wk co w].
    simpl in *. subst wk co.
    unfold exchange_step; simpl worker_side; simpl coordinator_side; simpl network.
    cbn -[do_op]. cbn [do_op].
    change (handle_request 1%nat a (request_read payload))
      with (answer handle_request a payload).
    destruct answer_cases as [(response & Hans & Hres & Hend)|(e & Hans & Hres & Hend)];
      rewrite Hans; cbn -[do_op].
    + exists AtWrite. split; [|ranked].
      constructor; simpl; try done; [by rewrite Hres|by exists response].
    + exists AtClose. split; [|ranked].
      assert (w_received wph = false) as Hnr.
      { destruct (w_received wph) eqn:E; [|done]. by specialize (Hrw eq_refl). }
      constructor; simpl; try done.
      * by rewrite Hend.
      * rewrite H0. unfold worker_end_in. simpl. by rewrite Hnr, Hres.
      * rewrite H1. unfold coordinator_end_in. simpl. by rewrite Hres.
  - (* AtWrite *)
    destruct Hin as [Hw Hc H0 H1 Hq Ha Hrs Hrw Hwa]. destruct x as [wk co w].
    simpl in *. subst wk co.
    unfold exchange_step; simpl worker_side; simpl coordinator_side; simpl network.
    assert (w_received wph = false) as Hnr.
    { destruct (w_received wph) eqn:E; [|done]. by specialize (Hrw eq_refl). }
    destruct (Hwa eq_refl) as [response Hans].
    assert (ending handle_request a payload = Ret tt) as Hend
      by (unfold ending; by rewrite Hans).
    cbn -[do_op].
    rewrite (do_op_send_live handle_request w 1%nat _ _ H1 eq_refl eq_refl).
    exists AtClose. split; [|ranked].
    constructor; cbn [worker_side coordinator_side network]; try done;
      cbn [sockets set_sockets peer send_room tx coordinator_end_in accepted];
      rewrite ?firstn_all.
    + unfold coordinator_doing. by rewrite Hend.
    + erewrite lookup_deliver_eq; [|rewrite lookup_insert_ne by done; exact H0].
      unfold worker_end_in, set_rx. simpl. by rewrite Hnr.
    + rewrite lookup_deliver_ne by done. rewrite lookup_insert_eq.
      unfold coordinator_end_in, set_tx. simpl. done.
  - (* AtClose *)
    destruct Hin as [Hw Hc H0 H1 Hq Ha Hrs Hrw Hwa]. destruct x as [wk co w].
    simpl in *. subst wk co.
    unfold exchange_step; simpl worker_side; simpl coordinator_side; simpl network.
    cbn -[do_op]. rewrite (do_op_close_live handle_request w 1%nat _ H1).
    assert (∀ cph', c_rank cph' = 6%nat ∨ c_rank cph' = 7%nat →
              sockets (set_sockets
                (λ m, hang_up (peer (coordinator_end_in handle_request a payload wph AtClose))
                        (<[1%nat:=set_closed true
                                    (coordinator_end_in handle_request a payload wph AtClose)]> m))
                w) !! 0%nat
              = Some (worker_end_in handle_request a payload wph cph')
              ∧ sockets (set_sockets
                (λ m, hang_up (peer (coordinator_end_in handle_request a payload wph AtClose))
                        (<[1%nat:=set_closed true
                                    (coordinator_end_in handle_request a payload wph AtClose)]> m))
                w) !! 1%nat
                = Some (coordinator_end_in handle_request a payload wph cph')) as Hsockets.
    { intros cph' Hcph'. cbn [sockets set_sockets peer coordinator_end_in]. split.
      - erewrite lookup_hang_up_eq; [|rewrite lookup_insert_ne by done; exact H0].
        by destruct cph', Hcph'.
      - rewrite lookup_hang_up_ne by done. rewrite lookup_insert_eq.
        by destruct cph', Hcph'. }
    destruct c as [host port backlog flag]. destruct flag; cbn -[do_op].
    + exists AtClosed. split; [|ranked].
      destruct (Hsockets AtClosed) as [? ?]; [by left|]. by constructor.
    + exists AtTaskDone. split; [|ranked].
      destruct (Hsockets AtTaskDone) as [? ?]; [by right|]. by constructor.
  - (* AtClosed *)
    destruct Hin as [Hw Hc H0 H1 Hq Ha Hrs Hrw Hwa]. destruct x as [wk co w].
    simpl in *. subst wk co.
    unfold exchange_step; simpl worker_side; simpl coordinator_side; simpl network.
    destruct c as [host port backlog flag]. destruct flag; cbn -[do_op].
    + exists AtTaskDone. split; [by constructor|ranked].
    + rewrite (task_done_of_last w Hq). cbn.
      exists AtNext. split; [by constructor|ranked].
  - (* AtTaskDone *)
    destruct Hin as [Hw Hc H0 H1 Hq Ha Hrs Hrw Hwa]. destruct x as [wk co w].
    simpl in *. subst wk co.
    unfold exchange_step; simpl worker_side; simpl coordinator_side; simpl network.
    cbn -[do_op]. rewrite (task_done_of_last w Hq). cbn.
    exists AtNext. split; [by constructor|ranked].
  - (* AtNext *)
    exists AtNext. split; [|simpl; split; [lia|by left]].
    destruct Hin as [Hw Hc H0 H1 Hq Ha Hrs Hrw Hwa]. destruct x as [wk co w].
    simpl in *. subst wk co.
    unfold exchange_step; simpl worker_side; simpl coordinator_side; simpl network.
    destruct answer_cases as [(response & Hans & Hres & Hend)|(e & Hans & Hres & Hend)];
      rewrite Hend; [|by constructor; simpl; rewrite ?Hend].
    destruct n as [|n']; cbn -[do_op].
    { constructor; simpl; try done. by rewrite Hend. }
    rewrite (do_op_queue_get_empty handle_request w) by by rewrite Hq.
    constructor; simpl; try done. by rewrite Hend.
Qed.

Hypothesis payload_there : payload ≠ [].

(** One turn of each side: both are through, or one of them has moved on. *)
Lemma turn_moves (wph : worker_phase) (cph : coordinator_phase) (x : exchange) :
  in_phases handle_request k c n a payload wph cph x →
  ∃ wph' cph',
    in_phases handle_request k c n a payload wph' cph'
      (exchange_step handle_request TheCoordinator (exchange_step handle_request TheWorker x))
    ∧ (w_rank wph ≤ w_rank wph')%nat ∧ (c_rank cph ≤ c_rank cph')%nat
    ∧ ((wph' = AtReturn ∧ cph' = AtNext)
       ∨ (w_rank wph + c_rank cph < w_rank wph' + c_rank cph')%nat).
Proof.
  intros Hin.
  destruct (worker_moves wph cph x Hin) as (wph1 & Hin1 & Hwle & Hwstay).
  destruct (coordinator_moves wph1 cph _ Hin1) as (cph1 & Hin2 & Hcle & Hcstay).
  exists wph1, cph1. split; [done|]. split; [done|]. split; [done|].
  destruct (decide (w_rank wph1 = w_rank wph)) as [Hw|Hw]; [|right; lia].
  destruct (decide (c_rank cph1 = c_rank cph)) as [Hc|Hc]; [|right; lia].
  left. destruct (Hwstay Hw) as [->|[-> Hns]].
  - assert (wph1 = AtReturn) as -> by (by destruct wph1).
    split; [done|]. destruct (Hcstay Hc) as [->|[_ [?|?]]]; [|done|done].
    by destruct cph1.
  - assert (wph1 = AtRecv) as -> by (by destruct wph1).
    destruct (Hcstay Hc) as [->|[_ [?|?]]]; done.
Qed.

Lemma turns_move (j : nat) (wph : worker_phase) (cph : coordinator_phase) (x : exchange) :
  in_phases handle_request k c n a payload wph cph x →
  ∃ wph' cph',
    in_phases handle_request k c n a payload wph' cph'
      (exchange_run handle_request (in_turn j) x)
    ∧ (w_rank wph ≤ w_rank wph')%nat ∧ (c_rank cph ≤ c_rank cph')%nat
    ∧ ((wph' = AtReturn ∧ cph' = AtNext)
       ∨ (w_rank wph + c_rank cph + j ≤ w_rank wph' + c_rank cph')%nat).
Proof.
  revert wph cph x. induction j as [|j IH]; intros wph cph x Hin.
  - exists wph, cph. split; [done|]. split; [done|]. split; [done|]. right. lia.
  - destruct (turn_moves wph cph x Hin) as (wph1 & cph1 & Hin1 & Hw1 & Hc1 & Hmove).
    destruct (IH wph1 cph1 _ Hin1) as (wph2 & cph2 & Hin2 & Hw2 & Hc2 & Hmoves).
    exists wph2, cph2. split; [exact Hin2|]. split; [lia|]. split; [lia|].
    destruct Hmoves as [?|Hmoves]; [by left|].
    destruct Hmove as [[-> ->]|Hmove]; [|right; lia].
    left. simpl in Hw2, Hc2. split; [by destruct wph2; simpl in *; try lia|].
    by destruct cph2; simpl in *; try lia.
Qed.

Lemma any_step_in_phases (who : party) (wph : worker_phase) (cph : coordinator_phase)
    (x : exchange) :
  in_phases handle_request k c n a payload wph cph x →
  ∃ wph' cph',
    in_phases handle_request k c n a payload wph' cph' (exchange_step handle_request who x).
Proof.
  intros Hin. destruct who.
  - destruct (worker_moves wph cph x Hin) as (wph' & Hin' & _). by exists wph', cph.
  - destruct (coordinator_moves wph cph x Hin) as (cph' & Hin' & _). by exists wph, cph'.
Qed.

Lemma any_run_in_phases (schedule : list party) (wph : worker_phase)
    (cph : coordinator_phase) (x : exchange) :
  in_phases handle_request k c n a payload wph cph x →
  ∃ wph' cph',
    in_phases handle_request k c n a payload wph' cph'
      (exchange_run handle_request schedule x).
Proof.
  revert wph cph x. induction schedule as [|who schedule IH]; intros wph cph x Hin.
  - by exists wph, cph.
  - destruct (any_step_in_phases who wph cph x Hin) as (wph1 & cph1 & Hin1).
    exact (IH wph1 cph1 _ Hin1).
Qed.

(** After sixteen turns of each side the round trip is over on both sides. *)
Lemma any_round_trip_over (schedule : list party) :
  in_phases handle_request k c n a payload AtReturn AtNext
    (exchange_run handle_request (schedule ++ in_turn 16) (round_trip k c (S n) a payload)).
Proof.
  destruct (any_run_in_phases schedule AtQuery AtGet _ round_trip_in_phases)
    as (wph & cph & Hin).
  rewrite exchange_run_app.
  destruct (turns_move 16 wph cph _ Hin) as (wph' & cph' & Hin' & _ & _ & Hend).
  destruct Hend as [[-> ->]|Hend]; [done|].
  exfalso. clear -Hend. destruct wph', cph'; simpl in Hend; lia.
Qed.

(** Whatever the worker has returned, it is the reply. *)
Lemma worker_returns_reply_only (wph : worker_phase) (response : bytes) :
  worker_doing handle_request k a payload wph = Ret response →
  response = reply handle_request a payload.
Proof. clear. destruct k as [host port []], wph; cbn; congruence. Qed.

Lemma reply_is_round_trip_result :
  reply handle_request a payload = round_trip_result handle_request a payload.
Proof.
  clear. unfold reply, response_written, answer, request_read, round_trip_result.
  change (chunk 1024 payload) with (take 1024 payload).
  by destruct (handle_request 1%nat a (take 1024 payload)).
Qed.

Lemma ending_then_next :
  coordinator_doing handle_request c n a payload AtNext
  = match handle_request 1%nat a (take 1024 payload) with
    | Ok _ => Coordinator.process_requests c n
    | Err e => Raise e
    end.
Proof.
  clear. unfold coordinator_doing, ending, answer, request_read.
  change (chunk 1024 payload) with (take 1024 payload).
  by destruct (handle_request 1%nat a (take 1024 payload)).
Qed.

End AnyRoundTripSteps.

(** X16. The round trip with any handler and a payload of any length but
    zero.  Over a new connection, whatever the two sides are scheduled like
    at first, sixteen further turns of each bring [query_coordinator
    payload] to its return, and what it returns is the first 1024 bytes of
    what the handler returns for the first 1024 bytes of the payload, or
    [b''] when the handler raises; the processing loop then waits for the
    next entry, or has ended with the handler's exception.  Under no
    schedule does the query return anything else. *)
Theorem round_trip_with_any_handler
    (handle_request : fd → address → bytes → result bytes) (k : Worker.t)
    (c : Coordinator.t) (n : nat) (a : address) (payload : bytes) (schedule : list party) :
  payload ≠ [] →
  let x := exchange_run handle_request (schedule ++ in_turn 16)
             (round_trip k c (S n) a payload) in
  worker_side x = Ret (round_trip_result handle_request a payload)
  ∧ coordinator_side x
    = match handle_request 1%nat a (take 1024 payload) with
      | Ok _ => Coordinator.process_requests c n
      | Err e => Raise e
      end
  ∧ ∀ response : bytes,
      worker_side (exchange_run handle_request schedule (round_trip k c (S n) a payload))
      = Ret response →
      response = round_trip_result handle_request a payload.
Proof.
  intros Hne. cbv zeta.
  destruct (any_round_trip_over handle_request k c n a payload Hne schedule)
    as [Hw Hc _ _ _ _ _ _ _].
  split; [by rewrite Hw, <- reply_is_round_trip_result|].
  split; [by rewrite Hc, ending_then_next|].
  intros response Hret.
  destruct (any_run_in_phases handle_request k c n a payload schedule AtQuery AtGet _
              (round_trip_in_phases handle_request k c n a payload))
    as (wph & cph & [Hw' _ _ _ _ _ _ _ _]).
  rewrite Hw' in Hret. rewrite <- reply_is_round_trip_result.
  by apply (worker_returns_reply_only handle_request k a payload wph).
Qed.

Lemma round_trip_with_any_handler_witness :
  hi ≠ []
  ∧ worker_side (exchange_run twice ([TheCoordinator; TheWorker] ++ in_turn 16)
                   (round_trip sample_worker sample_coordinator 1 alice hi))
    = Ret (hi ++ hi).
Proof.
  assert (hi ≠ []) as Hne by discriminate.
  split; [exact Hne|].
  exact (proj1 (round_trip_with_any_handler twice sample_worker sample_coordinator 0 alice hi
                  [TheCoordinator; TheWorker] Hne)).
Defined.

(** The same round trip with a handler that raises, run: the worker gets
    [b''] and the processing loop has ended. *)
Lemma refused_round_trip :
  let x := exchange_run refuse (in_turn 16)
             (round_trip sample_worker sample_coordinator 3 alice hi) in
  worker_side x = Ret [] ∧ coordinator_side x = Raise (Exception "refused").
Proof. vm_compute. done. Qed.



(* ===================================================================== *)
(** ** What stops the processing loop *)
(* ===================================================================== *)

Section PassRaises.

Variable handle_request : fd → address → bytes → result bytes.
Variable self : Coordinator.t.

(** The [try] block raises the error of its read, of the handler or of its
    write. *)
Lemma try_block_raises (w : world) (s : fd) (a : address) (st : socket_state) (e : exn) :
  sockets w !! s = Some st → closed st = false →
  fails_in_try_block handle_request s a st e →
  result_of (exec handle_request (try_block s a) w) = Raised e.
Proof.
  intros Hs Hc [Hrf|(Hrf & Hrx & [Hh|(response & Hh & Hsf)])].
  - unfold try_block. cbn [exec mbind prog_bind bind sock_recv call_raising do_op].
    by rewrite (usable_live _ _ _ Hs Hc), Hrf.
  - by destruct (try_block_handler_raises handle_request w s a st e Hs Hc Hrf Hrx Hh)
      as (w' & -> & _).
  - unfold try_block. cbn [exec mbind prog_bind bind sock_recv call_raising].
    rewrite (do_op_recv_live _ _ _ _ 1024 Hs Hc Hrf ltac:(lia) Hrx).
    cbn [exec mbind prog_bind bind Coordinator.handle_request call_raising do_op].
    rewrite Hh.
    cbn [exec mbind prog_bind bind sock_send call_raising do_op].
    erewrite usable_live; [|by apply lookup_insert_eq|done].
    cbn. by rewrite Hsf.
Qed.

(** The [finally] block returns, so that the pass raises what its [try]
    block raises. *)
Lemma pass_raises (w : world) (s : fd) (a : address) (rest : list request)
    (st : socket_state) (e : exn) :
  Queue.items (request_queue w) = (s, a) :: rest →
  Queue.wf (request_queue w) →
  sockets w !! s = Some st → closed st = false →
  fails_in_try_block handle_request s a st e →
  result_of (exec handle_request (Coordinator.process_request self) w) = Raised e.
Proof.
  intros Hq Hwf Hs Hc Hfail. rewrite (exec_process_request _ _ _ _ _ _ Hq).
  unfold Queue.wf in *. rewrite Hq in Hwf. simpl in Hwf.
  destruct (Queue.unfinished_tasks (request_queue w)) as [|n] eqn:Hn; [lia|].
  change (?p ;; ?q) with (p ≫= λ _, q).
  rewrite exec_bind, exec_display_update.
  destruct (Coordinator.are_updates_displayed self);
    unfold and_then; cbn [result_of world_of trace_of];
    rewrite exec_try_finally;
    match goal with
    | |- context [exec _ (try_block s a) ?w2] =>
        pose proof (try_block_frame handle_request s a w2) as (Q & _);
        pose proof (try_block_raises w2 s a st e Hs Hc Hfail) as R;
        destruct (exec handle_request (try_block s a) w2) as [r3 w3 tr3]
    end;
    cbn [result_of world_of trace_of] in *; subst r3;
    unfold and_finally, after_event; cbn [result_of world_of trace_of];
    (pose proof (finally_block_run handle_request self s a w3 n) as F;
     rewrite Q in F; specialize (F eq_refl); cbv zeta in F;
     destruct F as (RF & _);
     destruct (exec handle_request (finally_block self s a) w3) as [rf w4 tr4];
     cbn [result_of world_of trace_of] in *; by subst rf).
Qed.

End PassRaises.

(** X18. Whatever raises in the [try] block of a pass, the [recv], the
    handler or the [send], ends the processing loop with that exception.
    The [finally] block has run before: the connection of that pass has
    been closed and its entry marked done, by a [task_done()] that
    returned, so that one unfinished task fewer is left; the entries behind
    it stay in the queue, and which other sockets are open is as before:
    nothing serves them any more. *)
Theorem any_error_in_a_pass_ends_the_loop
    (handle_request : fd → address → bytes → result bytes) (self : Coordinator.t)
    (w : world) (s : fd) (a : address) (rest : list request) (st : socket_state)
    (e : exn) (fuel : nat) :
  Queue.items (request_queue w) = (s, a) :: rest →
  Queue.wf (request_queue w) →
  sockets w !! s = Some st → closed st = false →
  fails_in_try_block handle_request s a st e →
  let r := exec handle_request (Coordinator.process_requests self (S fuel)) w in
  result_of r = Raised e
  ∧ dequeued (trace_of r) = [(s, a)]
  ∧ closes (trace_of r) = [s]
  ∧ task_dones (trace_of r) = 1%nat
  ∧ S (Queue.unfinished_tasks (request_queue (world_of r)))
    = Queue.unfinished_tasks (request_queue w)
  ∧ Queue.items (request_queue (world_of r)) = rest
  ∧ socket_status (world_of r) = alter (λ _, true) s (socket_status w).
Proof.
  intros Hq Hwf Hs Hc Hfail. cbv zeta.
  pose proof (pass_raises handle_request self w s a rest st e Hq Hwf Hs Hc Hfail) as R.
  rewrite (loop_ends_when_a_pass_raises _ _ _ _ _ R).
  destruct (pass_closes_and_marks_done handle_request self w s a rest Hq Hwf)
    as (D & C & T & S1 & Q & U & _); [unfold exited; by rewrite R|].
  by split_and!.
Qed.

Lemma any_error_in_a_pass_ends_the_loop_witness :
  let failed_read :=
    exec echo (Coordinator.process_requests sample_coordinator 4) alice_reset_then_bob in
  let failed_handler :=
    exec refuse (Coordinator.process_requests sample_coordinator 4) alice_waiting in
  (result_of failed_read = Raised reset_by_peer
   ∧ closes (trace_of failed_read) = [5%nat]
   ∧ Queue.unfinished_tasks (request_queue (world_of failed_read)) = 1%nat
   ∧ Queue.items (request_queue (world_of failed_read)) = [(6%nat, bob)])
  ∧ (result_of failed_handler = Raised (Exception "refused")
     ∧ closes (trace_of failed_handler) = [5%nat]
     ∧ Queue.unfinished_tasks (request_queue (world_of failed_handler)) = 0%nat).
Proof.
  split.
  - destruct (any_error_in_a_pass_ends_the_loop echo sample_coordinator alice_reset_then_bob
                5%nat alice [(6%nat, bob)] (client_failing_recv reset_by_peer)
                reset_by_peer 3) as (R & _ & C & _ & U & Q & _).
    + reflexivity.
    + unfold Queue.wf. simpl. lia.
    + reflexivity.
    + reflexivity.
    + left. reflexivity.
    + split; [exact R|]. split; [exact C|]. split; [|exact Q].
      exact (eq_add_S _ _ U).
  - destruct (any_error_in_a_pass_ends_the_loop refuse sample_coordinator alice_waiting
                5%nat alice [] (client_with hi) (Exception "refused") 3)
      as (R & _ & C & _ & U & _).
    + reflexivity.
    + unfold Queue.wf. simpl. lia.
    + reflexivity.
    + reflexivity.
    + right. split; [reflexivity|]. split; [left; simpl; discriminate|]. left. reflexivity.
    + split; [exact R|]. split; [exact C|]. exact (eq_add_S _ _ U).
Defined.

(** X19. A client that connects and sends nothing holds up every client
    behind it.  The pass over its entry waits in [recv], which has no
    timeout: however long the loop runs, it stays there, no handler is
    called, and the entries behind stay in the queue. *)
Theorem silent_client_holds_up_the_queue
    (handle_request : fd → address → bytes → result bytes) (self : Coordinator.t)
    (w : world) (s : fd) (a : address) (rest : list request) (st : socket_state)
    (fuel : nat) :
  Queue.items (request_queue w) = (s, a) :: rest →
  sockets w !! s = Some st → closed st = false → recv_fault st = None →
  rx st = [] → rx_eof st = false →
  let r := exec handle_request (Coordinator.process_requests self (S fuel)) w in
  result_of r = Blocked
  ∧ dequeued (trace_of r) = [(s, a)]
  ∧ handler_calls (trace_of r) = []
  ∧ closes (trace_of r) = []
  ∧ Queue.items (request_queue (world_of r)) = rest.
Proof.
  intros Hq Hs Hc Hrf Hrx Heof. cbv zeta.
  rewrite exec_process_requests_S, (exec_process_request _ _ _ _ _ _ Hq).
  change (?p ;; ?q) with (p ≫= λ _, q).
  rewrite exec_bind, exec_display_update.
  destruct (Coordinator.are_updates_displayed self);
    unfold and_then; cbn [result_of world_of trace_of];
    rewrite exec_try_finally; unfold try_block;
    cbn [exec mbind prog_bind bind sock_recv call_raising];
    (erewrite do_op_recv_waits; [|exact Hs|exact Hc|exact Hrf|lia|exact Hrx|exact Heof]);
    by cbn.
Qed.

Lemma silent_client_holds_up_the_queue_witness :
  let r := exec echo (Coordinator.process_requests sample_coordinator 9)
             (serving [(5%nat, silent_client); (6%nat, client_with yo)]
                      [(5%nat, alice); (6%nat, bob)]) in
  result_of r = Blocked
  ∧ Queue.items (request_queue (world_of r)) = [(6%nat, bob)].
Proof.
  destruct (silent_client_holds_up_the_queue echo sample_coordinator
              (serving [(5%nat, silent_client); (6%nat, client_with yo)]
                       [(5%nat, alice); (6%nat, bob)])
              5%nat alice [(6%nat, bob)] silent_client 8) as (R & _ & _ & _ & Q);
    try reflexivity.
  split; [exact R|exact Q].
Defined.

(* ===================================================================== *)
(** ** The order of the queue *)
(* ===================================================================== *)

(** A step of the pool, when the thread's next call answers. *)
Lemma system_step_go (handle_request : fd → address → bytes → result bytes)
    (self : Coordinator.t) (fuel i : nat) (w w' : world) (p : list thread) (th : thread)
    {X : Type} (o : op X) (k : X → prog unit) (x : X) :
  p !! i = Some th → code th = Vis o k →
  is_handle o && negb (in_handler th) = false →
  do_op handle_request o w = Some (x, w') →
  system_step handle_request self fuel i (System w p)
  = System w' (<[i := Thread (k x) false]> p ++ new_threads self fuel o).
Proof.
  intros Hi Hc Hh Hop. unfold system_step, thread_step. simpl. by rewrite Hi, Hc, Hh, Hop.
Qed.

(** Let the scheduled thread make its next call. *)
Ltac go :=
  erewrite system_step_go;
  [ | reflexivity | cbn -[Coordinator.accept_loop Coordinator.process_requests]; reflexivity
    | reflexivity | ];
  [cbn [app insert list_insert new_threads started Coordinator.thread_target]|].

(** A call on the server socket of [start], which is there and open. *)
Ltac on_server_socket :=
  simpl; unfold usable; simpl; rewrite lookup_insert_eq; simpl.

(** A call of [start] whose port and backlog are in range. *)
Ltac in_range :=
  cbn [do_op snd];
  repeat match goal with
         | H : port_in_range _ = true |- _ => rewrite H
         | H : fits_c_int _ = true |- _ => rewrite H
         end.

(** X20. The order of the queue is the order in which the registration
    threads get to run, not the order in which the connections were
    accepted.  Of two connections accepted one after the other, each handed
    to its own thread, the one accepted second can be queued, and so served,
    first. *)
Theorem queue_order_is_not_acceptance_order
    (handle_request : fd → address → bytes → result bytes) (self : Coordinator.t)
    (n : nat) (w : world) (c1 c2 : request) :
  socket_fault w = None →
  port_in_range (Coordinator.port self) = true →
  fits_c_int (Coordinator.max_num_of_clients self) = true →
  (Coordinator.host self, Coordinator.port self) ∉ bound w →
  arrivals w = [Ok c1; Ok c2] →
  Queue.items (request_queue w) = [] →
  ∃ schedule : list nat,
    let σ := system_run handle_request self (S (S n)) schedule (boot self (S (S n)) w) in
    threads (shared σ)
    = threads w ++ [(ProcessRequests, Some true); registration c1; registration c2]
    ∧ Queue.items (request_queue (shared σ)) = [c2; c1].
Proof.
  intros Hf Hport Hbacklog Hb Ha Hq. destruct c1 as [s1 a1], c2 as [s2 a2].
  destruct self as [host port backlog []];
    cbn [Coordinator.host Coordinator.port Coordinator.max_num_of_clients] in *.
  - exists [0; 0; 0; 0; 0; 0; 0; 0; 0; 0; 0; 3; 2]%nat.
    unfold system_run, boot. cbn [foldl].
    go. 2: { simpl. rewrite Hf. reflexivity. }
    go. 2: { in_range. on_server_socket. rewrite decide_False by done. reflexivity. }
    go. 2: { in_range. on_server_socket. reflexivity. }
    go. 2: { reflexivity. }
    go. 2: { reflexivity. }
    go. 2: { on_server_socket. rewrite Ha. reflexivity. }
    go. 2: { reflexivity. }
    go. 2: { reflexivity. }
    go. 2: { on_server_socket. reflexivity. }
    go. 2: { reflexivity. }
    go. 2: { reflexivity. }
    go. 2: { reflexivity. }
    go. 2: { reflexivity. }
    simpl. rewrite Hq. split; [|reflexivity]. by rewrite <- !app_assoc.
  - exists [0; 0; 0; 0; 0; 0; 0; 0; 3; 2]%nat.
    unfold system_run, boot. cbn [foldl].
    go. 2: { simpl. rewrite Hf. reflexivity. }
    go. 2: { in_range. on_server_socket. rewrite decide_False by done. reflexivity. }
    go. 2: { in_range. on_server_socket. reflexivity. }
    go. 2: { reflexivity. }
    go. 2: { on_server_socket. rewrite Ha. reflexivity. }
    go. 2: { reflexivity. }
    go. 2: { on_server_socket. reflexivity. }
    go. 2: { reflexivity. }
    go. 2: { reflexivity. }
    go. 2: { reflexivity. }
    simpl. rewrite Hq. split; [|reflexivity]. by rewrite <- !app_assoc.
Qed.

Lemma queue_order_is_not_acceptance_order_witness :
  arrivals alice_then_bob = [Ok (5%nat, alice); Ok (6%nat, bob)]
  ∧ ∃ schedule : list nat,
      Queue.items (request_queue (shared
        (system_run echo sample_coordinator 2 schedule (boot sample_coordinator 2 alice_then_bob))))
      = [(6%nat, bob); (5%nat, alice)].
Proof.
  split; [reflexivity|].
  destruct (queue_order_is_not_acceptance_order echo sample_coordinator 0 alice_then_bob
              (5%nat, alice) (6%nat, bob)) as (schedule & _ & Hq).
  - reflexivity.
  - reflexivity.
  - reflexivity.
  - vm_compute. intros H. discriminate H.
  - reflexivity.
  - reflexivity.
  - by exists schedule.
Defined.
